(** * Outline builder and content transformer of server/libs/markdown.js

    A shallow embedding of the table-of-contents builder
    ([buildTreeFlatArray], [parseTree]), of the meta-data scanner
    ([parseMeta]) and of the markup post-processing pipeline
    ([parseContent]) together with the properties their documentation
    states about them. *)

From stdpp Require Import base option list strings gmap.
From Stdlib Require Import Ascii Lia.

Set Warnings "-register-all".
Open Scope string_scope.
Open Scope list_scope.
Open Scope nat_scope.

(** ** Outcomes of JavaScript code

    A call either returns a value or throws.  Recursive functions are
    written with an explicit amount of fuel; [OutOfFuel] is the answer of a
    run that was cut short, and every function below comes with a proof
    that a stated amount of fuel is enough. *)

Inductive outcome (A : Type) : Type :=
| Ret (a : A)
| Throw (e : string)
| OutOfFuel.

Arguments Ret {A} a.
Arguments Throw {A} e.
Arguments OutOfFuel {A}.

Definition TypeError : string := "TypeError".

Definition finished {A} (o : outcome A) : Prop := o <> OutOfFuel.

(** [x || d] on an optional number: [undefined] and [0] are falsy. *)
Definition or_default (x : option nat) (d : nat) : nat :=
  match x with
  | Some (S n) => S n
  | _ => d
  end.

(** ** Data model of the outline *)

(** A heading record [{content, anchor, level}] of the flat array.  The
    level is the digit of the heading tag, a natural number.  The builder
    copies [content] through untouched, so its type is left open: it is
    [string] in the program, and a string paired with the position of the
    record when the origin of a node has to be traced. *)
Record Heading (T : Type) : Type := mkHeading {
  content : T;
  anchor : string;
  level : nat
}.

Arguments mkHeading {T} content anchor level.
Arguments content {T} h.
Arguments anchor {T} h.
Arguments level {T} h.

(** An outline node [{content, anchor, nodes}]. *)
Inductive OutlineNode (T : Type) : Type :=
| mkNode (n_content : T) (n_anchor : string) (nodes : list (OutlineNode T)).

Arguments mkNode {T} n_content n_anchor nodes.

Definition n_content {T} (n : OutlineNode T) : T :=
  match n with mkNode c _ _ => c end.
Definition n_anchor {T} (n : OutlineNode T) : string :=
  match n with mkNode _ a _ => a end.
Definition nodes {T} (n : OutlineNode T) : list (OutlineNode T) :=
  match n with mkNode _ _ ns => ns end.

Section TreeBuilder.
Context {T : Type}.

(** [requestedLevelTree[requestedLevelTree.length - 1].nodes = nextLevelTree]:
    on an empty array the element at index [-1] is [undefined] and the
    assignment throws a TypeError. *)
Definition set_last_nodes (requestedLevelTree nextLevelTree : list (OutlineNode T))
  : outcome (list (OutlineNode T)) :=
  match length requestedLevelTree with
  | 0 => Throw TypeError
  | S k =>
      match requestedLevelTree !! k with
      | Some (mkNode c a _) => Ret (<[k := mkNode c a nextLevelTree]> requestedLevelTree)
      | None => Throw TypeError
      end
  end.

(** [buildTreeFlatArray(array, requestedLevel, requestedLevelContext)].
    The context object is passed as the value of its [startFrom] field,
    [None] when it is missing, and handed back, updated, next to the tree.
    [while_loop] is the loop [while (index < array.length)] with its two
    variables, the tree built so far and the cursor; every iteration and
    every call costs one unit of fuel. *)
Fixpoint buildTreeFlatArray_fuel (fuel : nat) (array : list (Heading T))
    (requestedLevel : option nat) (startFrom : option nat)
  : outcome (list (OutlineNode T) * nat) :=
  match fuel with
  | 0 => OutOfFuel
  | S fuel =>
      while_loop fuel array (or_default requestedLevel 1) [] (or_default startFrom 0)
  end
with while_loop (fuel : nat) (array : list (Heading T)) (requestedLevel : nat)
    (requestedLevelTree : list (OutlineNode T)) (index : nat)
  : outcome (list (OutlineNode T) * nat) :=
  match fuel with
  | 0 => OutOfFuel
  | S fuel =>
      match array !! index with
      | None => Ret (requestedLevelTree, index)
      | Some currentNode =>
          if level currentNode <? requestedLevel then
            Ret (requestedLevelTree, index)
          else if level currentNode =? requestedLevel then
            while_loop fuel array requestedLevel
              (requestedLevelTree ++ [mkNode (content currentNode) (anchor currentNode) []])
              (S index)
          else
            match buildTreeFlatArray_fuel fuel array (Some (level currentNode)) (Some index) with
            | Ret (nextLevelTree, next) =>
                match set_last_nodes requestedLevelTree nextLevelTree with
                | Ret tree' => while_loop fuel array requestedLevel tree' next
                | Throw e => Throw e
                | OutOfFuel => OutOfFuel
                end
            | Throw e => Throw e
            | OutOfFuel => OutOfFuel
            end
      end
  end.

(** Fuel that always suffices: three steps for every record. *)
Definition buildTreeFlatArray (array : list (Heading T))
    (requestedLevel : option nat) (startFrom : option nat)
  : outcome (list (OutlineNode T) * nat) :=
  buildTreeFlatArray_fuel (3 * length array + 2) array requestedLevel startFrom.

End TreeBuilder.


(** ** Well-formed outlines and the depth-first flattening *)

(** [reset x stack] closes the open levels deeper than [x]. *)
Fixpoint reset (x : nat) (stack : list nat) : list nat :=
  match stack with
  | top :: stack' => if x <? top then reset x stack' else stack
  | [] => []
  end.

(** [wf_from stack levels]: [stack] lists the levels that are open, the
    level of the last heading first and then those of its ancestors.  The
    next heading either goes deeper than the last one (by one level or
    more), or returns to a level that is still open: its own level again,
    or the level of one of its ancestors.  A heading that comes back to a
    level between two open ones has no place: the deeper headings before it
    stand in front of a level that should be above them. *)
Fixpoint wf_from (stack : list nat) (levels : list nat) : bool :=
  match levels with
  | [] => true
  | x :: levels' =>
      match stack with
      | [] => false
      | top :: _ =>
          if top <? x then wf_from (x :: stack) levels'
          else
            match reset x stack with
            | top' :: _ => (top' =? x) && wf_from (reset x stack) levels'
            | [] => false
            end
      end
  end.

(** A well-formed outline opens with a heading of the start level. *)
Definition well_formed (start : nat) (levels : list nat) : bool :=
  match levels with
  | [] => true
  | x :: levels' => (x =? start) && wf_from [start] levels'
  end.

(** The nodes of a tree in depth-first order, parents first; of a node
    the content and the anchor are kept. *)
Fixpoint flatten {T} (n : OutlineNode T) : list (T * string) :=
  match n with
  | mkNode c a ns => (c, a) :: flat_map flatten ns
  end.

Definition flatten_forest {T} (forest : list (OutlineNode T)) : list (T * string) :=
  flat_map flatten forest.

(** What a record hands to its node. *)
Definition payload {T} (h : Heading T) : T * string := (content h, anchor h).


(** ** Tracing nodes back to the records they were made from *)

Definition heading_map {A B} (g : A -> B) (h : Heading A) : Heading B :=
  mkHeading (g (content h)) (anchor h) (level h).

Fixpoint node_map {A B} (g : A -> B) (n : OutlineNode A) : OutlineNode B :=
  match n with
  | mkNode c a ns => mkNode (g c) a (map (node_map g) ns)
  end.

Definition outcome_map {A B} (g : A -> B) (o : outcome A) : outcome B :=
  match o with
  | Ret a => Ret (g a)
  | Throw e => Throw e
  | OutOfFuel => OutOfFuel
  end.

Definition forest_map {A B} (g : A -> B) (r : list (OutlineNode A) * nat)
  : list (OutlineNode B) * nat :=
  (map (node_map g) r.1, r.2).

(** The flat array with every record's content paired with its position. *)
Definition tag_positions {T} (array : list (Heading T)) : list (Heading (nat * T)) :=
  imap (fun i h => mkHeading (i, content h) (anchor h) (level h)) array.

Definition origin {T} (n : OutlineNode (nat * T)) : nat := (n_content n).1.

(** The invariant of the outline, on a forest built from the tagged array:
    a node made from record [i] has children made from later records, and
    every record after [i] up to a child is deeper than record [i]. *)
Inductive traced_ok {T} (array : list (Heading T)) : OutlineNode (nat * T) -> Prop :=
| traced_node i h ns :
    array !! i = Some h ->
    Forall (fun ch => i < origin ch /\
                      forall k hk, i < k <= origin ch -> array !! k = Some hk ->
                                   level h < level hk) ns ->
    Forall (traced_ok array) ns ->
    traced_ok array (mkNode (i, content h) (anchor h) ns).


(** What the loop keeps true, at level [r], of a run that started at
    record [i0] and stands before record [i]. *)
Definition loop_inv {T} (array : list (Heading T)) (r i0 i : nat) (tree : list (OutlineNode (nat * T))) : Prop :=
  Forall (fun n => traced_ok array n /\ i0 <= origin n < i /\
                   exists h, array !! origin n = Some h /\ level h = r) tree /\
  (forall k hk, i0 <= k < i -> array !! k = Some hk -> r <= level hk) /\
  (forall n, last tree = Some n ->
             forall k hk, origin n < k < i -> array !! k = Some hk -> r < level hk).


(** ** parseTree

    The heading scan of [parseTree] runs the markdown tokenizer, which is
    not part of this file; [tocArray] is the flat array it leaves.  What
    follows is the rest of the function: the records deeper than level 3
    are removed in place ([_.remove]) and the rest is handed to the
    builder with its default level and context. *)

Definition parseTree {T} (tocArray : list (Heading T)) : outcome (list (OutlineNode T)) :=
  let tocArray := List.filter (fun n => negb (3 <? level n)) tocArray in
  outcome_map fst (buildTreeFlatArray tocArray None None).

(** The outline used as the running example: A, then B with C below it,
    then D next to B. *)
Definition sample_outline : list (Heading string) :=
  [mkHeading "A" "a" 1; mkHeading "B" "b" 2; mkHeading "C" "c" 3; mkHeading "D" "d" 2].


(** * Strings and regular expressions

    A JavaScript string is modelled by the list of its code units, taken
    from [ascii]: code units above 255 are not represented.  The string
    literals of the program are written as Rocq strings and converted with
    [str]. *)

Definition str (s : string) : list ascii := String.list_ascii_of_string s.
Definition unstr (s : list ascii) : string := String.string_of_list_ascii s.

Definition code (c : ascii) : nat := nat_of_ascii c.

Definition in_range (lo hi : nat) (c : ascii) : bool :=
  (lo <=? code c) && (code c <=? hi).

Definition is_upper (c : ascii) : bool := in_range 65 90 c.
Definition is_lower (c : ascii) : bool := in_range 97 122 c.
Definition is_digit (c : ascii) : bool := in_range 48 57 c.
Definition is_letter (c : ascii) : bool := is_upper c || is_lower c.

(** The class [\w]. *)
Definition is_word (c : ascii) : bool := is_letter c || is_digit c || (code c =? 95).

(** The atom [.]: every code unit but a line terminator. *)
Definition is_dot (c : ascii) : bool := negb ((code c =? 10) || (code c =? 13)).

(** White space as [trim] sees it, among the code units below 256. *)
Definition is_space (c : ascii) : bool :=
  in_range 9 13 c || (code c =? 32) || (code c =? 160).

(** [toLowerCase] on one code unit: A-Z and the capitals of Latin-1. *)
Definition lower (c : ascii) : ascii :=
  if is_upper c || (in_range 192 222 c && negb (code c =? 215))
  then ascii_of_nat (code c + 32)
  else c.

(** [_.toLower(s)] *)
Definition toLower (s : list ascii) : list ascii := map lower s.

Fixpoint trimStart (s : list ascii) : list ascii :=
  match s with
  | c :: s' => if is_space c then trimStart s' else s
  | [] => []
  end.

(** [_.trim(s)] *)
Definition trim (s : list ascii) : list ascii :=
  rev (trimStart (rev (trimStart s))).

(** Equality of code units, with or without the flag [i].  The patterns of
    the program hold code units below 128 only, for which two code units
    are the same up to case when their lower-case forms agree. *)
Definition same_char (ignoreCase : bool) (a b : ascii) : bool :=
  if ignoreCase then Ascii.eqb (lower a) (lower b) else Ascii.eqb a b.

(** ** Patterns

    The fragment of the pattern language that the program uses.  [Star] and
    [Opt] are the greedy quantifiers [*] and [?]; [Group n] is the capture
    group with number [n]; [EndOfInput] is [$] without the flag [m]. *)
Inductive regex : Type :=
| Empty
| Char (p : ascii -> bool)
| Seq (r1 r2 : regex)
| Alt (r1 r2 : regex)
| Star (r : regex)
| Opt (r : regex)
| Group (n : nat) (r : regex)
| EndOfInput.

(** [r+] *)
Definition Plus (r : regex) : regex := Seq r (Star r).

Definition seqs (rs : list regex) : regex := foldr Seq Empty rs.

(** [r|r1|...|rn], the alternatives being tried in this order. *)
Fixpoint alts (r : regex) (rs : list regex) : regex :=
  match rs with
  | [] => r
  | r' :: rs' => Alt r (alts r' rs')
  end.

(** A literal piece of a pattern. *)
Definition lit (ignoreCase : bool) (s : string) : regex :=
  seqs (map (fun c => Char (same_char ignoreCase c)) (str s)).

(** A class [[...]] given by its members, and its negation [[^...]]. *)
Definition one_of (ignoreCase : bool) (s : string) : regex :=
  Char (fun c => existsb (same_char ignoreCase c) (str s)).
Definition none_of (ignoreCase : bool) (s : string) : regex :=
  Char (fun c => negb (existsb (same_char ignoreCase c) (str s))).

(** The captures made so far: group number and captured text, the latest
    first. *)
Definition captures : Type := list (nat * list ascii).

Fixpoint capture (n : nat) (caps : captures) : option (list ascii) :=
  match caps with
  | (m, s) :: caps' => if m =? n then Some s else capture n caps'
  | [] => None
  end.

(** ** The backtracking matcher

    [rmatch r s caps k] matches [r] at the front of [s] and hands the rest
    of the input and the captures to the continuation [k]; when [k] fails
    the matcher backtracks into [r].  Alternatives are tried from left to
    right and quantifiers take as much as they can, as in ECMAScript; an
    iteration of a quantifier that consumes nothing is rejected. *)
Section Matcher.
Context {R : Type}.

Fixpoint star (m : list ascii -> captures -> (list ascii -> captures -> option R) -> option R)
    (fuel : nat) (s : list ascii) (caps : captures)
    (k : list ascii -> captures -> option R) : option R :=
  match
    match fuel with
    | 0 => None
    | S fuel' =>
        m s caps (fun s' caps' =>
                    if length s' <? length s then star m fuel' s' caps' k else None)
    end
  with
  | Some x => Some x
  | None => k s caps
  end.

Fixpoint rmatch (r : regex) (s : list ascii) (caps : captures)
    (k : list ascii -> captures -> option R) : option R :=
  match r with
  | Empty => k s caps
  | Char p =>
      match s with
      | c :: s' => if p c then k s' caps else None
      | [] => None
      end
  | Seq r1 r2 => rmatch r1 s caps (fun s' caps' => rmatch r2 s' caps' k)
  | Alt r1 r2 =>
      match rmatch r1 s caps k with
      | Some x => Some x
      | None => rmatch r2 s caps k
      end
  | Star r1 => star (rmatch r1) (length s) s caps k
  | Opt r1 =>
      match
        rmatch r1 s caps (fun s' caps' => if length s' <? length s then k s' caps' else None)
      with
      | Some x => Some x
      | None => k s caps
      end
  | Group n r1 =>
      rmatch r1 s caps
        (fun s' caps' => k s' ((n, take (length s - length s') s) :: caps'))
  | EndOfInput =>
      match s with
      | [] => k s caps
      | _ :: _ => None
      end
  end.

End Matcher.

(** The result of a successful match: where it starts, the text matched,
    the captures, and the input left after it. *)
Record MatchResult : Type := mkMatch {
  m_index : nat;
  m_text : list ascii;
  m_captures : captures;
  m_rest : list ascii
}.

(** The match array [[text, group 1, ..., group n]] of a pattern with [n]
    groups; a group that took no part is [undefined], here [None]. *)
Definition match_array (n : nat) (m : MatchResult) : list (option (list ascii)) :=
  Some (m_text m) :: map (fun g => capture g (m_captures m)) (seq 1 n).

(** The match of [r] at the front of [s]. *)
Definition match_here (r : regex) (index : nat) (s : list ascii) : option MatchResult :=
  match rmatch r s [] (fun s' caps => Some (s', caps)) with
  | Some (s', caps) => Some (mkMatch index (take (length s - length s') s) caps s')
  | None => None
  end.

(** [RegExp.prototype.exec]: the leftmost match in [s], the start positions
    being tried one after the other, the position behind the last code unit
    included. *)
Fixpoint exec (r : regex) (index : nat) (s : list ascii) : option MatchResult :=
  match match_here r index s with
  | Some m => Some m
  | None =>
      match s with
      | _ :: s' => exec r (S index) s'
      | [] => None
      end
  end.

(** ** parseMeta *)

(** The pattern of [commentMeta], with the flag [g]: the comment mark
    [<!--], an optional blank, group 1 [([a-zA-Z]+)], a colon, group 2 (a
    greedy run of [.]) and the closing mark [-->]. *)
Definition commentMeta : regex :=
  seqs [lit false "<!--"; Opt (lit false " "); Group 1 (Plus (Char is_letter));
        lit false ":"; Group 2 (Star (Char is_dot)); lit false "-->"].

Definition group (n : nat) (m : MatchResult) : list ascii :=
  default [] (capture n (m_captures m)).

(** The loop [while ((match = commentMeta.exec(content)) !== null)].  The
    pattern carries the flag [g]: every call of [exec] resumes where the
    match before it ended, which is kept here as the input still to be
    searched.  [results] is the object being filled. *)
Fixpoint parseMeta_loop (fuel : nat) (rest : list ascii) (results : gmap string string)
  : outcome (gmap string string) :=
  match fuel with
  | 0 => OutOfFuel
  | S fuel =>
      match exec commentMeta 0 rest with
      | None => Ret results
      | Some m =>
          parseMeta_loop fuel (m_rest m)
            (<[unstr (toLower (group 1 m)) := unstr (trim (group 2 m))]> results)
      end
  end.

Definition parseMeta (content : string) : outcome (gmap string string) :=
  parseMeta_loop (S (String.length content)) (str content) ∅.

(** The directives of a text, as the specification words them: every
    piece matching [key: value] between comment marks, taken from left to
    right, the name in lower case and the value trimmed. *)
Fixpoint directives (fuel : nat) (rest : list ascii) : list (string * string) :=
  match fuel with
  | 0 => []
  | S fuel =>
      match exec commentMeta 0 rest with
      | None => []
      | Some m =>
          (unstr (toLower (group 1 m)), unstr (trim (group 2 m)))
            :: directives fuel (m_rest m)
      end
  end.

(** ** What a match is

    [matches r s caps s' caps']: the pattern [r] matches the front of [s]
    and leaves [s'], turning the captures [caps] into [caps'].  The
    relation says which matches there are; which of them the matcher
    returns is decided by its order of search. *)
Inductive matches : regex -> list ascii -> captures -> list ascii -> captures -> Prop :=
| matches_empty s caps :
    matches Empty s caps s caps
| matches_char p c s caps :
    p c = true -> matches (Char p) (c :: s) caps s caps
| matches_seq r1 r2 s caps s1 caps1 s2 caps2 :
    matches r1 s caps s1 caps1 -> matches r2 s1 caps1 s2 caps2 ->
    matches (Seq r1 r2) s caps s2 caps2
| matches_alt_l r1 r2 s caps s' caps' :
    matches r1 s caps s' caps' -> matches (Alt r1 r2) s caps s' caps'
| matches_alt_r r1 r2 s caps s' caps' :
    matches r2 s caps s' caps' -> matches (Alt r1 r2) s caps s' caps'
| matches_star_stop r s caps :
    matches (Star r) s caps s caps
| matches_star_more r s caps s1 caps1 s2 caps2 :
    matches r s caps s1 caps1 -> length s1 < length s ->
    matches (Star r) s1 caps1 s2 caps2 ->
    matches (Star r) s caps s2 caps2
| matches_opt_skip r s caps :
    matches (Opt r) s caps s caps
| matches_opt_take r s caps s' caps' :
    matches r s caps s' caps' -> length s' < length s ->
    matches (Opt r) s caps s' caps'
| matches_group n r s caps s' caps' :
    matches r s caps s' caps' ->
    matches (Group n r) s caps s' ((n, take (length s - length s') s) :: caps')
| matches_end caps :
    matches EndOfInput [] caps [] caps.

(** A comment directive at the front of [s]: the opening mark, an optional
    blank, a name made of letters, a colon, a value without line
    terminator, the closing mark, and [rest] behind it. *)
Definition directive_at (s name value rest : list ascii) : Prop :=
  exists blank,
    s = str "<!--" ++ blank ++ name ++ str ":" ++ value ++ str "-->" ++ rest /\
    (blank = [] \/ blank = str " ") /\
    name <> [] /\
    Forall (fun c => is_letter c = true) name /\
    Forall (fun c => is_dot c = true) value.

(** The same somewhere in [content]. *)
Definition directive_in (content name value : list ascii) : Prop :=
  exists offset rest, directive_at (drop offset content) name value rest.

(** [results[key] = value] *)
Definition set_entry (results : gmap string string) (kv : string * string)
  : gmap string string :=
  <[kv.1 := kv.2]> results.

(** The text of the example. *)
Definition title_directive : string := "<!-- title: Hello World -->".

Definition no_less_than (s : string) : Prop :=
  Forall (fun c => Ascii.eqb "<" c = false) (str s).

(** A text that is empty or begins with a line terminator. *)
Definition ends_line (s : string) : Prop :=
  match str s with
  | [] => True
  | c :: _ => is_dot c = false
  end.

(** A greedy run over [run], which gives back one code unit after the
    other until the continuation accepts what is left. *)
Fixpoint backoff {R} (k : list ascii -> captures -> option R) (run rest : list ascii)
    (caps : captures) : option R :=
  match run with
  | [] => k rest caps
  | c :: run' =>
      match backoff k run' rest caps with
      | Some x => Some x
      | None => k (c :: run' ++ rest) caps
      end
  end.

(** * Video rules *)

(** The double quote, which the templates below hold. *)
Definition dq : string := String (ascii_of_nat 34) EmptyString.

(** A selector of the form [name.class]. *)
Record Selector : Type := mkSelector {
  sel_name : string;
  sel_class : string
}.

(** One entry of [videoRules]; [regexp] is [None] where the program has
    [false]. *)
Record VideoRule : Type := mkVideoRule {
  selector : Selector;
  regexp : option regex;
  output : string
}.

Definition word : regex := Char is_word.
Definition digit : regex := Char is_digit.
Definition dot : regex := Char is_dot.

(** The pattern of the youtube rule, flag [i]: one of the marks
    [youtu.be/], [v/], [vi/], [u/\w/], [embed/], or [?v=], [?vi=],
    [watch?v=], [watch?vi=], [&v=], [&vi=]; then group 1, a run of code
    units other than [#], [&] and [?]; then the rest of the line. *)
Definition youtube_regexp : regex :=
  seqs [Alt (alts (lit true "youtu.be/")
               [lit true "v/"; lit true "vi/";
                seqs [lit true "u/"; word; lit true "/"]; lit true "embed/"])
            (Alt (seqs [Opt (lit true "watch"); lit true "?v"; Opt (lit true "i"); lit true "="])
                 (seqs [lit true "&v"; Opt (lit true "i"); lit true "="]));
        Group 1 (Star (none_of true "#&?"));
        Star dot].

(** The pattern of the vimeo rule, flag [i].  The dot of [vimeo.com] is
    not escaped in the program and stands for any code unit. *)
Definition vimeo_regexp : regex :=
  seqs [lit true "vimeo"; dot; lit true "com/";
        alts (seqs [lit true "channels/"; Opt (seqs [Plus word; lit true "/"])])
          [seqs [lit true "groups/"; Star (none_of true "/"); lit true "/videos/"];
           seqs [lit true "album/"; Plus digit; lit true "/video/"];
           Empty];
        Group 1 (Plus digit);
        alts EndOfInput [lit true "/"; lit true "?"]].

Definition alnum : regex := Char (fun c => is_digit c || is_letter c).
Definition id_char : regex :=
  Char (fun c => is_digit c || is_letter c || (code c =? 45) || (code c =? 95)).

(** The pattern of the dailymotion rule, flag [i]; under that flag the
    classes [[0-9a-z]] and [[a-z0-9]] take the capitals too. *)
Definition dailymotion_regexp : regex :=
  seqs [Alt (seqs [lit true "dailymotion.com"; Opt (lit true "/embed");
                   Alt (lit true "/video") (lit true "/hub")])
            (lit true "dai.ly");
        lit true "/";
        Group 1 (Plus alnum);
        Opt (seqs [Plus id_char; Opt (lit true "#video="); Opt (Group 2 (Plus alnum))])].

Definition youtube_output : string :=
  "<iframe width=" +:+ dq +:+ "640" +:+ dq +:+ " height=" +:+ dq +:+ "360" +:+ dq
  +:+ " src=" +:+ dq +:+ "https://www.youtube.com/embed/{0}?rel=0" +:+ dq
  +:+ " frameborder=" +:+ dq +:+ "0" +:+ dq +:+ " allowfullscreen></iframe>".

Definition vimeo_output : string :=
  "<iframe src=" +:+ dq +:+ "https://player.vimeo.com/video/{0}" +:+ dq
  +:+ " width=" +:+ dq +:+ "640" +:+ dq +:+ " height=" +:+ dq +:+ "360" +:+ dq
  +:+ " frameborder=" +:+ dq +:+ "0" +:+ dq
  +:+ " webkitallowfullscreen mozallowfullscreen allowfullscreen></iframe>".

Definition dailymotion_output : string :=
  "<iframe width=" +:+ dq +:+ "640" +:+ dq +:+ " height=" +:+ dq +:+ "360" +:+ dq
  +:+ " src=" +:+ dq +:+ "//www.dailymotion.com/embed/video/{0}?endscreen-enable=false" +:+ dq
  +:+ " frameborder=" +:+ dq +:+ "0" +:+ dq +:+ " allowfullscreen></iframe>".

Definition video_output : string :=
  "<video width=" +:+ dq +:+ "640" +:+ dq +:+ " height=" +:+ dq +:+ "360" +:+ dq
  +:+ " controls preload=" +:+ dq +:+ "metadata" +:+ dq
  +:+ "><source src=" +:+ dq +:+ "{0}" +:+ dq
  +:+ " type=" +:+ dq +:+ "video/mp4" +:+ dq +:+ "></video>".

Definition youtube_rule : VideoRule :=
  mkVideoRule (mkSelector "a" "youtube") (Some youtube_regexp) youtube_output.
Definition vimeo_rule : VideoRule :=
  mkVideoRule (mkSelector "a" "vimeo") (Some vimeo_regexp) vimeo_output.
Definition dailymotion_rule : VideoRule :=
  mkVideoRule (mkSelector "a" "dailymotion") (Some dailymotion_regexp) dailymotion_output.
Definition video_rule : VideoRule :=
  mkVideoRule (mkSelector "a" "video") None video_output.

Definition videoRules : list VideoRule :=
  [youtube_rule; vimeo_rule; dailymotion_rule; video_rule].

(** The number of capture groups of a pattern. *)
Fixpoint group_count (r : regex) : nat :=
  match r with
  | Seq r1 r2 | Alt r1 r2 => max (group_count r1) (group_count r2)
  | Star r1 | Opt r1 => group_count r1
  | Group n r1 => max n (group_count r1)
  | Empty | Char _ | EndOfInput => 0
  end.

(** [originLink.match(vrule.regexp)] for a pattern without the flag [g]:
    the match array of the leftmost match, or [null]. *)
Definition string_match (link : list ascii) (r : regex) : option (list (option (list ascii))) :=
  match_array (group_count r) <$> exec r 0 link.

(** [f && _.isString(f)] on an entry of the match array. *)
Definition truthy_string (f : option (list ascii)) : bool :=
  match f with
  | Some (_ :: _) => true
  | _ => false
  end.

(** The link that a rule puts into its template for an element whose
    [href] attribute is [href]: [undefined] is [None].  With a pattern,
    [match] is called on the attribute, which throws when there is none. *)
Definition originLink (vrule : VideoRule) (href : option string) : outcome (option (list ascii)) :=
  match regexp vrule with
  | Some r =>
      match href with
      | None => Throw TypeError
      | Some link =>
          match string_match (str link) r with
          | Some vidMatches => Ret (mjoin (last (List.filter truthy_string vidMatches)))
          | None => Ret (Some (str link))
          end
      end
  | None => Ret (str <$> href)
  end.

(** ** String.prototype.replace with a string pattern *)

Fixpoint starts_with (pat s : list ascii) : bool :=
  match pat, s with
  | [], _ => true
  | p :: pat', c :: s' => Ascii.eqb p c && starts_with pat' s'
  | _ :: _, [] => false
  end.

(** The first occurrence of [pat] in [s]: what stands before it and what
    stands after it. *)
Fixpoint find_first (pat s : list ascii) : option (list ascii * list ascii) :=
  if starts_with pat s then Some ([], drop (length pat) s)
  else
    match s with
    | c :: s' =>
        match find_first pat s' with
        | Some (before, after) => Some (c :: before, after)
        | None => None
        end
    | [] => None
    end.

(** The replacement text: [$$] is a dollar sign, [$&] the matched text,
    [$`] the text before the match and [$'] the text after it; a string
    pattern has no groups, so a dollar sign before a digit stays. *)
Fixpoint substitution (matched before after repl : list ascii) : list ascii :=
  match repl with
  | [] => []
  | c :: repl' =>
      if code c =? 36 then
        match repl' with
        | d :: repl'' =>
            if code d =? 36 then c :: substitution matched before after repl''
            else if code d =? 38 then matched ++ substitution matched before after repl''
            else if code d =? 96 then before ++ substitution matched before after repl''
            else if code d =? 39 then after ++ substitution matched before after repl''
            else c :: substitution matched before after repl'
        | [] => [c]
        end
      else c :: substitution matched before after repl'
  end.

(** [_.replace(s, pat, repl)] for strings [pat] and [repl]. *)
Definition replace (s pat repl : list ascii) : list ascii :=
  match find_first pat s with
  | Some (before, after) => before ++ substitution pat before after repl ++ after
  | None => s
  end.

(** [ToString] of a string or [undefined]. *)
Definition to_string (x : option (list ascii)) : list ascii :=
  default (str "undefined") x.

(** [_.replace(vrule.output, '{0}', originLink)] *)
Definition processedLink (vrule : VideoRule) (link : option (list ascii)) : string :=
  unstr (replace (str (output vrule)) (str "{0}") (to_string link)).

(** * The markup tree

    The tree that cheerio builds from the rendered markup: text, elements
    with a name, attributes and children, and the nodes that are neither
    (comments, directives).  The methods of cheerio that [parseContent]
    calls are modelled after their documentation. *)

Inductive DomNode : Type :=
| Text (data : string)
| Tag (name : string) (attribs : list (string * string)) (children : list DomNode)
| Comment (data : string).

Definition isTag (n : DomNode) : bool :=
  match n with
  | Tag _ _ _ => true
  | _ => false
  end.

(** [.children()] of cheerio: the children that are elements. *)
Definition elements (l : list DomNode) : list DomNode := List.filter isTag l.

Definition is_named (names : list string) (n : DomNode) : bool :=
  match n with
  | Tag name _ _ => existsb (String.eqb name) names
  | _ => false
  end.

(** ** Attributes and classes *)

(** [.attr(name)]: the value, or [undefined]. *)
Fixpoint attr (name : string) (attribs : list (string * string)) : option string :=
  match attribs with
  | (k, v) :: attribs' => if String.eqb k name then Some v else attr name attribs'
  | [] => None
  end.

(** [.attr(name, value)] *)
Fixpoint set_attr (name value : string) (attribs : list (string * string))
  : list (string * string) :=
  match attribs with
  | (k, v) :: attribs' =>
      if String.eqb k name then (k, value) :: attribs'
      else (k, v) :: set_attr name value attribs'
  | [] => [(name, value)]
  end.

(** [.removeAttr(name)] *)
Definition removeAttr (name : string) (attribs : list (string * string))
  : list (string * string) :=
  List.filter (fun kv => negb (String.eqb kv.1 name)) attribs.

(** A string cut at its white space. *)
Fixpoint split_space (s : list ascii) (current : list ascii) : list (list ascii) :=
  match s with
  | [] => match current with [] => [] | _ => [rev current] end
  | c :: s' =>
      if is_space c then
        match current with
        | [] => split_space s' []
        | _ => rev current :: split_space s' []
        end
      else split_space s' (c :: current)
  end.

Definition class_list (value : string) : list string :=
  map unstr (split_space (str value) []).

Definition class_names (attribs : list (string * string)) : list string :=
  class_list (default "" (attr "class" attribs)).

Definition join_space (names : list string) : string :=
  match names with
  | [] => ""
  | n :: names' => fold_left (fun acc m => acc +:+ " " +:+ m) names' n
  end.

(** [.hasClass(cls)] *)
Definition hasClass (cls : string) (attribs : list (string * string)) : bool :=
  existsb (String.eqb cls) (class_names attribs).

(** [value.split(/\s+/)]: the pieces between the runs of white space, the
    empty pieces at the two ends included. *)
Fixpoint split_runs (s current : list ascii) (gap : bool) : list (list ascii) :=
  match s with
  | [] => [rev current]
  | c :: s' =>
      if is_space c then
        if gap then split_runs s' [] true
        else rev current :: split_runs s' [] true
      else split_runs s' (c :: current) false
  end.

(** [pieces.join(sep)] *)
Fixpoint join_with (sep : list ascii) (pieces : list (list ascii)) : list ascii :=
  match pieces with
  | [] => []
  | [x] => x
  | x :: pieces' => x ++ sep ++ join_with sep pieces'
  end.

(** [.addClass(value)], as cheerio does it: nothing for the empty value;
    without a class attribute, or with an empty one, the attribute is set
    to the names of [value]; else every name of [value] that does not
    stand, between blanks, in the attribute already is appended to it,
    and the attribute is kept as it was written apart from the white
    space at its ends. *)
Definition addClass (value : string) (attribs : list (string * string))
  : list (string * string) :=
  match str value with
  | [] => attribs
  | _ :: _ =>
      let classNames := split_runs (str value) [] false in
      match attr "class" attribs with
      | Some (String c className) =>
          let setClass :=
            fold_left
              (fun setClass name =>
                 let appendClass := name ++ str " " in
                 match find_first (str " " ++ appendClass) setClass with
                 | Some _ => setClass
                 | None => setClass ++ appendClass
                 end)
              classNames (str " " ++ str (String c className) ++ str " ") in
          set_attr "class" (unstr (trim setClass)) attribs
      | _ => set_attr "class" (unstr (trim (join_with (str " ") classNames))) attribs
      end
  end.

(** [.removeClass(cls)]: without the class the attribute is left as it is. *)
Definition removeClass (cls : string) (attribs : list (string * string))
  : list (string * string) :=
  if hasClass cls attribs then
    set_attr "class"
      (join_space (List.filter (fun n => negb (String.eqb n cls)) (class_names attribs)))
      attribs
  else attribs.

(** [name.class] selects the elements of that name that have the class. *)
Definition selects (sel : Selector) (n : DomNode) : bool :=
  match n with
  | Tag name attribs _ => String.eqb name (sel_name sel) && hasClass (sel_class sel) attribs
  | _ => false
  end.

(** [.text()]: the text below a node, in document order. *)
Fixpoint text (n : DomNode) : string :=
  match n with
  | Text data => data
  | Tag _ _ children => fold_right (fun ch acc => text ch +:+ acc) "" children
  | Comment _ => ""
  end.

(** Runs a list of computations from left to right. *)
Fixpoint sequence {A} (l : list (outcome A)) : outcome (list A) :=
  match l with
  | [] => Ret []
  | o :: l' =>
      match o with
      | Ret a =>
          match sequence l' with
          | Ret l'' => Ret (a :: l'')
          | Throw e => Throw e
          | OutOfFuel => OutOfFuel
          end
      | Throw e => Throw e
      | OutOfFuel => OutOfFuel
      end
  end.

Definition bind {A B} (o : outcome A) (f : A -> outcome B) : outcome B :=
  match o with
  | Ret a => f a
  | Throw e => Throw e
  | OutOfFuel => OutOfFuel
  end.

(** ** The rules of parseContent *)

(** Rule 1, the first element.  [cr.root().children().first()[0]] is the
    first child of the root that is an element, as the node of the parser.
    If it is a paragraph without children the program calls [remove] on
    that node, which has no such method: a TypeError.  If its only child
    is an image the paragraph gets the class [is-gapless]. *)
Fixpoint checkFirstElement (roots : list DomNode) : outcome (list DomNode) :=
  match roots with
  | [] => Ret []
  | Tag name attribs children :: rest =>
      if String.eqb name "p" then
        match children with
        | [] => Throw TypeError
        | [Tag child _ _] =>
            if String.eqb child "img"
            then Ret (Tag name (addClass "is-gapless" attribs) children :: rest)
            else Ret roots
        | _ => Ret roots
        end
      else Ret roots
  | n :: rest => bind (checkFirstElement rest) (fun rest' => Ret (n :: rest'))
  end.

Definition headings : list string := ["h1"; "h2"; "h3"].

(** [a:not(.toc-anchor)] *)
Definition is_plain_link (n : DomNode) : bool :=
  match n with
  | Tag name attribs _ => String.eqb name "a" && negb (hasClass "toc-anchor" attribs)
  | _ => false
  end.

(** Rule 3, on the children of the root that are block quotes: the classes
    of the last child element move to the block quote. *)
Fixpoint map_first_tag (f : DomNode -> DomNode) (l : list DomNode) : list DomNode :=
  match l with
  | [] => []
  | n :: l' => if isTag n then f n :: l' else n :: map_first_tag f l'
  end.

Definition map_last_tag (f : DomNode -> DomNode) (l : list DomNode) : list DomNode :=
  rev (map_first_tag f (rev l)).

Definition last_tag (l : list DomNode) : option DomNode := head (rev (elements l)).

Definition hoist_classes (n : DomNode) : DomNode :=
  match n with
  | Tag name attribs children =>
      if String.eqb name "blockquote" then
        match last_tag children with
        | Some (Tag _ lastAttribs _) =>
            match attr "class" lastAttribs with
            | Some bqLastChildClasses =>
                if 0 <? String.length bqLastChildClasses then
                  Tag name (addClass bqLastChildClasses attribs)
                    (map_last_tag
                       (fun ch =>
                          match ch with
                          | Tag cn ca cc => Tag cn (removeAttr "class" ca) cc
                          | _ => ch
                          end) children)
                else n
            | None => n
            end
        | _ => n
        end
      else n
  | _ => n
  end.

Definition hoistBlockquoteClasses (roots : list DomNode) : list DomNode :=
  map hoist_classes roots.

(** Rule 4, section enclosure.

    [holds names n]: [n] or a node below it is an element named in
    [names]. *)
Fixpoint holds (names : list string) (n : DomNode) : bool :=
  is_named names n ||
  match n with
  | Tag _ _ children => existsb (holds names) children
  | _ => false
  end.

(** [.nextUntil(stops)] on the siblings [l] that follow an element.
    cheerio takes as the node to stop at the first element, in document
    order, among these siblings and what is below them, that [stops]
    selects; it then walks the siblings and gathers the elements until it
    meets that node.  When the node is one of the siblings the walk ends
    there; when it lies below a sibling, or there is none, the walk never
    meets it and takes every element that follows. *)
Fixpoint nextUntil (stops : list string) (l : list DomNode) : list DomNode :=
  match l with
  | [] => []
  | n :: rest =>
      if is_named stops n then []
      else if holds stops n then elements l
      else if isTag n then n :: nextUntil stops rest
      else nextUntil stops rest
  end.

(** The siblings that stay where they are when those of [nextUntil] are
    moved away: the nodes that are not elements and, when the walk has
    ended at a sibling, everything from that sibling on. *)
Fixpoint left_behind (stops : list string) (l : list DomNode) : list DomNode :=
  match l with
  | [] => []
  | n :: rest =>
      if is_named stops n then l
      else if holds stops n then List.filter (fun m => negb (isTag m)) l
      else if isTag n then left_behind stops rest
      else n :: left_behind stops rest
  end.

(** The new element of [<div class=...></div>] with the moved siblings
    appended to it. *)
Definition container (cls : string) (content : list DomNode) : DomNode :=
  Tag "div" [("class", cls)] content.

(** The number of nodes of a tree and of a list of trees. *)
Fixpoint weight_node (n : DomNode) : nat :=
  S match n with
    | Tag _ _ children => list_sum (map weight_node children)
    | _ => 0
    end.

Definition weight (l : list DomNode) : nat := list_sum (map weight_node l).

(** An element with its children changed by [f]. *)
Definition with_children (f : list DomNode -> list DomNode) (n : DomNode) : DomNode :=
  match n with
  | Tag name attribs children => Tag name attribs (f children)
  | _ => n
  end.

(** [cr(hname).each(...)] on a list of siblings and what is below it.  The
    elements named [hname] are served in document order, each on the tree
    that those before it have left: a heading gets a new container right
    behind it, and the elements that [nextUntil] gives for it move into
    the container, where the headings among them are served in their
    turn, as are those of the siblings left behind and those below every
    node.  The tests of [nextUntil] look at nodes that come later in
    document order, which no heading has served yet.  [fuel] bounds the
    depth of the recursion; the number of nodes is enough. *)
Fixpoint enclose (hname : string) (stops : list string) (cls : string)
    (fuel : nat) (l : list DomNode) : list DomNode :=
  match fuel with
  | 0 => l
  | S fuel =>
      match l with
      | [] => []
      | n :: rest =>
          let n' := with_children (enclose hname stops cls fuel) n in
          if is_named [hname] n
          then n' :: container cls (enclose hname stops cls fuel (nextUntil stops rest))
                  :: enclose hname stops cls fuel (left_behind stops rest)
          else n' :: enclose hname stops cls fuel rest
      end
  end.

(** [cr(hname).each(...)] on the whole document. *)
Definition encloseBelow (hname : string) (stops : list string) (cls : string)
    (roots : list DomNode) : list DomNode :=
  enclose hname stops cls (weight roots) roots.

Definition encloseSections (roots : list DomNode) : list DomNode :=
  encloseBelow "h3" ["h1"; "h2"; "h3"] "indent-h3"
    (encloseBelow "h2" ["h1"; "h2"] "indent-h2" roots).

(** Rule 6, [img.align-center]: the class goes from the image to its
    parent.  The elements are chosen before any of them is changed, and an
    element is served before its children. *)
Definition centered_image : Selector := mkSelector "img" "align-center".

Fixpoint align_node (n : DomNode) : DomNode :=
  match n with
  | Tag name attribs children =>
      let attribs1 :=
        if selects centered_image n then removeClass "align-center" attribs else attribs in
      let attribs2 :=
        if existsb (selects centered_image) children
        then addClass "align-center" attribs1 else attribs1 in
      Tag name attribs2 (map align_node children)
  | _ => n
  end.

Definition alignCenter (roots : list DomNode) : list DomNode := map align_node roots.

Section Parser.
(** The parser of cheerio, which turns the markup handed to [replaceWith]
    into nodes. *)
Variable parseHTML : string -> list DomNode.

(** Rule 2, links in headings: a link that is a child of an [h1], [h2] or
    [h3] and is not the permalink is replaced by its text.  A link is
    served before the links below it, which then sit in a detached tree. *)
Fixpoint strip_links (n : DomNode) : DomNode :=
  match n with
  | Tag name attribs children =>
      Tag name attribs
        (flat_map
           (fun ch =>
              if existsb (String.eqb name) headings && is_plain_link ch
              then parseHTML (text ch)
              else [strip_links ch])
           children)
  | _ => n
  end.

Definition stripHeadingLinks (roots : list DomNode) : list DomNode :=
  map strip_links roots.

(** Rule 5 for one video rule.  An element that the selector matches is
    replaced by the parsed template; the matching elements below it are
    still visited by [each], in a detached tree, where all that can be
    seen of them is an exception. *)
Fixpoint embed_node (vrule : VideoRule) (n : DomNode) : outcome (list DomNode) :=
  match n with
  | Tag name attribs children =>
      if selects (selector vrule) n then
        bind (originLink vrule (attr "href" attribs)) (fun link =>
        bind (sequence (map (embed_node vrule) children)) (fun _ =>
        Ret (parseHTML (processedLink vrule link))))
      else
        bind (sequence (map (embed_node vrule) children)) (fun children' =>
        Ret [Tag name attribs (concat children')])
  | _ => Ret [n]
  end.

Definition embedVideo (vrule : VideoRule) (roots : list DomNode) : outcome (list DomNode) :=
  bind (sequence (map (embed_node vrule) roots)) (fun roots' => Ret (concat roots')).

(** [_.forEach(videoRules, ...)] *)
Fixpoint embedVideos (vrules : list VideoRule) (roots : list DomNode)
  : outcome (list DomNode) :=
  match vrules with
  | [] => Ret roots
  | vrule :: vrules' => bind (embedVideo vrule roots) (embedVideos vrules')
  end.

(** [parseContent], from the tree that cheerio loads to the tree that is
    printed at the end; the empty document stands for the empty string
    that is returned when the root has no element. *)
Definition parseContent (roots : list DomNode) : outcome (list DomNode) :=
  if length (elements roots) <? 1 then Ret []
  else
    bind (checkFirstElement roots) (fun roots =>
    let roots := stripHeadingLinks roots in
    let roots := hoistBlockquoteClasses roots in
    let roots := encloseBelow "h2" ["h1"; "h2"] "indent-h2" roots in
    let roots := encloseBelow "h3" ["h1"; "h2"; "h3"] "indent-h3" roots in
    bind (embedVideos videoRules roots) (fun roots =>
    Ret (alignCenter roots))).

End Parser.

(** ** Counting elements *)

(** The number of nodes of a tree that satisfy [p]. *)
Fixpoint count_nodes (p : DomNode -> bool) (n : DomNode) : nat :=
  (if p n then 1 else 0) +
  match n with
  | Tag _ _ children => list_sum (map (count_nodes p) children)
  | _ => 0
  end.

Definition count_all (p : DomNode -> bool) (l : list DomNode) : nat :=
  list_sum (map (count_nodes p) l).

(** The number of nodes of [l] itself that satisfy [p]. *)
Definition count_top (p : DomNode -> bool) (l : list DomNode) : nat :=
  length (List.filter p l).

(** The number of elements named [hname] below a node. *)
Definition below (hname : string) (n : DomNode) : nat :=
  match n with
  | Tag _ _ children => count_all (is_named [hname]) children
  | _ => 0
  end.


(** Induction on markup trees: a property that holds of an element as soon
    as it holds of its children holds of every node. *)
Fixpoint DomNode_forall_ind (P : DomNode -> Prop)
    (Htext : forall data, P (Text data))
    (Hcomment : forall data, P (Comment data))
    (Htag : forall name attribs children,
        Forall P children -> P (Tag name attribs children))
    (n : DomNode) : P n :=
  match n with
  | Text data => Htext data
  | Comment data => Hcomment data
  | Tag name attribs children =>
      Htag name attribs children
        ((fix go (l : list DomNode) : Forall P l :=
            match l with
            | [] => @List.Forall_nil _ P
            | x :: l' =>
                @List.Forall_cons _ P x l' (DomNode_forall_ind P Htext Hcomment Htag x) (go l')
            end) children)
  end.


(** * Further notions used in the properties below *)

(** The content and the anchor of a node. *)
Definition root_payload {T} (n : OutlineNode T) : T * string := (n_content n, n_anchor n).

(** The records that [parseTree] keeps. *)
Definition retained {T} (tocArray : list (Heading T)) : list (Heading T) :=
  List.filter (fun n => negb (3 <? level n)) tocArray.

(** The line feed. *)
Definition LF : ascii := ascii_of_nat 10.

(** The text of a directive: the opening mark, a blank or nothing, the
    name, a colon, the value and the closing mark. *)
Definition directive_text (blank name value : list ascii) : list ascii :=
  str "<!--" ++ blank ++ name ++ str ":" ++ value ++ str "-->".

(** What [parseMeta] can read as one directive: at most one blank in front
    of a name made of letters, and a value without line terminator. *)
Definition readable (d : list ascii * list ascii * list ascii) : Prop :=
  (d.1.1 = [] \/ d.1.1 = str " ") /\
  d.1.2 <> [] /\
  Forall (fun c => is_letter c = true) d.1.2 /\
  Forall (fun c => is_dot c = true) d.2.

(** Directives written one on each line. *)
Definition meta_lines (ds : list (list ascii * list ascii * list ascii)) : list ascii :=
  flat_map (fun d => directive_text d.1.1 d.1.2 d.2 ++ [LF]) ds.

(** The entry that a directive gives. *)
Definition entry_of (d : list ascii * list ascii * list ascii) : string * string :=
  (unstr (toLower d.1.2), unstr (trim d.2)).

(** An element that a video rule selects and that has no [href]. *)
Definition bare (vrule : VideoRule) (n : DomNode) : bool :=
  match n with
  | Tag _ attribs _ =>
      match attr "href" attribs with
      | None => selects (selector vrule) n
      | Some _ => false
      end
  | _ => false
  end.

(** A document on which no rule of [parseContent] has anything to do: it
    has an element, the first one is no paragraph, there is no [h1], [h2]
    or [h3] in it, no block quote among the children of the root, no link
    that a video rule selects and no image with the class [align-center]. *)
Definition plain (roots : list DomNode) : Prop :=
  elements roots <> [] /\
  (forall n, head (elements roots) = Some n -> is_named ["p"] n = false) /\
  count_all (is_named headings) roots = 0 /\
  count_top (is_named ["blockquote"]) roots = 0 /\
  Forall (fun vrule => count_all (selects (selector vrule)) roots = 0) videoRules /\
  count_all (selects centered_image) roots = 0.

(** A container of the class [cls], whatever it holds. *)
Definition is_container (cls : string) (n : DomNode) : bool :=
  match n with
  | Tag name attribs _ => String.eqb name "div" && bool_decide (attribs = [("class", cls)])
  | _ => false
  end.

(** In a list of siblings every element named [hname] has a container of
    the class [cls] as the node right behind it. *)
Fixpoint followed (hname cls : string) (l : list DomNode) : bool :=
  match l with
  | [] => true
  | n :: rest =>
      (if is_named [hname] n
       then match rest with
            | c :: _ => is_container cls c
            | [] => false
            end
       else true)
      && followed hname cls rest
  end.

(** The same in every list of siblings below a node, and in a document. *)
Fixpoint followed_below (hname cls : string) (n : DomNode) : bool :=
  match n with
  | Tag _ _ children =>
      followed hname cls children && forallb (followed_below hname cls) children
  | _ => true
  end.

Definition sectioned (hname cls : string) (roots : list DomNode) : bool :=
  followed hname cls roots && forallb (followed_below hname cls) roots.

(** A code unit that can stand in the video id of a youtube link: any one
    but [#], [&] and [?]. *)
Definition id_unit (c : ascii) : bool := negb (existsb (Ascii.eqb c) (str "#&?")).

(** A text that is empty or begins with [#], [&] or [?]. *)
Definition ends_id (tail : list ascii) : Prop :=
  match tail with
  | [] => True
  | c :: _ => id_unit c = false
  end.

(** A code unit other than the dollar sign. *)
Definition no_dollar (c : ascii) : bool := negb (code c =? 36).

(** The marks of the youtube pattern, which stand in front of the id. *)
Definition youtube_marks : regex :=
  Alt (alts (lit true "youtu.be/")
         [lit true "v/"; lit true "vi/";
          seqs [lit true "u/"; word; lit true "/"]; lit true "embed/"])
      (Alt (seqs [Opt (lit true "watch"); lit true "?v"; Opt (lit true "i"); lit true "="])
           (seqs [lit true "&v"; Opt (lit true "i"); lit true "="])).

(** A text that is empty or begins with [/] or [?]. *)
Definition ends_number (tail : list ascii) : Prop :=
  match tail with
  | [] => True
  | c :: _ => c = "/"%char \/ c = "?"%char
  end.

(** The pieces of the vimeo pattern behind the host: the paths in front of
    the number, and what has to follow the number. *)
Definition vimeo_paths : regex :=
  alts (seqs [lit true "channels/"; Opt (seqs [Plus word; lit true "/"])])
    [seqs [lit true "groups/"; Star (none_of true "/"); lit true "/videos/"];
     seqs [lit true "album/"; Plus digit; lit true "/video/"];
     Empty].

Definition vimeo_end : regex := alts EndOfInput [lit true "/"; lit true "?"].

(** The classes of the dailymotion pattern under the flag [i]: the code
    units of a video key, and those of the text that may follow it. *)
Definition is_alnum (c : ascii) : bool := is_digit c || is_letter c.
Definition is_id_char (c : ascii) : bool :=
  is_digit c || is_letter c || (code c =? 45) || (code c =? 95).

(** A text that is empty or begins with a code unit that is neither a
    letter nor a digit. *)
Definition slug_start (slug : list ascii) : Prop :=
  match slug with
  | [] => True
  | c :: _ => is_alnum c = false
  end.

(** A text that is empty or begins with a code unit that is neither a
    letter, a digit, a hyphen, an underscore nor [#]. *)
Definition ends_key (tail : list ascii) : Prop :=
  match tail with
  | [] => True
  | c :: _ => is_id_char c = false /\ Ascii.eqb "#" c = false
  end.

(** The dailymotion pattern behind the host and the path. *)
Definition dailymotion_key : regex :=
  seqs [Group 1 (Plus alnum);
        Opt (seqs [Plus id_char; Opt (lit true "#video="); Opt (Group 2 (Plus alnum))])].

(** A tree without its class attributes. *)
Fixpoint erase_classes (n : DomNode) : DomNode :=
  match n with
  | Tag name attribs children =>
      Tag name (removeAttr "class" attribs) (map erase_classes children)
  | _ => n
  end.

(** A text that is empty or begins with a line terminator, and one that
    is empty or ends with a line terminator. *)
Definition at_line_end (s : list ascii) : Prop :=
  match s with
  | [] => True
  | c :: _ => is_dot c = false
  end.

Definition at_line_start (s : list ascii) : Prop :=
  match last s with
  | None => True
  | Some c => is_dot c = false
  end.

(** A directive at the front of [s] whose value runs to the last closing
    mark of its line: behind that mark the line goes on with [tl], which
    holds no closing mark, and the line ends in front of [post]. *)
Definition greedy_directive_at (s name value rest : list ascii) : Prop :=
  exists blank tl post,
    s = str "<!--" ++ blank ++ name ++ str ":" ++ value ++ str "-->" ++ tl ++ post /\
    rest = tl ++ post /\
    (blank = [] \/ blank = str " ") /\
    name <> [] /\
    Forall (fun c => is_letter c = true) name /\
    Forall (fun c => is_dot c = true) value /\
    Forall (fun c => is_dot c = true) tl /\
    find_first (str "-->") tl = None /\
    at_line_end post.

(** No directive begins at one of the first [n] positions of [s]. *)
Definition no_directive_before (n : nat) (s : list ascii) : Prop :=
  forall i name value rest, i < n -> ~ directive_at (drop i s) name value rest.

(** The scan of a text from left to right: the leftmost directive of the
    text gives the first entry, its value read up to the last closing mark
    of the line, and the scan goes on behind that mark; it ends when no
    directive is left. *)
Inductive scanned : list ascii -> list (string * string) -> Prop :=
| scanned_end s :
    (forall name value, ~ directive_in s name value) -> scanned s []
| scanned_more s offset name value rest entries :
    no_directive_before offset s ->
    greedy_directive_at (drop offset s) name value rest ->
    scanned rest entries ->
    scanned s ((unstr (toLower name), unstr (trim value)) :: entries).
(** ** Basic facts about the builder *)

Section TreeBuilderFacts.
Context {T : Type}.
Implicit Types (array : list (Heading T)) (tree sub : list (OutlineNode T)).

Lemma or_default_pos n : 0 < n -> or_default (Some n) 1 = n.
Proof. destruct n; [lia | reflexivity]. Qed.

Lemma or_default_index i : or_default (Some i) 0 = i.
Proof. destruct i; reflexivity. Qed.

Lemma set_last_nodes_nil sub : set_last_nodes (@nil (OutlineNode T)) sub = Throw TypeError.
Proof. reflexivity. Qed.

Lemma set_last_nodes_snoc tree c a old sub :
  set_last_nodes (tree ++ [mkNode c a old]) sub = Ret (tree ++ [mkNode c a sub]).
Proof.
  unfold set_last_nodes. rewrite length_app. simpl.
  replace (length tree + 1) with (S (length tree)) by lia.
  rewrite lookup_app_r by lia. rewrite Nat.sub_diag. simpl.
  rewrite insert_app_r_alt by lia. rewrite Nat.sub_diag. reflexivity.
Qed.

Lemma set_last_nodes_nonempty tree sub :
  tree <> [] -> exists tree', set_last_nodes tree sub = Ret tree' /\ tree' <> [].
Proof.
  intros Hne. destruct (exists_last Hne) as (init & [c a old] & ->).
  rewrite set_last_nodes_snoc. eexists; split; [reflexivity |].
  intros E. apply app_eq_nil in E as [_ E]. discriminate.
Qed.

(** One unfolding of the loop, for each way an iteration can go. *)
Lemma while_loop_end fuel array r tree i :
  array !! i = None -> while_loop (S fuel) array r tree i = Ret (tree, i).
Proof. intros E. simpl. rewrite E. reflexivity. Qed.

Lemma while_loop_break fuel array r tree i cur :
  array !! i = Some cur -> level cur < r ->
  while_loop (S fuel) array r tree i = Ret (tree, i).
Proof.
  intros E Hlt. simpl. rewrite E.
  destruct (Nat.ltb_spec (level cur) r); [reflexivity | lia].
Qed.

Lemma while_loop_push fuel array r tree i cur :
  array !! i = Some cur -> level cur = r ->
  while_loop (S fuel) array r tree i =
  while_loop fuel array r (tree ++ [mkNode (content cur) (anchor cur) []]) (S i).
Proof.
  intros E Heq. simpl. rewrite E.
  destruct (Nat.ltb_spec (level cur) r); [lia |].
  destruct (Nat.eqb_spec (level cur) r); [reflexivity | lia].
Qed.

Lemma while_loop_descend fuel array r tree i cur :
  array !! i = Some cur -> r < level cur ->
  while_loop (S fuel) array r tree i =
  match buildTreeFlatArray_fuel fuel array (Some (level cur)) (Some i) with
  | Ret (nextLevelTree, next) =>
      match set_last_nodes tree nextLevelTree with
      | Ret tree' => while_loop fuel array r tree' next
      | Throw e => Throw e
      | OutOfFuel => OutOfFuel
      end
  | Throw e => Throw e
  | OutOfFuel => OutOfFuel
  end.
Proof.
  intros E Hlt. simpl. rewrite E.
  destruct (Nat.ltb_spec (level cur) r); [lia |].
  destruct (Nat.eqb_spec (level cur) r); [lia | reflexivity].
Qed.

(** The recursive call made by [while_loop_descend] starts on a record of
    its own level, so its first iteration pushes that record. *)
Lemma recursive_call_first fuel array i cur :
  array !! i = Some cur -> 0 < level cur ->
  buildTreeFlatArray_fuel (S (S fuel)) array (Some (level cur)) (Some i) =
  while_loop fuel array (level cur) [mkNode (content cur) (anchor cur) []] (S i).
Proof.
  intros E Hpos.
  change (buildTreeFlatArray_fuel (S (S fuel)) array (Some (level cur)) (Some i))
    with (while_loop (S fuel) array (or_default (Some (level cur)) 1) []
            (or_default (Some i) 0)).
  rewrite or_default_pos, or_default_index by assumption.
  rewrite (while_loop_push _ _ _ _ _ _ E eq_refl). reflexivity.
Qed.

(** The loop with [fuel] at least [3 * (length array - i) + 1] runs to its
    end, the cursor never moves back, and a non-empty tree stays
    non-empty and never makes the loop throw. *)
Lemma while_loop_runs array :
  forall k fuel r tree i,
    length array - i <= k -> 3 * k + 1 <= fuel ->
    (exists tree' j, while_loop fuel array r tree i = Ret (tree', j) /\
                     i <= j /\ (tree <> [] -> tree' <> []) /\
                     (j <= length array \/ j = i))
    \/ (tree = [] /\ while_loop fuel array r tree i = Throw TypeError).
Proof.
  induction k as [|k IH]; intros fuel r tree i Hk Hfuel.
  - destruct fuel as [|fuel]; [lia |]. left. exists tree, i.
    rewrite while_loop_end by (apply lookup_ge_None; lia). auto with lia.
  - destruct fuel as [|f1]; [lia |].
    destruct (array !! i) as [cur|] eqn:E.
    2:{ left. exists tree, i. rewrite while_loop_end by assumption. auto with lia. }
    pose proof (lookup_lt_Some _ _ _ E) as Hi.
    destruct (lt_eq_lt_dec (level cur) r) as [[Hlt|Heq]|Hgt].
    + left. exists tree, i. rewrite (while_loop_break _ _ _ _ _ _ E Hlt). auto with lia.
    + rewrite (while_loop_push _ _ _ _ _ _ E Heq).
      destruct (IH f1 r (tree ++ [mkNode (content cur) (anchor cur) []]) (S i))
        as [(t' & j & Hr & Hj & Hne & Hb)|[Hnil _]]; [lia | lia | | ].
      * left. exists t', j. split; [assumption |]. split; [lia |].
        split; [| lia]. intros _. apply Hne. intros E'.
        apply app_eq_nil in E' as [_ E']. discriminate.
      * apply app_eq_nil in Hnil as [_ Hnil]. discriminate.
    + rewrite (while_loop_descend _ _ _ _ _ _ E Hgt).
      destruct f1 as [|[|f3]]; [lia | lia |].
      rewrite (recursive_call_first _ _ _ _ E) by lia.
      destruct (IH f3 (level cur) [mkNode (content cur) (anchor cur) []] (S i))
        as [(sub & j & Hr & Hj & Hne & Hb)|[Hnil _]]; [lia | lia | | discriminate].
      rewrite Hr.
      destruct tree as [|n0 tree0].
      * right. split; reflexivity.
      * destruct (set_last_nodes_nonempty (n0 :: tree0) sub) as (t1 & Ht1 & Hne1);
          [discriminate |].
        rewrite Ht1.
        destruct (IH (S (S f3)) r t1 j) as [(t' & j' & Hr' & Hj' & Hne' & Hb')|[Hnil _]];
          [lia | lia | | contradiction].
        left. exists t', j'. rewrite Hr'. split; [reflexivity |].
        split; [lia |]. split; [auto | lia].
Qed.

End TreeBuilderFacts.

Arguments while_loop : simpl never.
Arguments buildTreeFlatArray_fuel : simpl never.


Section Flattening.
Context {T : Type}.
Implicit Types (array : list (Heading T)) (tree sub : list (OutlineNode T)).

Lemma flatten_forest_app tree sub :
  flatten_forest (tree ++ sub) = flatten_forest tree ++ flatten_forest sub.
Proof. apply flat_map_app. Qed.

Lemma flatten_forest_snoc tree (c : T) a sub :
  flatten_forest (tree ++ [mkNode c a sub]) =
  flatten_forest tree ++ (c, a) :: flatten_forest sub.
Proof.
  rewrite flatten_forest_app. unfold flatten_forest at 2. simpl.
  rewrite app_nil_r. reflexivity.
Qed.

(** Leaving a level: what is well formed below level [x] is well formed
    for the enclosing levels, and does not go deeper than they are. *)
Lemma wf_from_pop x stack y rest :
  y < x -> wf_from (x :: stack) (y :: rest) = true ->
  wf_from stack (y :: rest) = true /\
  (forall top, head stack = Some top -> y <= top).
Proof.
  intros Hlt Hwf. simpl in Hwf.
  destruct (Nat.ltb_spec x y); [lia |].
  destruct (Nat.ltb_spec y x); [| lia].
  destruct stack as [|top stack']; [discriminate |].
  destruct (reset y (top :: stack')) as [|top' st'] eqn:Hreset; [discriminate |].
  apply andb_true_iff in Hwf as [Htop Hrest].
  assert (Hle : y <= top).
  { destruct (Nat.lt_ge_cases top y) as [Hty|]; [| assumption].
    simpl in Hreset. destruct (Nat.ltb_spec y top); [lia |].
    injection Hreset as -> _. apply Nat.eqb_eq in Htop. lia. }
  split.
  - simpl. destruct (Nat.ltb_spec top y); [lia |].
    simpl in Hreset. rewrite Hreset. rewrite Htop, Hrest. reflexivity.
  - intros top0 [= <-]. exact Hle.
Qed.

Lemma wf_from_same r outer rest :
  wf_from (r :: outer) (r :: rest) = true -> wf_from (r :: outer) rest = true.
Proof.
  simpl. rewrite Nat.ltb_irrefl. rewrite Nat.eqb_refl. simpl. auto.
Qed.

Lemma wf_from_deeper r outer x rest :
  r < x -> wf_from (r :: outer) (x :: rest) = true ->
  wf_from (x :: r :: outer) rest = true.
Proof.
  intros Hlt. simpl. destruct (Nat.ltb_spec r x); [auto | lia].
Qed.

Lemma wf_from_bottom r y rest : y < r -> wf_from [r] (y :: rest) = false.
Proof.
  intros Hlt. simpl. destruct (Nat.ltb_spec r y); [lia |].
  destruct (Nat.ltb_spec y r); [reflexivity | lia].
Qed.

(** The loop on a well-formed rest: every record it passes ends up in the
    tree, in order, and nothing already there is lost. *)
Lemma while_loop_flatten array r outer :
  forall fuel init c a kids i,
    wf_from (r :: outer) (level <$> drop i array) = true ->
    (kids = [] \/ forall cur, array !! i = Some cur -> level cur <= r) ->
    while_loop fuel array r (init ++ [mkNode c a kids]) i = OutOfFuel \/
    exists tree' j seg,
      while_loop fuel array r (init ++ [mkNode c a kids]) i = Ret (tree', j) /\
      drop i array = seg ++ drop j array /\
      flatten_forest tree' =
        flatten_forest (init ++ [mkNode c a kids]) ++ (payload <$> seg) /\
      wf_from (r :: outer) (level <$> drop j array) = true /\
      (forall cur, array !! j = Some cur -> level cur < r).
Proof.
  revert r outer.
  intros r outer fuel. revert r outer.
  induction fuel as [fuel IH] using lt_wf_ind.
  intros r outer init c a kids i Hwf Hfresh.
  destruct fuel as [|f1]; [left; reflexivity |].
  destruct (array !! i) as [cur|] eqn:E.
  2:{ right. exists (init ++ [mkNode c a kids]), i, [].
      rewrite while_loop_end by assumption.
      rewrite app_nil_r. repeat split; auto. congruence. }
  rewrite (drop_S _ _ _ E) in Hwf. rewrite fmap_cons in Hwf.
  destruct (lt_eq_lt_dec (level cur) r) as [[Hlt|Heq]|Hgt].
  - right. exists (init ++ [mkNode c a kids]), i, [].
    rewrite (while_loop_break _ _ _ _ _ _ E Hlt).
    rewrite app_nil_r, (drop_S _ _ _ E), fmap_cons.
    repeat split; auto. intros cur' E'. congruence.
  - rewrite (while_loop_push _ _ _ _ _ _ E Heq).
    rewrite Heq in Hwf. apply wf_from_same in Hwf.
    destruct (IH f1 (Nat.lt_succ_diag_r _) r outer
                (init ++ [mkNode c a kids]) (content cur) (anchor cur) [] (S i) Hwf)
      as [Hout|(tree' & j & seg & Hr & Hseg & Hflat & Hwf' & Hnext)]; [auto | auto |].
    right. exists tree', j, (cur :: seg).
    split; [assumption |]. split; [rewrite (drop_S _ _ _ E), Hseg; reflexivity |].
    split; [| auto].
    rewrite Hflat, flatten_forest_snoc. simpl.
    rewrite <- app_assoc. reflexivity.
  - rewrite (while_loop_descend _ _ _ _ _ _ E Hgt).
    destruct f1 as [|[|f3]]; [left; reflexivity | left; reflexivity |].
    rewrite (recursive_call_first _ _ _ _ E) by lia.
    apply (wf_from_deeper _ _ _ _ Hgt) in Hwf.
    destruct (IH f3 ltac:(lia) (level cur) (r :: outer)
                [] (content cur) (anchor cur) [] (S i) Hwf)
      as [Hout|(sub & j & seg & Hr & Hseg & Hflat & Hwf' & Hnext)]; [auto | |].
    { left. simpl in Hout. rewrite Hout. reflexivity. }
    simpl in Hr. rewrite Hr.
    assert (kids = []) as ->.
    { destruct Hfresh as [|Hle]; [assumption |]. specialize (Hle _ eq_refl). lia. }
    rewrite set_last_nodes_snoc.
    assert (Hcont : wf_from (r :: outer) (level <$> drop j array) = true /\
                    forall cur', array !! j = Some cur' -> level cur' <= r).
    { destruct (array !! j) as [cur'|] eqn:E'.
      - rewrite (drop_S _ _ _ E'), fmap_cons in Hwf' |- *.
        destruct (wf_from_pop _ _ _ _ (Hnext _ eq_refl) Hwf') as [Hw Hle].
        split; [assumption |]. intros ? [= <-]. apply Hle. reflexivity.
      - rewrite drop_ge by (apply lookup_ge_None; assumption).
        split; [reflexivity | discriminate]. }
    destruct Hcont as [Hwf2 Hle2].
    destruct (IH (S (S f3)) ltac:(lia) r outer init c a sub j Hwf2 (or_intror Hle2))
      as [Hout|(tree' & j' & seg' & Hr' & Hseg' & Hflat' & Hwf3 & Hnext')]; [auto |].
    right. exists tree', j', (cur :: seg ++ seg').
    split; [assumption |].
    split; [rewrite (drop_S _ _ _ E), Hseg, Hseg'; simpl; rewrite <- app_assoc; reflexivity |].
    split; [| auto].
    rewrite Hflat', !flatten_forest_snoc, Hflat.
    unfold flatten_forest at 3. simpl.
    rewrite fmap_app, <- !app_assoc. simpl. reflexivity.
Qed.

End Flattening.

(** ** Fuel does not matter once there is enough of it *)

Section Fuel.
Context {T : Type}.
Implicit Types (array : list (Heading T)) (tree sub : list (OutlineNode T)).

Lemma fuel_step :
  forall fuel,
    (forall array lvl sf,
        finished (buildTreeFlatArray_fuel fuel array lvl sf) ->
        buildTreeFlatArray_fuel (S fuel) array lvl sf =
        buildTreeFlatArray_fuel fuel array lvl sf) /\
    (forall array r tree i,
        finished (while_loop fuel array r tree i) ->
        while_loop (S fuel) array r tree i = while_loop fuel array r tree i).
Proof.
  unfold finished.
  induction fuel as [|fuel [IHb IHw]]; [split; intros; exfalso; match goal with Hfin : _ <> _ |- _ => apply Hfin; reflexivity end |].
  split.
  - intros array lvl sf Hfin.
    change (while_loop (S fuel) array (or_default lvl 1) [] (or_default sf 0) =
            while_loop fuel array (or_default lvl 1) [] (or_default sf 0)).
    apply IHw. exact Hfin.
  - intros array r tree i Hfin.
    destruct (array !! i) as [cur|] eqn:E.
    2:{ rewrite !while_loop_end by assumption. reflexivity. }
    destruct (lt_eq_lt_dec (level cur) r) as [[Hlt|Heq]|Hgt].
    + rewrite !(while_loop_break _ _ _ _ _ _ E Hlt). reflexivity.
    + rewrite (while_loop_push fuel _ _ _ _ _ E Heq) in Hfin |- *.
      rewrite (while_loop_push (S fuel) _ _ _ _ _ E Heq). apply IHw. exact Hfin.
    + rewrite (while_loop_descend fuel _ _ _ _ _ E Hgt) in Hfin |- *.
      rewrite (while_loop_descend (S fuel) _ _ _ _ _ E Hgt).
      destruct (buildTreeFlatArray_fuel fuel array (Some (level cur)) (Some i))
        as [[sub next]| |] eqn:Eb; [| | congruence].
      * rewrite IHb by congruence. rewrite Eb.
        destruct (set_last_nodes tree sub); [| reflexivity | reflexivity].
        apply IHw. exact Hfin.
      * rewrite IHb by congruence. rewrite Eb. reflexivity.
Qed.

Lemma fuel_more array lvl sf fuel fuel' :
  fuel <= fuel' ->
  finished (buildTreeFlatArray_fuel fuel array lvl sf) ->
  buildTreeFlatArray_fuel fuel' array lvl sf = buildTreeFlatArray_fuel fuel array lvl sf.
Proof.
  intros Hle Hfin. induction Hle as [|m Hle IH]; [reflexivity |].
  rewrite <- IH. apply (proj1 (fuel_step m)). rewrite IH. exact Hfin.
Qed.

Lemma buildTreeFlatArray_finished array lvl sf :
  finished (buildTreeFlatArray array lvl sf).
Proof.
  unfold buildTreeFlatArray, finished.
  replace (3 * length array + 2) with (S (3 * length array + 1)) by lia.
  change (while_loop (3 * length array + 1) array (or_default lvl 1) []
            (or_default sf 0) <> OutOfFuel).
  destruct (while_loop_runs array (length array) (3 * length array + 1)
              (or_default lvl 1) [] (or_default sf 0))
    as [(t & j & Hr & _)|[_ Hr]]; [lia | lia | |]; rewrite Hr; discriminate.
Qed.

(** The recursive call on the record under the cursor returns, and hands
    back a cursor that has moved on. *)
Lemma recursive_call_advances array i cur :
  array !! i = Some cur -> 0 < level cur ->
  exists sub next,
    buildTreeFlatArray array (Some (level cur)) (Some i) = Ret (sub, next) /\
    i < next <= length array.
Proof.
  intros E Hpos. unfold buildTreeFlatArray.
  pose proof (lookup_lt_Some _ _ _ E) as Hi.
  replace (3 * length array + 2) with (S (S (3 * length array))) by lia.
  rewrite (recursive_call_first _ _ _ _ E Hpos).
  destruct (while_loop_runs array (length array - S i) (3 * length array)
              (level cur) [mkNode (content cur) (anchor cur) []] (S i))
    as [(t & j & Hr & Hj & _ & Hb)|[Hnil _]]; [lia | lia | | discriminate].
  exists t, j. split; [assumption | lia].
Qed.

(** A record deeper than the requested level with no node before it: the
    assignment to the last node of the empty tree throws. *)
Lemma orphan_throws array lvl sf cur :
  array !! or_default sf 0 = Some cur ->
  or_default lvl 1 < level cur ->
  buildTreeFlatArray array lvl sf = Throw TypeError.
Proof.
  intros E Hgt. unfold buildTreeFlatArray.
  pose proof (lookup_lt_Some _ _ _ E) as Hi.
  replace (3 * length array + 2) with (S (S (3 * length array))) by lia.
  change (while_loop (S (3 * length array)) array (or_default lvl 1) []
            (or_default sf 0) = Throw TypeError).
  rewrite (while_loop_descend _ _ _ _ _ _ E Hgt).
  destruct (recursive_call_advances array _ cur E ltac:(lia)) as (sub & next & Hr & _).
  unfold buildTreeFlatArray in Hr.
  rewrite (fuel_more array (Some (level cur)) (Some (or_default sf 0))
             (3 * length array) (3 * length array + 2)) in Hr.
  - rewrite Hr. reflexivity.
  - lia.
  - unfold finished.
    destruct (length array) as [|n] eqn:En; [lia |].
    replace (3 * S n) with (S (S (3 * n + 1))) by lia.
    rewrite (recursive_call_first _ _ _ _ E) by lia.
    destruct (while_loop_runs array (length array - S (or_default sf 0)) (3 * n + 1)
                (level cur) [mkNode (content cur) (anchor cur) []] (S (or_default sf 0)))
      as [(t & j & Hr' & _)|[Hnil _]]; [lia | lia | | discriminate].
    rewrite Hr'. discriminate.
Qed.

End Fuel.


Section Tracing.
Context {A B : Type} (g : A -> B).

Lemma set_last_nodes_map (tree sub : list (OutlineNode A)) :
  set_last_nodes (map (node_map g) tree) (map (node_map g) sub) =
  outcome_map (map (node_map g)) (set_last_nodes tree sub).
Proof.
  destruct tree as [|n0 tree0] using rev_ind; [reflexivity |].
  destruct n0 as [c a old]. rewrite map_app. simpl.
  rewrite !set_last_nodes_snoc. simpl. rewrite map_app. reflexivity.
Qed.

(** The builder commutes with any change of the contents. *)
Lemma while_loop_map (array : list (Heading A)) :
  forall fuel r tree i,
    while_loop fuel (heading_map g <$> array) r (map (node_map g) tree) i =
    outcome_map (forest_map g) (while_loop fuel array r tree i).
Proof.
  induction fuel as [fuel IH] using lt_wf_ind. intros r tree i.
  destruct fuel as [|f1]; [reflexivity |].
  destruct (array !! i) as [cur|] eqn:E.
  2:{ rewrite !while_loop_end; [reflexivity | assumption |].
      rewrite list_lookup_fmap, E. reflexivity. }
  assert (E' : (heading_map g <$> array) !! i = Some (heading_map g cur))
    by (rewrite list_lookup_fmap, E; reflexivity).
  destruct (lt_eq_lt_dec (level cur) r) as [[Hlt|Heq]|Hgt].
  - rewrite (while_loop_break _ _ _ _ _ _ E Hlt).
    rewrite (while_loop_break _ _ _ _ _ _ E' Hlt). reflexivity.
  - rewrite (while_loop_push _ _ _ _ _ _ E Heq).
    rewrite (while_loop_push _ _ _ _ _ _ E' Heq).
    rewrite <- IH by lia. rewrite map_app. reflexivity.
  - rewrite (while_loop_descend _ _ _ _ _ _ E Hgt).
    rewrite (while_loop_descend _ _ _ _ _ _ E' Hgt).
    destruct f1 as [|f2]; [reflexivity |].
    change (buildTreeFlatArray_fuel (S f2) ?arr (Some ?l) (Some i))
      with (while_loop f2 arr (or_default (Some l) 1) [] (or_default (Some i) 0)).
    change (@nil (OutlineNode B)) with (map (node_map g) []).
    simpl (level (heading_map g cur)).
    rewrite IH by lia.
    destruct (while_loop f2 array (or_default (Some (level cur)) 1) []
                (or_default (Some i) 0)) as [[sub next]| |]; simpl; try reflexivity.
    rewrite set_last_nodes_map.
    destruct (set_last_nodes tree sub); simpl; try reflexivity.
    apply IH. lia.
Qed.

Lemma buildTreeFlatArray_map (array : list (Heading A)) lvl sf :
  buildTreeFlatArray (heading_map g <$> array) lvl sf =
  outcome_map (forest_map g) (buildTreeFlatArray array lvl sf).
Proof.
  unfold buildTreeFlatArray. rewrite length_fmap.
  replace (3 * length array + 2) with (S (3 * length array + 1)) by lia.
  apply (while_loop_map array (3 * length array + 1) _ []).
Qed.

End Tracing.

Section Traced.
Context {T : Type}.
Implicit Types (array : list (Heading T)).

Lemma tag_positions_lookup array i :
  tag_positions array !! i =
  (fun h => mkHeading (i, content h) (anchor h) (level h)) <$> array !! i.
Proof. apply list_lookup_imap. Qed.

Lemma tag_positions_erase array :
  heading_map snd <$> tag_positions array = array.
Proof.
  apply list_eq. intros i.
  rewrite list_lookup_fmap, tag_positions_lookup.
  destruct (array !! i) as [[c a l]|]; reflexivity.
Qed.

Lemma traced_ok_inv array i c a ns :
  traced_ok array (mkNode (i, c) a ns) ->
  exists h, array !! i = Some h /\ c = content h /\ a = anchor h.
Proof. intros Hok. inversion Hok. eauto. Qed.

Lemma loop_inv_weaken array r i0 i tree :
  loop_inv array r i0 i tree ->
  Forall (fun n => traced_ok array n /\ i0 <= origin n) tree.
Proof.
  intros (Hall & _). eapply Forall_impl; [exact Hall |].
  simpl. intros n (? & ? & _). split; [assumption | lia].
Qed.

Lemma while_loop_traced array :
  forall fuel r tree i0 i tree' j,
    while_loop fuel (tag_positions array) r tree i = Ret (tree', j) ->
    i0 <= i ->
    loop_inv array r i0 i tree ->
    loop_inv array r i0 j tree' /\ i <= j.
Proof.
  induction fuel as [fuel IH] using lt_wf_ind.
  intros r tree i0 i tree' j Hrun Hi0 Hinv.
  destruct fuel as [|f1]; [discriminate |].
  destruct (array !! i) as [cur|] eqn:E.
  2:{ rewrite while_loop_end in Hrun
        by (rewrite tag_positions_lookup, E; reflexivity).
      injection Hrun as <- <-. auto. }
  assert (E' : tag_positions array !! i =
               Some (mkHeading (i, content cur) (anchor cur) (level cur)))
    by (rewrite tag_positions_lookup, E; reflexivity).
  destruct Hinv as (Hall & Hge & Hlast).
  destruct (lt_eq_lt_dec (level cur) r) as [[Hlt|Heq]|Hgt].
  - rewrite (while_loop_break _ _ _ _ _ _ E' Hlt) in Hrun.
    injection Hrun as <- <-. repeat split; auto.
  - rewrite (while_loop_push _ _ _ _ _ _ E' Heq) in Hrun. simpl in Hrun.
    apply (IH f1 ltac:(lia) _ _ i0) in Hrun as [Hinv' Hle]; [split; [assumption | lia] | lia |].
    repeat split.
    + apply Forall_app. split.
      * eapply Forall_impl; [exact Hall |]. simpl.
        intros n (? & ? & ?). repeat split; auto; lia.
      * constructor; [| constructor]. split; [| split].
        -- apply traced_node; [assumption | constructor | constructor].
        -- unfold origin; simpl. lia.
        -- exists cur. unfold origin; simpl. auto.
    + intros k hk Hk Ek. destruct (decide (k = i)) as [->|].
      * rewrite E in Ek. injection Ek as <-. simpl in Heq. lia.
      * apply (Hge k hk); [lia | assumption].
    + intros n Hn k hk Hk. rewrite last_snoc in Hn. injection Hn as <-.
      unfold origin in Hk; simpl in Hk. lia.
  - rewrite (while_loop_descend _ _ _ _ _ _ E' Hgt) in Hrun. simpl in Hrun.
    destruct f1 as [|f2]; [discriminate |].
    change (buildTreeFlatArray_fuel (S f2) ?arr (Some ?l) (Some i))
      with (while_loop f2 arr (or_default (Some l) 1) [] (or_default (Some i) 0))
      in Hrun.
    rewrite or_default_pos, or_default_index in Hrun by lia.
    destruct (while_loop f2 (tag_positions array) (level cur) [] i)
      as [[sub next]| |] eqn:Esub; try discriminate.
    apply (IH f2 ltac:(lia) _ _ i) in Esub as [(Hsub & Hsubge & _) Hnext];
      [| lia | repeat split; [constructor | intros; lia | discriminate]].
    destruct tree as [|n0 tree0] using rev_ind; [discriminate |].
    clear IHtree0. destruct n0 as [[a0 c0] an0 old].
    rewrite set_last_nodes_snoc in Hrun.
    apply (IH (S f2) ltac:(lia) _ _ i0) in Hrun as [Hinv' Hle];
      [split; [assumption | lia] | lia |].
    apply Forall_app in Hall as [Hinit Hlast0].
    apply Forall_cons in Hlast0 as [(Hok0 & Hrange0 & h0 & Eh0 & Hl0) _].
    unfold origin in Hrange0, Eh0; simpl in Hrange0, Eh0.
    specialize (Hlast (mkNode (a0, c0) an0 old)).
    rewrite last_snoc in Hlast. specialize (Hlast eq_refl).
    unfold origin in Hlast; simpl in Hlast.
    repeat split.
    + apply Forall_app. split.
      * eapply Forall_impl; [exact Hinit |]. simpl.
        intros n (? & ? & ?). repeat split; auto; lia.
      * constructor; [| constructor]. split; [| split].
        -- apply traced_ok_inv in Hok0 as (h1 & Eh1 & -> & ->).
           rewrite Eh0 in Eh1. injection Eh1 as <-.
           apply traced_node; [assumption | |].
           ++ eapply Forall_impl; [exact Hsub |]. simpl.
              intros ch (_ & Hch & _). split; [lia |].
              intros k hk Hk Ek. destruct (Nat.lt_ge_cases k i).
              ** rewrite Hl0. apply (Hlast k hk); [lia | assumption].
              ** specialize (Hsubge k hk ltac:(lia) Ek). lia.
           ++ eapply Forall_impl; [exact Hsub |]. simpl. tauto.
        -- unfold origin; simpl. lia.
        -- exists h0. unfold origin; simpl. auto.
    + intros k hk Hk Ek. destruct (Nat.lt_ge_cases k i).
      * apply (Hge k hk); [lia | assumption].
      * specialize (Hsubge k hk ltac:(lia) Ek). lia.
    + intros n Hn k hk Hk Ek. rewrite last_snoc in Hn. injection Hn as <-.
      unfold origin in Hk; simpl in Hk.
      destruct (Nat.lt_ge_cases k i).
      * apply (Hlast k hk); [lia | assumption].
      * specialize (Hsubge k hk ltac:(lia) Ek). lia.
Qed.

End Traced.


(** ** Nodes come from records *)

Section Provenance.
Context {T : Type}.
Implicit Types (array : list (Heading T)) (tree sub : list (OutlineNode T)).

Lemma set_last_nodes_payloads tree sub tree' p :
  set_last_nodes tree sub = Ret tree' ->
  In p (flatten_forest tree') -> In p (flatten_forest tree) \/ In p (flatten_forest sub).
Proof.
  destruct tree as [|n0 tree0] using rev_ind; [discriminate |].
  destruct n0 as [c a old]. rewrite set_last_nodes_snoc. intros [= <-].
  rewrite !flatten_forest_snoc, !in_app_iff. simpl. tauto.
Qed.

Lemma while_loop_payloads array :
  forall fuel r tree i tree' j p,
    while_loop fuel array r tree i = Ret (tree', j) ->
    In p (flatten_forest tree') ->
    In p (flatten_forest tree) \/ exists h, In h array /\ payload h = p.
Proof.
  induction fuel as [fuel IH] using lt_wf_ind.
  intros r tree i tree' j p Hrun Hin.
  destruct fuel as [|f1]; [discriminate |].
  destruct (array !! i) as [cur|] eqn:E.
  2:{ rewrite while_loop_end in Hrun by assumption. injection Hrun as <- <-. auto. }
  assert (Hcur : In cur array)
    by (apply list_elem_of_In, list_elem_of_lookup; eauto).
  destruct (lt_eq_lt_dec (level cur) r) as [[Hlt|Heq]|Hgt].
  - rewrite (while_loop_break _ _ _ _ _ _ E Hlt) in Hrun. injection Hrun as <- <-. auto.
  - rewrite (while_loop_push _ _ _ _ _ _ E Heq) in Hrun.
    destruct (IH f1 ltac:(lia) _ _ _ _ _ _ Hrun Hin) as [Hold|Hnew]; [| auto].
    rewrite flatten_forest_snoc, in_app_iff in Hold. simpl in Hold.
    destruct Hold as [?|[<-|[]]]; [auto |]. right. exists cur. auto.
  - rewrite (while_loop_descend _ _ _ _ _ _ E Hgt) in Hrun.
    destruct f1 as [|f2]; [discriminate |].
    change (buildTreeFlatArray_fuel (S f2) array (Some (level cur)) (Some i))
      with (while_loop f2 array (or_default (Some (level cur)) 1) []
              (or_default (Some i) 0)) in Hrun.
    destruct (while_loop f2 array (or_default (Some (level cur)) 1) []
                (or_default (Some i) 0)) as [[sub next]| |] eqn:Esub; try discriminate.
    destruct (set_last_nodes tree sub) as [tree1| |] eqn:Eset; try discriminate.
    destruct (IH (S f2) ltac:(lia) _ _ _ _ _ _ Hrun Hin) as [Hold|Hnew]; [| auto].
    destruct (set_last_nodes_payloads _ _ _ _ Eset Hold) as [?|Hsub]; [auto |].
    destruct (IH f2 ltac:(lia) _ _ _ _ _ _ Esub Hsub) as [[]|Hnew]. auto.
Qed.

End Provenance.


(** ** Well-formedness is needed

    The builder never invents a node, and it loses the children of a node
    when it assigns to [nodes] a second time.  A run that loses nothing is
    a run on a well-formed rest. *)

Section Lossless.
Context {T : Type}.
Implicit Types (array : list (Heading T)) (tree sub : list (OutlineNode T)).

Lemma wf_from_same_iff r outer rest :
  wf_from (r :: outer) (r :: rest) = wf_from (r :: outer) rest.
Proof. simpl. rewrite Nat.ltb_irrefl, Nat.eqb_refl. reflexivity. Qed.

Lemma wf_from_push r outer x rest :
  r < x -> wf_from (r :: outer) (x :: rest) = wf_from (x :: r :: outer) rest.
Proof. intros Hlt. simpl. destruct (Nat.ltb_spec r x); [reflexivity | lia]. Qed.

Lemma wf_from_under r outer x y rest :
  y <= r -> r < x ->
  wf_from (x :: r :: outer) (y :: rest) = wf_from (r :: outer) (y :: rest).
Proof.
  intros Hle Hlt. simpl.
  destruct (Nat.ltb_spec x y); [lia |].
  destruct (Nat.ltb_spec y x); [| lia].
  destruct (Nat.ltb_spec r y); [lia | reflexivity].
Qed.

Lemma flatten_forest_nil tree : length (flatten_forest tree) = 0 -> tree = [].
Proof. destruct tree as [|[c a ns] tree]; [reflexivity | discriminate]. Qed.

Lemma while_loop_lossless array :
  forall fuel r init c a kids i tree' j,
    while_loop fuel array r (init ++ [mkNode c a kids]) i = Ret (tree', j) ->
    i <= j /\
    length (flatten_forest tree') <=
      length (flatten_forest (init ++ [mkNode c a kids])) + (j - i) /\
    (length (flatten_forest tree') =
       length (flatten_forest (init ++ [mkNode c a kids])) + (j - i) ->
     (kids = [] \/ forall cur, array !! i = Some cur -> level cur <= r) /\
     forall outer,
       wf_from (r :: outer) (level <$> drop j array) = true ->
       wf_from (r :: outer) (level <$> drop i array) = true).
Proof.
  induction fuel as [fuel IH] using lt_wf_ind.
  intros r init c a kids i tree' j Hrun.
  destruct fuel as [|f1]; [discriminate |].
  destruct (array !! i) as [cur|] eqn:E.
  2:{ rewrite while_loop_end in Hrun by assumption. injection Hrun as <- <-.
      split; [lia |]. split; [lia |]. intros _. split; [right; discriminate | auto]. }
  destruct (lt_eq_lt_dec (level cur) r) as [[Hlt|Heq]|Hgt].
  - rewrite (while_loop_break _ _ _ _ _ _ E Hlt) in Hrun. injection Hrun as <- <-.
    split; [lia |]. split; [lia |]. intros _. split; [| auto].
    right. intros ? [= <-]. lia.
  - rewrite (while_loop_push _ _ _ _ _ _ E Heq) in Hrun.
    apply (IH f1 ltac:(lia)) in Hrun as (Hj & Hlen & Hwf).
    rewrite flatten_forest_snoc in Hlen, Hwf. simpl length in Hlen, Hwf.
    rewrite length_app in Hlen, Hwf. simpl length in Hlen, Hwf.
    split; [lia |]. split; [lia |]. intros Heqlen.
    split; [right; intros ? [= <-]; lia |].
    intros outer Hrest. rewrite (drop_S _ _ _ E), fmap_cons, Heq, wf_from_same_iff.
    apply Hwf; [lia | exact Hrest].
  - rewrite (while_loop_descend _ _ _ _ _ _ E Hgt) in Hrun.
    destruct f1 as [|[|f3]]; [discriminate | discriminate |].
    rewrite (recursive_call_first _ _ _ _ E) in Hrun by lia.
    destruct (while_loop f3 array (level cur) [mkNode (content cur) (anchor cur) []] (S i))
      as [[sub j1]| |] eqn:Esub; try discriminate.
    rewrite set_last_nodes_snoc in Hrun.
    apply (IH f3 ltac:(lia) (level cur) [] (content cur) (anchor cur) [] (S i)) in Esub
      as (Hj1 & Hlen1 & Hwf1).
    apply (IH (S (S f3)) ltac:(lia)) in Hrun as (Hj & Hlen & Hwf).
    rewrite flatten_forest_snoc in Hlen, Hwf |- *.
    rewrite !length_app in Hlen, Hwf |- *. simpl length in Hlen, Hlen1, Hwf, Hwf1 |- *.
    split; [lia |]. split; [lia |]. intros Heqlen.
    assert (Hkids : kids = []) by (apply flatten_forest_nil; lia).
    assert (Hsubne : 1 <= length (flatten_forest sub)) by lia.
    split; [left; exact Hkids |].
    intros outer Hrest.
    destruct Hwf as [Hnext Hwf]; [lia |].
    specialize (Hwf outer Hrest).
    destruct Hwf1 as [_ Hwf1]; [lia |].
    rewrite (drop_S _ _ _ E), fmap_cons, (wf_from_push _ _ _ _ Hgt).
    apply Hwf1.
    destruct (array !! j1) as [cur1|] eqn:E1.
    + rewrite (drop_S _ _ _ E1), fmap_cons in Hwf |- *.
      rewrite wf_from_under; [exact Hwf | | exact Hgt].
      destruct Hnext as [Hsub|Hle]; [| apply Hle; reflexivity].
      subst sub. simpl in Hsubne. lia.
    + rewrite drop_ge by (apply lookup_ge_None; assumption). reflexivity.
Qed.

(** If the builder returns, from the first record on, a forest that holds
    as many nodes as the array has records, then the array is well formed. *)
Lemma lossless_well_formed array requestedLevel forest :
  buildTreeFlatArray array requestedLevel None = Ret (forest, length array) ->
  length (flatten_forest forest) = length array ->
  well_formed (or_default requestedLevel 1) (level <$> array) = true.
Proof.
  intros Hrun Hlen. destruct array as [|h0 rest]; [reflexivity |].
  unfold buildTreeFlatArray in Hrun.
  replace (3 * length (h0 :: rest) + 2) with (S (S (3 * length (h0 :: rest)))) in Hrun by lia.
  change (buildTreeFlatArray_fuel (S (S ?f)) ?arr requestedLevel None)
    with (while_loop (S f) arr (or_default requestedLevel 1) [] 0) in Hrun.
  assert (E : (h0 :: rest) !! 0 = Some h0) by reflexivity.
  destruct (lt_eq_lt_dec (level h0) (or_default requestedLevel 1)) as [[Hlt|Heq]|Hgt].
  - rewrite (while_loop_break _ _ _ _ _ _ E Hlt) in Hrun. discriminate.
  - rewrite (while_loop_push _ _ _ _ _ _ E Heq) in Hrun.
    apply (while_loop_lossless (h0 :: rest) _ _ [] (content h0) (anchor h0) [] 1) in Hrun
      as (_ & _ & Hwf).
    simpl. rewrite Heq, Nat.eqb_refl. simpl.
    destruct Hwf as [_ Hwf].
    + rewrite Hlen. simpl. lia.
    + specialize (Hwf []). rewrite drop_all in Hwf. apply Hwf. reflexivity.
  - pose proof (orphan_throws (h0 :: rest) requestedLevel None h0 E Hgt) as Hthrow.
    unfold buildTreeFlatArray in Hthrow.
    replace (3 * length (h0 :: rest) + 2) with (S (S (3 * length (h0 :: rest)))) in Hthrow by lia.
    change (buildTreeFlatArray_fuel (S (S ?f)) ?arr requestedLevel None)
      with (while_loop (S f) arr (or_default requestedLevel 1) [] 0) in Hthrow.
    rewrite Hthrow in Hrun. discriminate.
Qed.

End Lossless.

(** * Facts about the matcher *)

Section MatcherFacts.
Context {R : Type}.
Implicit Types (k : list ascii -> captures -> option R) (s : list ascii).

Lemma star_sound (m : list ascii -> captures -> (list ascii -> captures -> option R) -> option R)
    (r : regex) :
  (forall s caps k x, m s caps k = Some x ->
     exists s' caps', matches r s caps s' caps' /\ k s' caps' = Some x) ->
  forall fuel s caps k x,
    star m fuel s caps k = Some x ->
    exists s' caps', matches (Star r) s caps s' caps' /\ k s' caps' = Some x.
Proof.
  intros Hm. induction fuel as [|fuel IH]; intros s caps k x Hrun; simpl in Hrun.
  - exists s, caps. split; [constructor | assumption].
  - destruct (m s caps _) as [y|] eqn:Estep.
    + injection Hrun as ->.
      apply Hm in Estep as (s1 & caps1 & Hone & Hk).
      destruct (Nat.ltb_spec (length s1) (length s)); [| discriminate].
      apply IH in Hk as (s2 & caps2 & Hmore & Hk).
      exists s2, caps2. split; [| assumption].
      eapply matches_star_more; eassumption.
    + exists s, caps. split; [constructor | assumption].
Qed.

(** The matcher is sound: what it returns comes from a match. *)
Lemma rmatch_sound r :
  forall s caps k x,
    rmatch r s caps k = Some x ->
    exists s' caps', matches r s caps s' caps' /\ k s' caps' = Some x.
Proof.
  induction r as [|p|r1 IH1 r2 IH2|r1 IH1 r2 IH2|r1 IH1|r1 IH1|n r1 IH1|];
    intros s caps k x Hrun; simpl in Hrun.
  - exists s, caps. split; [constructor | assumption].
  - destruct s as [|c s]; [discriminate |].
    destruct (p c) eqn:Ep; [| discriminate].
    exists s, caps. split; [constructor; assumption | assumption].
  - apply IH1 in Hrun as (s1 & caps1 & H1 & Hrun).
    apply IH2 in Hrun as (s2 & caps2 & H2 & Hrun).
    exists s2, caps2. split; [econstructor; eassumption | assumption].
  - destruct (rmatch r1 s caps k) as [y|] eqn:E1.
    + injection Hrun as ->. apply IH1 in E1 as (s' & caps' & H1 & Hk).
      exists s', caps'. split; [apply matches_alt_l; assumption | assumption].
    + apply IH2 in Hrun as (s' & caps' & H2 & Hk).
      exists s', caps'. split; [apply matches_alt_r; assumption | assumption].
  - eapply star_sound; eassumption.
  - destruct (rmatch r1 s caps _) as [y|] eqn:E1.
    + injection Hrun as ->. apply IH1 in E1 as (s' & caps' & H1 & Hk).
      destruct (Nat.ltb_spec (length s') (length s)); [| discriminate].
      exists s', caps'. split; [apply matches_opt_take; assumption | assumption].
    + exists s, caps. split; [constructor | assumption].
  - apply IH1 in Hrun as (s' & caps' & H1 & Hk).
    eexists _, _. split; [apply matches_group; eassumption | assumption].
  - destruct s; [| discriminate].
    exists [], caps. split; [constructor | assumption].
Qed.

(** Steps of a greedy run over single code units. *)
Lemma star_char_more p n c s caps k :
  p c = true ->
  star (rmatch (Char p)) (S n) (c :: s) caps k =
  match star (rmatch (Char p)) n s caps k with
  | Some x => Some x
  | None => k (c :: s) caps
  end.
Proof.
  intros Hp. simpl. rewrite Hp.
  destruct (Nat.ltb_spec (length s) (S (length s))); [reflexivity | lia].
Qed.

Lemma star_char_stop p n s caps k :
  match s with
  | [] => True
  | c :: _ => p c = false
  end ->
  star (rmatch (Char p)) n s caps k = k s caps.
Proof.
  intros Hs. destruct n as [|n]; [reflexivity |].
  simpl. destruct s as [|c s]; [reflexivity |]. rewrite Hs. reflexivity.
Qed.

End MatcherFacts.

(** What is matched is taken from the front of the input. *)
Lemma matches_front r s caps s' caps' :
  matches r s caps s' caps' -> exists front, s = front ++ s'.
Proof.
  induction 1 as [s caps|p c s caps Hp
                 |r1 r2 s caps s1 caps1 s2 caps2 _ [f1 ->] _ [f2 ->]
                 |r1 r2 s caps s' caps' _ IH|r1 r2 s caps s' caps' _ IH
                 |r s caps|r s caps s1 caps1 s2 caps2 _ [f1 ->] _ _ [f2 ->]
                 |r s caps|r s caps s' caps' _ IH _
                 |n r s caps s' caps' _ IH|caps].
  - exists []. reflexivity.
  - exists [c]. reflexivity.
  - exists (f1 ++ f2). rewrite app_assoc. reflexivity.
  - exact IH.
  - exact IH.
  - exists []. reflexivity.
  - exists (f1 ++ f2). rewrite app_assoc. reflexivity.
  - exists []. reflexivity.
  - exact IH.
  - exact IH.
  - exists []. reflexivity.
Qed.

Lemma take_front (front s' : list ascii) :
  take (length (front ++ s') - length s') (front ++ s') = front.
Proof.
  rewrite length_app. replace (length front + length s' - length s') with (length front) by lia.
  apply take_app_length.
Qed.

(** A literal matches itself and nothing else. *)
Lemma matches_chars (l : list ascii) s caps s' caps' :
  matches (seqs (map (fun c => Char (same_char false c)) l)) s caps s' caps' ->
  s = l ++ s' /\ caps' = caps.
Proof.
  revert s. induction l as [|c l IH]; intros s Hm; simpl in Hm.
  - inversion Hm; subst. split; reflexivity.
  - inversion Hm as [| |r1 r2 s0 caps0 s1 caps1 s2 caps2 Hc Hrest| | | | | | | |]; subst.
    inversion Hc as [|p c' s0 caps0 Hp| | | | | | | | |]; subst.
    apply Ascii.eqb_eq in Hp. subst c'.
    apply IH in Hrest as [-> ->]. split; reflexivity.
Qed.

Lemma matches_lit w s caps s' caps' :
  matches (lit false w) s caps s' caps' -> s = str w ++ s' /\ caps' = caps.
Proof. apply matches_chars. Qed.

(** A run of single code units. *)
Lemma matches_star_char p s caps s' caps' :
  matches (Star (Char p)) s caps s' caps' ->
  caps' = caps /\ exists run, s = run ++ s' /\ Forall (fun c => p c = true) run.
Proof.
  intros Hm. remember (Star (Char p)) as r eqn:Er.
  induction Hm as [| | | | |r s caps|r s caps s1 caps1 s2 caps2 Hone _ Hlt _ IH| | | |];
    try discriminate.
  - split; [reflexivity |]. exists []. split; [reflexivity | constructor].
  - injection Er as ->. inversion Hone; subst.
    destruct (IH eq_refl) as [-> (run & -> & Hrun)].
    split; [reflexivity |]. exists (c :: run). split; [reflexivity |].
    constructor; assumption.
Qed.

Lemma matches_seq_inv r1 r2 s caps s2 caps2 :
  matches (Seq r1 r2) s caps s2 caps2 ->
  exists s1 caps1, matches r1 s caps s1 caps1 /\ matches r2 s1 caps1 s2 caps2.
Proof. intros Hm. inversion Hm; subst. eauto. Qed.

Lemma matches_empty_inv s caps s' caps' :
  matches Empty s caps s' caps' -> s' = s /\ caps' = caps.
Proof. intros Hm. inversion Hm; subst. auto. Qed.

Lemma matches_opt_inv r s caps s' caps' :
  matches (Opt r) s caps s' caps' ->
  (s' = s /\ caps' = caps) \/ matches r s caps s' caps'.
Proof. intros Hm. inversion Hm; subst; auto. Qed.

Lemma matches_group_inv n r s caps s' caps' :
  matches (Group n r) s caps s' caps' ->
  exists caps1, matches r s caps s' caps1 /\
                caps' = (n, take (length s - length s') s) :: caps1.
Proof. intros Hm. inversion Hm; subst. eauto. Qed.

(** * Facts about parseMeta *)

(** What the pattern of [parseMeta] matches is a directive, and its groups
    are the name and the value. *)
Lemma matches_commentMeta s caps s' caps' :
  matches commentMeta s caps s' caps' ->
  exists name value,
    directive_at s name value s' /\ caps' = (2, value) :: (1, name) :: caps.
Proof.
  unfold commentMeta, seqs. simpl foldr. intros Hm.
  apply matches_seq_inv in Hm as (s1 & c1 & Hopen & Hm).
  apply matches_lit in Hopen as [-> ->].
  apply matches_seq_inv in Hm as (s2 & c2 & Hblank & Hm).
  apply matches_seq_inv in Hm as (s3 & c3 & Hname & Hm).
  apply matches_seq_inv in Hm as (s4 & c4 & Hcolon & Hm).
  apply matches_lit in Hcolon as [-> ->].
  apply matches_seq_inv in Hm as (s5 & c5 & Hvalue & Hm).
  apply matches_seq_inv in Hm as (s6 & c6 & Hclose & Hm).
  apply matches_lit in Hclose as [-> ->].
  apply matches_empty_inv in Hm as [<- <-].
  apply matches_group_inv in Hvalue as (c5' & Hvalue & ->).
  apply matches_star_char in Hvalue as [-> (value & -> & Hdots)].
  apply matches_group_inv in Hname as (c3' & Hname & ->).
  unfold Plus in Hname.
  apply matches_seq_inv in Hname as (s7 & c7 & Hfirst & Hname).
  inversion Hfirst as [|p c s0 caps0 Hletter| | | | | | | | |]; subst.
  apply matches_star_char in Hname as [-> (name & Hs7 & Hletters)]. subst s7.
  assert (Hblank' : exists blank, s1 = blank ++ c :: name ++ str ":" ++ value ++ str "-->" ++ s'
                                  /\ (blank = [] \/ blank = str " ") /\ c7 = caps).
  { apply matches_opt_inv in Hblank as [[<- <-]|Hblank].
    - exists []. auto.
    - apply matches_lit in Hblank as [-> ->]. exists (str " "). auto. }
  destruct Hblank' as (blank & -> & Hb & ->).
  exists (c :: name), value. split.
  - exists blank. split; [reflexivity |]. split; [assumption |].
    split; [discriminate |]. split; [constructor; assumption | assumption].
  - f_equal.
    + f_equal. change (value ++ str "-->" ++ s') with (value ++ (str "-->" ++ s')).
      apply take_front.
    + f_equal. f_equal.
      change (c :: name ++ str ":" ++ value ++ str "-->" ++ s')
        with ((c :: name) ++ (str ":" ++ value ++ str "-->" ++ s')).
      apply take_front.
Qed.

Lemma match_here_commentMeta index s m :
  match_here commentMeta index s = Some m ->
  directive_at s (group 1 m) (group 2 m) (m_rest m) /\
  m_index m = index /\ length (m_rest m) < length s.
Proof.
  unfold match_here. intros Hrun.
  destruct (rmatch commentMeta s [] _) as [[s' caps']|] eqn:E; [| discriminate].
  injection Hrun as <-.
  apply rmatch_sound in E as (s1 & caps1 & Hm & [= <- <-]).
  apply matches_commentMeta in Hm as (name & value & Hd & ->).
  split; [exact Hd |]. split; [reflexivity |].
  destruct Hd as (blank & -> & _). cbn [m_rest]. rewrite !length_app.
  change (length (str "<!--")) with 4. lia.
Qed.

(** The leftmost match is a match at some position of the input. *)
Lemma exec_found r :
  forall s index m,
    exec r index s = Some m ->
    exists before, match_here r (index + length before) (drop (length before) s) = Some m /\
                   length before <= length s /\ take (length before) s = before.
Proof.
  induction s as [|c s IH]; intros index m Hrun; simpl in Hrun.
  - destruct (match_here r index []) eqn:E; [| discriminate].
    injection Hrun as ->. exists []. simpl. rewrite Nat.add_0_r. auto.
  - destruct (match_here r index (c :: s)) eqn:E.
    + injection Hrun as ->. exists []. simpl. rewrite Nat.add_0_r. auto with lia.
    + apply IH in Hrun as (before & Hm & Hlen & Htake).
      exists (c :: before). simpl.
      replace (index + S (length before)) with (S index + length before) by lia.
      rewrite Htake. auto with lia.
Qed.

Lemma exec_commentMeta s index m :
  exec commentMeta index s = Some m ->
  exists offset front,
    directive_at (drop offset s) (group 1 m) (group 2 m) (m_rest m) /\
    s = front ++ m_rest m /\ front <> [].
Proof.
  intros Hrun. apply exec_found in Hrun as (before & Hm & Hlen & Htake).
  apply match_here_commentMeta in Hm as (Hd & _ & Hshort).
  exists (length before). pose proof Hd as (blank & Hs & _).
  exists (before ++ str "<!--" ++ blank ++ group 1 m ++ str ":" ++ group 2 m ++ str "-->").
  split; [exact Hd |]. split.
  - rewrite <- (take_drop (length before) s) at 1. rewrite Htake, Hs.
    generalize (str "<!--") (str ":") (str "-->"). intros a b c.
    rewrite <- !app_assoc. reflexivity.
  - intros E. apply app_eq_nil in E as [_ E]. discriminate.
Qed.

Lemma str_length (s : string) : length (str s) = String.length s.
Proof. induction s as [|c s IH]; [reflexivity |]. simpl. rewrite IH. reflexivity. Qed.

Lemma str_app (s1 s2 : string) : str (s1 +:+ s2) = str s1 ++ str s2.
Proof. induction s1 as [|c s1 IH]; [reflexivity |]. simpl. rewrite IH. reflexivity. Qed.

(** The loop of [parseMeta] ends when it has one unit of fuel more than
    there is input, and fills the object with the directives it finds, one
    after the other. *)
Lemma parseMeta_loop_spec (content : list ascii) :
  forall fuel rest results offset,
    drop offset content = rest -> length rest < fuel ->
    exists meta,
      parseMeta_loop fuel rest results = Ret meta /\
      meta = fold_left set_entry (directives fuel rest) results /\
      forall key value,
        meta !! key = Some value ->
        results !! key = Some value \/
        exists name text,
          directive_in content name text /\
          key = unstr (toLower name) /\ value = unstr (trim text).
Proof.
  induction fuel as [|fuel IH]; intros rest results offset Hrest Hfuel; [lia |].
  simpl. destruct (exec commentMeta 0 rest) as [m|] eqn:E.
  - destruct (exec_commentMeta _ _ _ E) as (off & front & Hd & Hfront & Hne).
    assert (Hlen : length (m_rest m) < length rest).
    { rewrite Hfront at 1. rewrite length_app. destruct front; [contradiction | simpl; lia]. }
    destruct (IH (m_rest m)
                (<[unstr (toLower (group 1 m)) := unstr (trim (group 2 m))]> results)
                (offset + length front))
      as (meta & Hrun & Hfold & Hkeys); [| lia |].
    { rewrite <- drop_drop, Hrest, Hfront. apply drop_app_length. }
    exists meta. split; [exact Hrun |]. split; [exact Hfold |].
    intros key value Hlookup. destruct (Hkeys key value Hlookup) as [Hold|Hnew]; [| auto].
    destruct (decide (unstr (toLower (group 1 m)) = key)) as [<-|Hne'].
    + rewrite lookup_insert_eq in Hold. injection Hold as <-. right.
      exists (group 1 m), (group 2 m). split; [| auto].
      exists (offset + off), (m_rest m). rewrite <- drop_drop, Hrest. exact Hd.
    + rewrite lookup_insert_ne in Hold by assumption. auto.
  - exists results. split; [reflexivity |]. split; [reflexivity |]. auto.
Qed.

(** ** Closed forms of the matcher on the pieces of a pattern *)

Section Run.
Context {R : Type}.
Implicit Types (k : list ascii -> captures -> option R) (s : list ascii).

Lemma rmatch_seq r1 r2 s caps k :
  rmatch (Seq r1 r2) s caps k = rmatch r1 s caps (fun s' caps' => rmatch r2 s' caps' k).
Proof. reflexivity. Qed.

Lemma rmatch_empty s caps k : rmatch Empty s caps k = k s caps.
Proof. reflexivity. Qed.

Lemma rmatch_char p c s caps k :
  rmatch (Char p) (c :: s) caps k = if p c then k s caps else None.
Proof. reflexivity. Qed.

Lemma rmatch_group n r s caps k :
  rmatch (Group n r) s caps k =
  rmatch r s caps (fun s' caps' => k s' ((n, take (length s - length s') s) :: caps')).
Proof. reflexivity. Qed.

Lemma rmatch_star r s caps k :
  rmatch (Star r) s caps k = star (rmatch r) (length s) s caps k.
Proof. reflexivity. Qed.

Lemma rmatch_chars (l : list ascii) s caps k :
  rmatch (seqs (map (fun c => Char (same_char false c)) l)) s caps k =
  if starts_with l s then k (drop (length l) s) caps else None.
Proof.
  revert s. induction l as [|c l IH]; intros s; [reflexivity |].
  simpl. destruct s as [|c' s]; [reflexivity |].
  destruct (Ascii.eqb c c'); [apply IH | reflexivity].
Qed.

Lemma rmatch_lit w s caps k :
  rmatch (lit false w) s caps k =
  if starts_with (str w) s then k (drop (length (str w)) s) caps else None.
Proof. apply rmatch_chars. Qed.

Lemma starts_with_length l s : starts_with l s = true -> length l <= length s.
Proof.
  revert s. induction l as [|c l IH]; intros s; simpl; [lia |].
  destruct s as [|c' s]; [discriminate |].
  intros Hs. apply andb_true_iff in Hs as [_ Hs]. apply IH in Hs. simpl. lia.
Qed.

Lemma rmatch_opt_lit w s caps k :
  str w <> [] ->
  rmatch (Opt (lit false w)) s caps k =
  match (if starts_with (str w) s then k (drop (length (str w)) s) caps else None) with
  | Some x => Some x
  | None => k s caps
  end.
Proof.
  intros Hw. simpl. rewrite rmatch_lit.
  destruct (starts_with (str w) s) eqn:E; [| reflexivity].
  apply starts_with_length in E.
  destruct (Nat.ltb_spec (length (drop (length (str w)) s)) (length s)) as [|Hge];
    [reflexivity |].
  rewrite length_drop in Hge. destruct (str w); [contradiction | simpl in *; lia].
Qed.

Lemma star_run p k run rest caps :
  Forall (fun c => p c = true) run ->
  match rest with [] => True | c :: _ => p c = false end ->
  forall n, length run <= n ->
  star (rmatch (Char p)) n (run ++ rest) caps k = backoff k run rest caps.
Proof.
  intros Hrun Hstop. induction Hrun as [|c run Hc _ IH]; intros n Hn.
  - apply star_char_stop. exact Hstop.
  - destruct n as [|n]; [simpl in Hn; lia |].
    simpl app. rewrite star_char_more by assumption.
    simpl. rewrite IH by (simpl in Hn; lia). reflexivity.
Qed.

Lemma backoff_first k run rest caps x :
  k rest caps = Some x -> backoff k run rest caps = Some x.
Proof. intros Hk. induction run as [|c run IH]; simpl; [assumption | rewrite IH; reflexivity]. Qed.

Lemma backoff_app k run1 run2 rest caps :
  backoff k (run1 ++ run2) rest caps =
  match backoff k run2 rest caps with
  | Some x => Some x
  | None => backoff k run1 (run2 ++ rest) caps
  end.
Proof.
  induction run1 as [|c run1 IH]; simpl.
  - destruct run2 as [|c2 run2]; simpl; [destruct (k rest caps); reflexivity |].
    destruct (backoff k run2 rest caps); [reflexivity |].
    destruct (k (c2 :: run2 ++ rest) caps); reflexivity.
  - rewrite IH. destruct (backoff k run2 rest caps); [reflexivity |].
    rewrite <- app_assoc. reflexivity.
Qed.

End Run.

Arguments rmatch : simpl never.
Arguments star : simpl never.

Lemma line_terminator c : is_dot c = false -> c = ascii_of_nat 10 \/ c = ascii_of_nat 13.
Proof.
  unfold is_dot, code. intros Hc. apply negb_false_iff, orb_true_iff in Hc.
  rewrite <- (ascii_nat_embedding c).
  destruct Hc as [Hc|Hc]; apply Nat.eqb_eq in Hc; rewrite Hc; auto.
Qed.

Lemma no_close_mark post :
  match post with [] => True | c :: _ => is_dot c = false end ->
  starts_with (str "-->") post = false /\
  match post with [] => True | c :: _ => is_dot c = false end.
Proof.
  intros Hpost. split; [| exact Hpost].
  destruct post as [|c post]; [reflexivity |].
  destruct (line_terminator c Hpost) as [-> | ->]; reflexivity.
Qed.

(** The pattern of [parseMeta] on the directive of the example, when the
    line ends behind it: the name is [title], the value runs up to the
    closing mark. *)
Lemma commentMeta_title {R} (k : list ascii -> captures -> option R) post x :
  match post with [] => True | c :: _ => is_dot c = false end ->
  k post [(2, str " Hello World "); (1, str "title")] = Some x ->
  rmatch commentMeta (str title_directive ++ post) [] k = Some x.
Proof.
  intros Hpost Hk. destruct (no_close_mark post Hpost) as [Hclose _].
  unfold commentMeta, seqs. simpl foldr.
  rewrite rmatch_seq, rmatch_lit. simpl.
  rewrite rmatch_seq, rmatch_opt_lit by discriminate. simpl.
  rewrite rmatch_seq, rmatch_group. unfold Plus.
  rewrite rmatch_seq, rmatch_char.
  change (is_letter "t") with true. cbv iota. rewrite rmatch_star.
  match goal with
  | |- context [star _ _ (?a :: ?b :: ?c :: ?d :: ?rest) ?caps ?k'] =>
      change (a :: b :: c :: d :: rest) with ([a; b; c; d] ++ rest);
      rewrite (star_run is_letter k' [a; b; c; d] rest caps)
  end.
  2:{ repeat constructor. }
  2:{ reflexivity. }
  2:{ rewrite length_app. simpl. lia. }
  erewrite backoff_first; [reflexivity |].
  rewrite rmatch_seq, rmatch_lit. simpl.
  match goal with
  | |- context [take (?a - ?b) _] => replace (a - b) with 5 by lia
  end.
  simpl take.
  rewrite rmatch_seq, rmatch_group, rmatch_star.
  match goal with
  | |- context [star _ _ ?l ?caps ?k'] =>
      change l with ((str " Hello World " ++ str "-->") ++ post);
      rewrite (star_run is_dot k' (str " Hello World " ++ str "-->") post caps)
  end.
  2:{ repeat constructor. }
  2:{ exact Hpost. }
  2:{ rewrite length_app. simpl. lia. }
  rewrite backoff_app.
  match goal with
  | |- match ?b with _ => _ end = _ => assert (Hb : b = Some x); [| rewrite Hb; reflexivity]
  end.
  simpl. rewrite !rmatch_seq, !rmatch_lit. simpl in Hclose |- *. rewrite Hclose.
  rewrite rmatch_empty.
  match goal with
  | |- context [take (?a - ?b) _] => replace (a - b) with 13 by lia
  end.
  simpl take. exact Hk.
Qed.

Lemma title_match_here index post :
  match post with [] => True | c :: _ => is_dot c = false end ->
  match_here commentMeta index (str title_directive ++ post) =
  Some (mkMatch index (str title_directive)
          [(2, str " Hello World "); (1, str "title")] post).
Proof.
  intros Hpost. unfold match_here.
  rewrite (commentMeta_title _ post _ Hpost eq_refl).
  rewrite take_front. reflexivity.
Qed.

Lemma match_here_other index c s :
  Ascii.eqb "<" c = false -> match_here commentMeta index (c :: s) = None.
Proof.
  intros Hc. unfold match_here, commentMeta, seqs. simpl foldr.
  rewrite rmatch_seq, rmatch_lit.
  change (str "<!--") with ("<"%char :: str "!--").
  cbn [starts_with]. rewrite Hc. reflexivity.
Qed.

Lemma match_here_nil index : match_here commentMeta index [] = None.
Proof. reflexivity. Qed.

(** The search passes over the code units that do not open a comment. *)
Lemma exec_skip before s :
  Forall (fun c => Ascii.eqb "<" c = false) before ->
  forall index,
    exec commentMeta index (before ++ s) = exec commentMeta (index + length before) s.
Proof.
  induction 1 as [|c before Hc _ IH]; intros index.
  - simpl. rewrite Nat.add_0_r. reflexivity.
  - simpl app. simpl exec. rewrite (match_here_other _ _ _ Hc), IH. simpl. f_equal. lia.
Qed.

Lemma exec_none s index :
  Forall (fun c => Ascii.eqb "<" c = false) s -> exec commentMeta index s = None.
Proof.
  intros Hs. rewrite <- (app_nil_r s), exec_skip by assumption. reflexivity.
Qed.

Lemma exec_title before after index :
  no_less_than before -> ends_line after ->
  exec commentMeta index (str (before +:+ title_directive +:+ after)) =
  Some (mkMatch (index + length (str before)) (str title_directive)
          [(2, str " Hello World "); (1, str "title")] (str after)).
Proof.
  intros Hbefore Hafter. rewrite !str_app, exec_skip by exact Hbefore.
  destruct (str title_directive ++ str after) as [|c s] eqn:E; [discriminate |].
  simpl exec. rewrite <- E, title_match_here by exact Hafter. reflexivity.
Qed.

(** The example: the directive on a line of its own, in a text that has
    no other [<]. *)
Lemma parseMeta_title before after :
  no_less_than before -> no_less_than after -> ends_line after ->
  parseMeta (before +:+ title_directive +:+ after) = Ret {[ "title" := "Hello World" ]}.
Proof.
  intros Hbefore Hafter Hend. unfold parseMeta.
  change (parseMeta_loop (S ?n) ?rest ?results)
    with (match exec commentMeta 0 rest with
          | None => Ret results
          | Some m =>
              parseMeta_loop n (m_rest m)
                (<[unstr (toLower (group 1 m)) := unstr (trim (group 2 m))]> results)
          end).
  rewrite exec_title by assumption. cbn [m_rest].
  rewrite <- str_length, !str_app, !length_app.
  change (length (str title_directive)) with 27.
  replace (length (str before) + (27 + length (str after)))
    with (S (length (str before) + 26 + length (str after))) by lia.
  change (parseMeta_loop (S ?n) ?rest ?results)
    with (match exec commentMeta 0 rest with
          | None => Ret results
          | Some m =>
              parseMeta_loop n (m_rest m)
                (<[unstr (toLower (group 1 m)) := unstr (trim (group 2 m))]> results)
          end).
  rewrite exec_none by exact Hafter. reflexivity.
Qed.

(** * Facts about section enclosure *)

Section Enclosure.
Variables (hname : string) (stops : list string) (cls : string).
Implicit Types (p : DomNode -> bool) (l : list DomNode) (n : DomNode).


Lemma count_all_cons p n l : count_all p (n :: l) = count_nodes p n + count_all p l.
Proof. reflexivity. Qed.

Lemma count_all_app p l1 l2 : count_all p (l1 ++ l2) = count_all p l1 + count_all p l2.
Proof.
  induction l1 as [|n l1 IH]; [reflexivity |].
  simpl app. rewrite !count_all_cons, IH. lia.
Qed.

Lemma count_all_split p l :
  count_all p (elements l) + count_all p (List.filter (fun m => negb (isTag m)) l) =
  count_all p l.
Proof.
  unfold elements. induction l as [|n l IH]; [reflexivity |].
  simpl. destruct (isTag n); simpl; rewrite !count_all_cons; lia.
Qed.

Lemma nextUntil_cons n rest :
  nextUntil stops (n :: rest) =
  if is_named stops n then []
  else if holds stops n then elements (n :: rest)
  else if isTag n then n :: nextUntil stops rest
  else nextUntil stops rest.
Proof. reflexivity. Qed.

Lemma left_behind_cons n rest :
  left_behind stops (n :: rest) =
  if is_named stops n then n :: rest
  else if holds stops n then List.filter (fun m => negb (isTag m)) (n :: rest)
  else if isTag n then left_behind stops rest
  else n :: left_behind stops rest.
Proof. reflexivity. Qed.

(** Moving siblings into a container loses none and adds none. *)
Lemma count_all_moved p l :
  count_all p (nextUntil stops l) + count_all p (left_behind stops l) = count_all p l.
Proof.
  induction l as [|n l IH]; [reflexivity |].
  rewrite nextUntil_cons, left_behind_cons.
  destruct (is_named stops n); [reflexivity |].
  destruct (holds stops n); [apply count_all_split |].
  destruct (isTag n); rewrite !count_all_cons; lia.
Qed.


(** ** What nextUntil takes

    The three cases of the walk: no stop at or below the siblings, the
    first stop one of the siblings, the first stop below a sibling. *)


Lemma named_holds n : is_named stops n = true -> holds stops n = true.
Proof.
  destruct n as [data|name attribs children|data]; simpl; try discriminate.
  intros ->. reflexivity.
Qed.




(** ** The weight of a tree and the fuel of the enclosure *)

Lemma weight_count l : weight l = count_all (fun _ => true) l.
Proof.
  assert (Hn : forall n, weight_node n = count_nodes (fun _ => true) n).
  { induction n as [data|data|name attribs children IH] using DomNode_forall_ind;
      [reflexivity | reflexivity |].
    simpl. f_equal. induction IH as [|ch children Hch _ IHc]; [reflexivity |].
    simpl. rewrite Hch, IHc. reflexivity. }
  unfold weight, count_all. induction l as [|n l IH]; [reflexivity |].
  simpl. rewrite Hn, IH. reflexivity.
Qed.

Lemma weight_cons n l : weight (n :: l) = weight_node n + weight l.
Proof. reflexivity. Qed.

Lemma weight_tag name attribs children :
  weight_node (Tag name attribs children) = S (weight children).
Proof. reflexivity. Qed.

Lemma weight_node_pos n : 0 < weight_node n.
Proof. destruct n; simpl; lia. Qed.

Lemma weight_moved l : weight (nextUntil stops l) + weight (left_behind stops l) = weight l.
Proof. rewrite !weight_count. apply count_all_moved. Qed.

Lemma weight_children n :
  match n with
  | Tag _ _ children => weight children < weight_node n
  | _ => True
  end.
Proof. destruct n; simpl; [exact I | | exact I]. fold (weight children). lia. Qed.

(** The node with the headings below it served. *)
Lemma enclose_step fuel n rest :
  enclose hname stops cls (S fuel) (n :: rest) =
  if is_named [hname] n
  then with_children (enclose hname stops cls fuel) n
       :: container cls (enclose hname stops cls fuel (nextUntil stops rest))
       :: enclose hname stops cls fuel (left_behind stops rest)
  else with_children (enclose hname stops cls fuel) n
       :: enclose hname stops cls fuel rest.
Proof. reflexivity. Qed.



(** ** The enclosure of a document, sibling by sibling *)

Lemma encloseBelow_nil : encloseBelow hname stops cls [] = [].
Proof. reflexivity. Qed.



(** ** Counting *)



Lemma enclose_none :
  forall fuel l,
    count_all (is_named [hname]) l = 0 -> enclose hname stops cls fuel l = l.
Proof.
  induction fuel as [|fuel IH]; intros l H0; [reflexivity |].
  destruct l as [|n rest]; [reflexivity |].
  rewrite enclose_step. rewrite count_all_cons in H0.
  assert (Hhead : count_nodes (is_named [hname]) n =
                  (if is_named [hname] n then 1 else 0) + below hname n).
  { destruct n; reflexivity. }
  rewrite Hhead in H0. destruct (is_named [hname] n); [lia |].
  rewrite IH by lia. f_equal.
  destruct n as [data|name attribs children|data]; [reflexivity | | reflexivity].
  cbn [with_children]. rewrite IH; [reflexivity |]. unfold below in H0. lia.
Qed.

(** Without an element named [hname] the rule changes nothing. *)
Lemma encloseBelow_none roots :
  count_all (is_named [hname]) roots = 0 -> encloseBelow hname stops cls roots = roots.
Proof. apply enclose_none. Qed.

End Enclosure.

(** * Facts about the video rule *)

Lemma sequence_leaves (parseHTML : string -> list DomNode) vrule children :
  Forall (fun ch => isTag ch = false) children ->
  sequence (map (embed_node parseHTML vrule) children) = Ret (map (fun ch => [ch]) children).
Proof.
  induction 1 as [|ch children Hch _ IH]; [reflexivity |].
  simpl map. destruct ch; try discriminate; simpl; rewrite IH; reflexivity.
Qed.

(** A matched link without [href] under a rule that has a pattern: the
    call of [match] on [undefined] throws. *)
Lemma embed_without_href (parseHTML : string -> list DomNode) vrule r name attribs children :
  regexp vrule = Some r ->
  selects (selector vrule) (Tag name attribs children) = true ->
  attr "href" attribs = None ->
  embed_node parseHTML vrule (Tag name attribs children) = Throw TypeError.
Proof.
  intros Hr Hsel Hhref.
  change (embed_node parseHTML vrule (Tag name attribs children))
    with (if selects (selector vrule) (Tag name attribs children)
          then bind (originLink vrule (attr "href" attribs)) (fun link =>
               bind (sequence (map (embed_node parseHTML vrule) children)) (fun _ =>
               Ret (parseHTML (processedLink vrule link))))
          else bind (sequence (map (embed_node parseHTML vrule) children))
                 (fun children' => Ret [Tag name attribs (concat children')])).
  rewrite Hsel, Hhref. unfold originLink. rewrite Hr. reflexivity.
Qed.

(** * More about the outline builder *)

Section Roots.
Context {T : Type}.
Implicit Types (array : list (Heading T)) (tree sub : list (OutlineNode T)).

Lemma set_last_nodes_roots tree sub tree' :
  set_last_nodes tree sub = Ret tree' ->
  root_payload <$> tree' = root_payload <$> tree.
Proof.
  destruct tree as [|n0 tree0] using rev_ind; [discriminate |].
  destruct n0 as [c a old]. rewrite set_last_nodes_snoc. intros [= <-].
  rewrite !fmap_app. reflexivity.
Qed.

(** The run of the loop at level [r] from record [i] to record [j]: the
    records it passes are at level [r] or deeper, those at level [r]
    become the roots, and it stops at the end of the array or in front of
    a record above level [r]. *)
Lemma while_loop_roots array :
  forall fuel r tree i tree' j,
    while_loop fuel array r tree i = Ret (tree', j) ->
    exists seg,
      drop i array = seg ++ drop j array /\
      i <= j /\ (j <= length array \/ j = i) /\
      root_payload <$> tree' =
        (root_payload <$> tree) ++ (payload <$> List.filter (fun h => level h =? r) seg) /\
      Forall (fun h => r <= level h) seg /\
      (forall cur, array !! j = Some cur -> level cur < r).
Proof.
  induction fuel as [fuel IH] using lt_wf_ind.
  intros r tree i tree' j Hrun.
  destruct fuel as [|f1]; [discriminate |].
  destruct (array !! i) as [cur|] eqn:E.
  2:{ rewrite while_loop_end in Hrun by assumption. injection Hrun as <- <-.
      exists []. rewrite app_nil_r. repeat split; auto. congruence. }
  pose proof (lookup_lt_Some _ _ _ E) as Hi.
  destruct (lt_eq_lt_dec (level cur) r) as [[Hlt|Heq]|Hgt].
  - rewrite (while_loop_break _ _ _ _ _ _ E Hlt) in Hrun. injection Hrun as <- <-.
    exists []. rewrite app_nil_r. repeat split; auto.
    intros cur0 E0. rewrite E in E0. injection E0 as <-. exact Hlt.
  - rewrite (while_loop_push _ _ _ _ _ _ E Heq) in Hrun.
    apply (IH f1 ltac:(lia)) in Hrun as (seg & Hseg & Hj & Hb & Hroots & Hge & Hnext).
    exists (cur :: seg). split; [rewrite (drop_S _ _ _ E), Hseg; reflexivity |].
    split; [lia |]. split; [lia |]. split; [| split; [constructor; [lia | exact Hge] | exact Hnext]].
    rewrite Hroots, fmap_app. simpl. rewrite Heq, Nat.eqb_refl. simpl.
    rewrite <- app_assoc. reflexivity.
  - rewrite (while_loop_descend _ _ _ _ _ _ E Hgt) in Hrun.
    destruct f1 as [|f2]; [discriminate |].
    change (buildTreeFlatArray_fuel (S f2) array (Some (level cur)) (Some i))
      with (while_loop f2 array (or_default (Some (level cur)) 1) []
              (or_default (Some i) 0)) in Hrun.
    rewrite or_default_pos, or_default_index in Hrun by lia.
    destruct (while_loop f2 array (level cur) [] i) as [[sub j1]| |] eqn:Esub;
      try discriminate.
    destruct (set_last_nodes tree sub) as [tree1| |] eqn:Eset; try discriminate.
    apply (IH f2 ltac:(lia)) in Esub as (seg1 & Hseg1 & Hj1 & Hb1 & _ & Hge1 & Hnext1).
    apply (IH (S f2) ltac:(lia)) in Hrun as (seg2 & Hseg2 & Hj & Hb & Hroots & Hge2 & Hnext).
    assert (Hj1' : S i <= j1).
    { destruct (decide (j1 = i)) as [->|]; [| lia].
      specialize (Hnext1 _ E). lia. }
    exists (seg1 ++ seg2). split; [rewrite Hseg1, Hseg2, app_assoc; reflexivity |].
    split; [lia |]. split; [lia |]. split; [| split; [| exact Hnext]].
    + rewrite Hroots, (set_last_nodes_roots _ _ _ Eset).
      rewrite List.filter_app, fmap_app.
      replace (List.filter (fun h => level h =? r) seg1) with (@nil (Heading T));
        [reflexivity |].
      clear -Hge1 Hgt. induction Hge1 as [|h seg Hh _ IHs]; [reflexivity |].
      simpl. destruct (Nat.eqb_spec (level h) r); [lia | exact IHs].
    + apply Forall_app. split; [| exact Hge2].
      eapply Forall_impl; [exact Hge1 |]. simpl. intros; lia.
Qed.

Lemma set_last_nodes_sublist tree sub tree' :
  set_last_nodes tree sub = Ret tree' ->
  flatten_forest tree' `sublist_of` flatten_forest tree ++ flatten_forest sub.
Proof.
  destruct tree as [|n0 tree0] using rev_ind; [discriminate |].
  destruct n0 as [c a old]. rewrite set_last_nodes_snoc. intros [= <-].
  rewrite !flatten_forest_snoc, <- app_assoc.
  apply sublist_app; [reflexivity |]. simpl. apply sublist_skip.
  apply sublist_inserts_l. reflexivity.
Qed.

(** The nodes of the forest come each from a record of its own among
    those that the run has passed, in the order of the records: listed
    parents first, they are the payloads of a subsequence of these
    records. *)
Lemma while_loop_sublist array :
  forall fuel r tree i tree' j,
    while_loop fuel array r tree i = Ret (tree', j) ->
    exists seg,
      drop i array = seg ++ drop j array /\
      i <= j /\ (j <= length array \/ j = i) /\
      flatten_forest tree' `sublist_of` flatten_forest tree ++ (payload <$> seg).
Proof.
  induction fuel as [fuel IH] using lt_wf_ind.
  intros r tree i tree' j Hrun.
  destruct fuel as [|f1]; [discriminate |].
  destruct (array !! i) as [cur|] eqn:E.
  2:{ rewrite while_loop_end in Hrun by assumption. injection Hrun as <- <-.
      exists []. simpl. rewrite !app_nil_r. repeat split; auto. }
  pose proof (lookup_lt_Some _ _ _ E) as Hi.
  destruct (lt_eq_lt_dec (level cur) r) as [[Hlt|Heq]|Hgt].
  - rewrite (while_loop_break _ _ _ _ _ _ E Hlt) in Hrun. injection Hrun as <- <-.
    exists []. simpl. rewrite !app_nil_r. repeat split; auto.
  - rewrite (while_loop_push _ _ _ _ _ _ E Heq) in Hrun.
    apply (IH f1 ltac:(lia)) in Hrun as (seg & Hseg & Hj & Hb & Hsub).
    exists (cur :: seg). split; [rewrite (drop_S _ _ _ E), Hseg; reflexivity |].
    split; [lia |]. split; [lia |].
    rewrite flatten_forest_snoc in Hsub. unfold flatten_forest at 3 in Hsub.
    simpl in Hsub. rewrite <- app_assoc in Hsub. exact Hsub.
  - rewrite (while_loop_descend _ _ _ _ _ _ E Hgt) in Hrun.
    destruct f1 as [|f2]; [discriminate |].
    change (buildTreeFlatArray_fuel (S f2) array (Some (level cur)) (Some i))
      with (while_loop f2 array (or_default (Some (level cur)) 1) []
              (or_default (Some i) 0)) in Hrun.
    rewrite or_default_pos, or_default_index in Hrun by lia.
    destruct (while_loop f2 array (level cur) [] i) as [[sub j1]| |] eqn:Esub;
      try discriminate.
    destruct (set_last_nodes tree sub) as [tree1| |] eqn:Eset; try discriminate.
    apply (IH f2 ltac:(lia)) in Esub as (seg1 & Hseg1 & Hj1 & Hb1 & Hsub1).
    apply (IH (S f2) ltac:(lia)) in Hrun as (seg2 & Hseg2 & Hj & Hb & Hsub2).
    exists (seg1 ++ seg2). split; [rewrite Hseg1, Hseg2, app_assoc; reflexivity |].
    split; [lia |]. split; [lia |].
    etransitivity; [exact Hsub2 |].
    rewrite fmap_app, app_assoc. apply sublist_app; [| reflexivity].
    etransitivity; [exact (set_last_nodes_sublist _ _ _ Eset) |].
    apply sublist_app; [reflexivity | exact Hsub1].
Qed.

(** The builder throws exactly when the record under the start index is
    deeper than the requested level. *)
Lemma throws_iff_orphan array lvl sf :
  (exists e, buildTreeFlatArray array lvl sf = Throw e) <->
  exists cur, array !! or_default sf 0 = Some cur /\ or_default lvl 1 < level cur.
Proof.
  split.
  - intros [e Hthrow]. unfold buildTreeFlatArray in Hthrow.
    replace (3 * length array + 2) with (S (S (3 * length array))) in Hthrow by lia.
    change (buildTreeFlatArray_fuel (S (S ?f)) array lvl sf)
      with (while_loop (S f) array (or_default lvl 1) [] (or_default sf 0)) in Hthrow.
    destruct (array !! or_default sf 0) as [cur|] eqn:E.
    2:{ rewrite while_loop_end in Hthrow by assumption. discriminate. }
    exists cur. split; [reflexivity |].
    pose proof (lookup_lt_Some _ _ _ E) as Hi.
    destruct (lt_eq_lt_dec (level cur) (or_default lvl 1)) as [[Hlt|Heq]|Hgt];
      [| | exact Hgt].
    + rewrite (while_loop_break _ _ _ _ _ _ E Hlt) in Hthrow. discriminate.
    + rewrite (while_loop_push _ _ _ _ _ _ E Heq) in Hthrow.
      destruct (while_loop_runs array (length array - S (or_default sf 0))
                  (3 * length array) (or_default lvl 1)
                  ([] ++ [mkNode (content cur) (anchor cur) []]) (S (or_default sf 0)))
        as [(t & j & Hr & _)|[Hnil _]]; [lia | lia | | discriminate].
      rewrite Hr in Hthrow. discriminate.
  - intros (cur & E & Hgt). exists TypeError. eapply orphan_throws; eassumption.
Qed.

(** The forest has at most one node for each record that the run has
    passed. *)
Lemma forest_size array lvl sf forest next :
  buildTreeFlatArray array lvl sf = Ret (forest, next) ->
  or_default sf 0 <= next /\
  length (flatten_forest forest) <= next - or_default sf 0.
Proof.
  intros Hrun. unfold buildTreeFlatArray in Hrun.
  replace (3 * length array + 2) with (S (S (3 * length array))) in Hrun by lia.
  change (buildTreeFlatArray_fuel (S (S ?f)) array lvl sf)
    with (while_loop (S f) array (or_default lvl 1) [] (or_default sf 0)) in Hrun.
  destruct (array !! or_default sf 0) as [cur|] eqn:E.
  2:{ rewrite while_loop_end in Hrun by assumption. injection Hrun as <- <-.
      simpl. lia. }
  destruct (lt_eq_lt_dec (level cur) (or_default lvl 1)) as [[Hlt|Heq]|Hgt].
  - rewrite (while_loop_break _ _ _ _ _ _ E Hlt) in Hrun. injection Hrun as <- <-.
    simpl. lia.
  - rewrite (while_loop_push _ _ _ _ _ _ E Heq) in Hrun.
    apply while_loop_lossless in Hrun as (Hj & Hlen & _).
    simpl in Hlen. lia.
  - assert (Hthrow : exists e, buildTreeFlatArray array lvl sf = Throw e)
      by (apply throws_iff_orphan; eauto).
    destruct Hthrow as [e Hthrow]. unfold buildTreeFlatArray in Hthrow.
    replace (3 * length array + 2) with (S (S (3 * length array))) in Hthrow by lia.
    change (buildTreeFlatArray_fuel (S (S ?f)) array lvl sf)
      with (while_loop (S f) array (or_default lvl 1) [] (or_default sf 0)) in Hthrow.
    rewrite Hthrow in Hrun. discriminate.
Qed.

(** On a well-formed array the forest holds every record, in order. *)
Lemma well_formed_flatten array requestedLevel :
  well_formed (or_default requestedLevel 1) (level <$> array) = true ->
  exists forest,
    buildTreeFlatArray array requestedLevel None = Ret (forest, length array) /\
    flatten_forest forest = payload <$> array.
Proof.
  intros Hwf. destruct array as [|h0 rest]; [exists []; split; reflexivity |].
  simpl in Hwf. apply andb_true_iff in Hwf as [Hstart Hwf].
  apply Nat.eqb_eq in Hstart.
  pose proof (buildTreeFlatArray_finished (h0 :: rest) requestedLevel None) as Hfin.
  unfold finished, buildTreeFlatArray in Hfin |- *.
  replace (3 * length (h0 :: rest) + 2) with (S (S (3 * length (h0 :: rest)))) in * by lia.
  change (buildTreeFlatArray_fuel (S (S ?f)) ?arr requestedLevel None)
    with (while_loop (S f) arr (or_default requestedLevel 1) [] 0) in *.
  rewrite (while_loop_push _ (h0 :: rest) _ [] 0 h0 eq_refl Hstart) in *.
  destruct (while_loop_flatten (h0 :: rest) (or_default requestedLevel 1) []
              (3 * length (h0 :: rest)) [] (content h0) (anchor h0) [] 1 Hwf
              (or_introl eq_refl))
    as [Hout|(forest & j & seg & Hrun & Hseg & Hflat & Hwf' & Hnext)];
    [rewrite app_nil_l in Hout; contradiction |].
  rewrite app_nil_l in Hrun.
  destruct (while_loop_roots _ _ _ _ _ _ _ Hrun) as (_ & _ & _ & Hb & _).
  assert (Hend : (h0 :: rest) !! j = None).
  { destruct ((h0 :: rest) !! j) as [cur|] eqn:E; [| reflexivity].
    rewrite (drop_S _ _ _ E), fmap_cons in Hwf'.
    rewrite (wf_from_bottom _ _ _ (Hnext _ eq_refl)) in Hwf'. discriminate. }
  apply lookup_ge_None in Hend. simpl in Hend, Hb.
  assert (j = S (length rest)) as -> by lia.
  exists forest. split; [exact Hrun |].
  rewrite Hflat. simpl in Hseg. rewrite drop_all, app_nil_r in Hseg. subst seg.
  reflexivity.
Qed.

End Roots.

Lemma passed_records {A} (l seg : list A) i j :
  drop i l = seg ++ drop j l -> i <= j -> j <= length l \/ j = i ->
  seg = take (j - i) (drop i l).
Proof.
  intros Hseg Hij Hb.
  assert (Hlen : length (drop i l) = length seg + length (drop j l))
    by (rewrite Hseg, length_app; reflexivity).
  rewrite !length_drop in Hlen.
  rewrite Hseg. symmetry. apply take_app_length'. lia.
Qed.

(** * More about parseMeta *)

Lemma starts_with_app (l s : list ascii) : starts_with l (l ++ s) = true.
Proof.
  induction l as [|c l IH]; [reflexivity |].
  simpl. rewrite Ascii.eqb_refl. exact IH.
Qed.

Lemma rmatch_lit_app {R} w s caps (k : list ascii -> captures -> option R) :
  rmatch (lit false w) (str w ++ s) caps k = k s caps.
Proof. rewrite rmatch_lit, starts_with_app, drop_app_length. reflexivity. Qed.

Lemma letter_not_blank c : is_letter c = true -> Ascii.eqb " " c = false.
Proof.
  intros Hc. destruct (Ascii.eqb_spec " "%char c) as [<-|]; [discriminate | reflexivity].
Qed.

Lemma backoff_three {R} (k : list ascii -> captures -> option R) a b c rest caps :
  backoff k [a; b; c] rest caps =
  match k rest caps with
  | Some x => Some x
  | None =>
      match k (c :: rest) caps with
      | Some x => Some x
      | None =>
          match k (b :: c :: rest) caps with
          | Some x => Some x
          | None => k (a :: b :: c :: rest) caps
          end
      end
  end.
Proof.
  simpl. destruct (k rest caps); [reflexivity |].
  destruct (k (c :: rest) caps); [reflexivity |].
  destruct (k (b :: c :: rest) caps); reflexivity.
Qed.

(** The pattern behind the optional blank: name, colon, value and closing
    mark, at the end of a line. *)
Lemma directive_body {R} (k : list ascii -> captures -> option R) c name value post caps x :
  is_letter c = true ->
  Forall (fun c => is_letter c = true) name ->
  Forall (fun c => is_dot c = true) value ->
  match post with [] => True | c :: _ => is_dot c = false end ->
  k post ((2, value) :: (1, c :: name) :: caps) = Some x ->
  rmatch (Seq (Group 1 (Plus (Char is_letter)))
            (Seq (lit false ":")
               (Seq (Group 2 (Star (Char is_dot))) (Seq (lit false "-->") Empty))))
    (c :: name ++ str ":" ++ value ++ str "-->" ++ post) caps k = Some x.
Proof.
  intros Hc Hname Hvalue Hpost Hk.
  destruct (no_close_mark post Hpost) as [Hclose _].
  rewrite rmatch_seq, rmatch_group. unfold Plus.
  rewrite rmatch_seq, rmatch_char, Hc, rmatch_star.
  rewrite star_run; [| exact Hname | reflexivity | rewrite length_app; lia].
  apply backoff_first.
  change (c :: name ++ str ":" ++ value ++ str "-->" ++ post)
    with ((c :: name) ++ (str ":" ++ value ++ str "-->" ++ post)).
  rewrite take_front.
  rewrite rmatch_seq, rmatch_lit_app.
  rewrite rmatch_seq, rmatch_group, rmatch_star.
  rewrite (app_assoc value (str "-->") post).
  rewrite star_run;
    [| apply Forall_app; split; [exact Hvalue | repeat constructor]
     | exact Hpost | rewrite !length_app; lia].
  rewrite backoff_app.
  match goal with
  | |- match ?b with _ => _ end = _ => assert (Hb : b = Some x); [| rewrite Hb; reflexivity]
  end.
  match goal with
  | |- backoff ?k0 _ _ ?c0 = _ =>
      change (backoff k0 ["-"%char; "-"%char; ">"%char] post c0 = Some x)
  end.
  rewrite backoff_three. cbv beta.
  rewrite !rmatch_seq, !rmatch_lit.
  rewrite Hclose.
  change (starts_with (str "-->") (">"%char :: post)) with false.
  change (starts_with (str "-->") ("-"%char :: ">"%char :: post)) with false.
  change ("-"%char :: "-"%char :: ">"%char :: post) with (str "-->" ++ post).
  rewrite starts_with_app, drop_app_length, rmatch_empty.
  rewrite <- (app_assoc value (str "-->") post), take_front. exact Hk.
Qed.

(** The pattern of [parseMeta] on a directive at the end of a line. *)
Lemma commentMeta_directive {R} (k : list ascii -> captures -> option R)
    blank name value post x :
  (blank = [] \/ blank = str " ") ->
  name <> [] ->
  Forall (fun c => is_letter c = true) name ->
  Forall (fun c => is_dot c = true) value ->
  match post with [] => True | c :: _ => is_dot c = false end ->
  k post [(2, value); (1, name)] = Some x ->
  rmatch commentMeta
    (str "<!--" ++ blank ++ name ++ str ":" ++ value ++ str "-->" ++ post) [] k = Some x.
Proof.
  intros Hblank Hne Hname Hvalue Hpost Hk.
  destruct name as [|c name]; [contradiction |].
  apply Forall_cons in Hname as [Hc Hname].
  unfold commentMeta, seqs. simpl foldr.
  rewrite rmatch_seq, rmatch_lit_app.
  rewrite rmatch_seq, rmatch_opt_lit by discriminate.
  destruct Hblank as [-> | ->].
  - rewrite app_nil_l. change (str " ") with [" "%char].
    change ((c :: name) ++ ?l) with (c :: name ++ l).
    cbn [starts_with]. rewrite (letter_not_blank c Hc). cbn [andb].
    apply directive_body; assumption.
  - rewrite starts_with_app, drop_app_length.
    change ((c :: name) ++ ?l) with (c :: name ++ l).
    rewrite (directive_body _ c name value post [] x) by assumption.
    reflexivity.
Qed.

Lemma directive_text_app blank name value post :
  directive_text blank name value ++ post =
  str "<!--" ++ blank ++ name ++ str ":" ++ value ++ str "-->" ++ post.
Proof.
  unfold directive_text. generalize (str "<!--") (str ":") (str "-->"). intros a b c.
  rewrite <- !app_assoc. reflexivity.
Qed.

Lemma match_here_directive index d post :
  readable d ->
  match post with [] => True | c :: _ => is_dot c = false end ->
  match_here commentMeta index (directive_text d.1.1 d.1.2 d.2 ++ post) =
  Some (mkMatch index (directive_text d.1.1 d.1.2 d.2) [(2, d.2); (1, d.1.2)] post).
Proof.
  intros (Hblank & Hne & Hname & Hvalue) Hpost. unfold match_here.
  rewrite directive_text_app.
  rewrite (commentMeta_directive _ d.1.1 d.1.2 d.2 post _ Hblank Hne Hname Hvalue Hpost eq_refl).
  rewrite <- directive_text_app, take_front. reflexivity.
Qed.

Lemma exec_directive before d post index :
  Forall (fun c => Ascii.eqb "<" c = false) before ->
  readable d ->
  match post with [] => True | c :: _ => is_dot c = false end ->
  exec commentMeta index (before ++ directive_text d.1.1 d.1.2 d.2 ++ post) =
  Some (mkMatch (index + length before) (directive_text d.1.1 d.1.2 d.2)
          [(2, d.2); (1, d.1.2)] post).
Proof.
  intros Hbefore Hd Hpost. rewrite exec_skip by exact Hbefore.
  destruct (directive_text d.1.1 d.1.2 d.2 ++ post) as [|c s] eqn:E.
  { rewrite directive_text_app in E. discriminate. }
  simpl exec. rewrite <- E, match_here_directive by assumption. reflexivity.
Qed.

Lemma parseMeta_loop_step fuel rest results :
  parseMeta_loop (S fuel) rest results =
  match exec commentMeta 0 rest with
  | None => Ret results
  | Some m =>
      parseMeta_loop fuel (m_rest m)
        (<[unstr (toLower (group 1 m)) := unstr (trim (group 2 m))]> results)
  end.
Proof. reflexivity. Qed.

(** The loop of [parseMeta] over directives written one on each line. *)
Lemma parseMeta_loop_lines after :
  Forall (fun c => Ascii.eqb "<" c = false) after ->
  forall ds, Forall readable ds ->
  forall gap fuel results,
    Forall (fun c => Ascii.eqb "<" c = false) gap ->
    length ds < fuel ->
    parseMeta_loop fuel (gap ++ meta_lines ds ++ after) results =
    Ret (fold_left set_entry (entry_of <$> ds) results).
Proof.
  intros Hafter ds Hds. induction Hds as [|d ds Hd _ IH]; intros gap fuel results Hgap Hfuel.
  - destruct fuel as [|fuel]; [simpl in Hfuel; lia |].
    rewrite parseMeta_loop_step, exec_none; [reflexivity |].
    apply Forall_app; split; assumption.
  - destruct fuel as [|fuel]; [simpl in Hfuel; lia |].
    rewrite parseMeta_loop_step.
    change (meta_lines (d :: ds))
      with ((directive_text d.1.1 d.1.2 d.2 ++ [LF]) ++ meta_lines ds).
    rewrite <- !(app_assoc (directive_text d.1.1 d.1.2 d.2)).
    rewrite exec_directive; [| exact Hgap | exact Hd | reflexivity].
    cbn [m_rest]. rewrite <- (app_assoc [LF]).
    rewrite IH; [reflexivity | repeat constructor | simpl in Hfuel; lia].
Qed.

Lemma meta_lines_length ds : length ds <= length (meta_lines ds).
Proof.
  induction ds as [|d ds IH]; [reflexivity |].
  change (meta_lines (d :: ds))
    with ((directive_text d.1.1 d.1.2 d.2 ++ [LF]) ++ meta_lines ds).
  rewrite !length_app. simpl. lia.
Qed.

(** ** The shape of keys and values *)

Lemma lower_letter c : is_letter c = true -> is_lower (lower c) = true.
Proof.
  destruct c as [[] [] [] [] [] [] [] []]; vm_compute; intros H; congruence.
Qed.

Lemma toLower_letters name :
  Forall (fun c => is_letter c = true) name ->
  Forall (fun c => is_lower c = true) (toLower name).
Proof.
  induction 1 as [|c name Hc _ IH]; constructor; [apply lower_letter; exact Hc | exact IH].
Qed.

Lemma str_unstr l : str (unstr l) = l.
Proof. apply String.list_ascii_of_string_of_list_ascii. Qed.

Lemma trimStart_suffix s : exists front, s = front ++ trimStart s.
Proof.
  induction s as [|c s [front IH]]; [exists []; reflexivity |].
  simpl. destruct (is_space c).
  - exists (c :: front). simpl. rewrite <- IH. reflexivity.
  - exists []. reflexivity.
Qed.

Lemma trimStart_head s c : head (trimStart s) = Some c -> is_space c = false.
Proof.
  induction s as [|c' s IH]; [discriminate |].
  simpl. destruct (is_space c') eqn:E; [exact IH |].
  intros [= <-]. exact E.
Qed.

Lemma trimStart_Forall (P : ascii -> Prop) s : Forall P s -> Forall P (trimStart s).
Proof.
  intros Hs. destruct (trimStart_suffix s) as [front E]. rewrite E in Hs.
  apply Forall_app in Hs as [_ Hs]. exact Hs.
Qed.

Lemma Forall_rev' (P : ascii -> Prop) s : Forall P s -> Forall P (rev s).
Proof.
  induction 1 as [|c s Hc _ IH]; [constructor |].
  simpl. apply Forall_app. split; [exact IH | repeat constructor; exact Hc].
Qed.

Lemma trim_Forall (P : ascii -> Prop) s : Forall P s -> Forall P (trim s).
Proof.
  intros Hs. unfold trim. apply Forall_rev', trimStart_Forall, Forall_rev', trimStart_Forall.
  exact Hs.
Qed.

(** A trimmed text neither begins nor ends with white space. *)
Lemma trim_ends s c :
  head (trim s) = Some c \/ last (trim s) = Some c -> is_space c = false.
Proof.
  unfold trim. set (t := trimStart s).
  destruct (trimStart_suffix (rev t)) as [front E].
  pose proof (trimStart_head (rev t)) as Hhead.
  destruct (trimStart (rev t)) as [|c' u]; [intros [H|H]; discriminate |].
  intros [H|H].
  - apply (trimStart_head s c). fold t.
    rewrite <- (rev_involutive t), E, rev_app_distr.
    destruct (rev (c' :: u)) as [|c0 l] eqn:Eu.
    + apply (f_equal (@length ascii)) in Eu. rewrite length_rev in Eu. discriminate.
    + simpl in H |- *. exact H.
  - simpl rev in H. rewrite last_snoc in H. injection H as <-.
    apply Hhead. reflexivity.
Qed.

Lemma toLower_nil name : toLower name = [] -> name = [].
Proof. destruct name; [reflexivity | discriminate]. Qed.

Lemma unstr_nil l : unstr l = "" -> l = [].
Proof. destruct l; [reflexivity | discriminate]. Qed.

(** * The matcher finds every match

    The converse of [rmatch_sound]: when the pattern has a match that the
    continuation accepts, the search returns a result (which may come from
    another match, tried earlier). *)

Section Complete.
Context {R : Type}.
Implicit Types (k : list ascii -> captures -> option R) (s : list ascii).

Lemma rmatch_alt r1 r2 s caps k :
  rmatch (Alt r1 r2) s caps k =
  match rmatch r1 s caps k with
  | Some x => Some x
  | None => rmatch r2 s caps k
  end.
Proof. reflexivity. Qed.

Lemma rmatch_opt r s caps k :
  rmatch (Opt r) s caps k =
  match rmatch r s caps (fun s' caps' => if length s' <? length s then k s' caps' else None) with
  | Some x => Some x
  | None => k s caps
  end.
Proof. reflexivity. Qed.

Lemma star_step m fuel s caps k :
  star m (S fuel) s caps k =
  match m s caps (fun s' caps' =>
                    if length s' <? length s then star m fuel s' caps' k else None) with
  | Some x => Some x
  | None => k s caps
  end.
Proof. reflexivity. Qed.

Lemma star_stop_some m fuel s caps k :
  is_Some (k s caps) -> is_Some (star m fuel s caps k).
Proof.
  intros Hk. destruct fuel as [|fuel]; [exact Hk |].
  rewrite star_step. destruct (m s caps _); [eauto | exact Hk].
Qed.

Lemma or_else_some (a b : option R) : is_Some a \/ is_Some b ->
  is_Some (match a with Some x => Some x | None => b end).
Proof. intros [[x ->]|Hb]; [eauto |]. destruct a; [eauto | exact Hb]. Qed.

Lemma rmatch_complete_star r s caps s' caps' :
  matches r s caps s' caps' ->
  forall k,
    is_Some (k s' caps') ->
    is_Some (rmatch r s caps k) /\
    (forall r1 fuel, r = Star r1 -> length s <= fuel ->
                     is_Some (star (rmatch r1) fuel s caps k)).
Proof.
  induction 1 as [s caps|p c s caps Hp
                 |r1 r2 s caps s1 caps1 s2 caps2 _ IH1 _ IH2
                 |r1 r2 s caps s' caps' _ IH|r1 r2 s caps s' caps' _ IH
                 |r s caps|r s caps s1 caps1 s2 caps2 _ IH1 Hlt _ IH2
                 |r s caps|r s caps s' caps' _ IH Hlt
                 |n r s caps s' caps' _ IH|caps];
    intros k Hk.
  - split; [exact Hk | discriminate].
  - split; [| discriminate]. rewrite rmatch_char, Hp. exact Hk.
  - split; [| discriminate]. rewrite rmatch_seq. apply IH1, IH2, Hk.
  - split; [| discriminate]. rewrite rmatch_alt. apply or_else_some. left. apply IH, Hk.
  - split; [| discriminate]. rewrite rmatch_alt. apply or_else_some. right. apply IH, Hk.
  - split; [rewrite rmatch_star | intros r1 fuel [= <-] _]; apply star_stop_some, Hk.
  - assert (Hany : forall fuel, length s <= fuel -> is_Some (star (rmatch r) fuel s caps k)).
    { intros fuel Hfuel. destruct fuel as [|fuel]; [lia |].
      rewrite star_step. apply or_else_some. left. apply IH1.
      destruct (Nat.ltb_spec (length s1) (length s)); [| lia].
      apply (proj2 (IH2 k Hk) r fuel eq_refl). lia. }
    split; [rewrite rmatch_star; apply Hany; lia |].
    intros r1 fuel [= <-]. apply Hany.
  - split; [| discriminate]. rewrite rmatch_opt. apply or_else_some. right. exact Hk.
  - split; [| discriminate]. rewrite rmatch_opt. apply or_else_some. left. apply IH.
    destruct (Nat.ltb_spec (length s') (length s)); [exact Hk | lia].
  - split; [| discriminate]. rewrite rmatch_group. apply IH. exact Hk.
  - split; [exact Hk | discriminate].
Qed.

Lemma rmatch_complete r s caps s' caps' k :
  matches r s caps s' caps' -> is_Some (k s' caps') -> is_Some (rmatch r s caps k).
Proof. intros Hm Hk. apply (rmatch_complete_star _ _ _ _ _ Hm k Hk). Qed.

End Complete.

Lemma match_here_complete r index s s' caps' :
  matches r s [] s' caps' -> is_Some (match_here r index s).
Proof.
  intros Hm. unfold match_here.
  destruct (rmatch_complete r s [] s' caps' (fun s' caps => Some (s', caps)) Hm)
    as [[s1 caps1] ->]; eauto.
Qed.

Lemma exec_complete r s' caps' :
  forall s offset index,
    offset <= length s -> matches r (drop offset s) [] s' caps' -> is_Some (exec r index s).
Proof.
  induction s as [|c s IH]; intros offset index Hoff Hm.
  - simpl in Hoff. rewrite drop_nil in Hm. simpl.
    destruct (match_here_complete r index [] s' caps' Hm) as [m ->]. eauto.
  - simpl exec. destruct offset as [|offset].
    + destruct (match_here_complete r index (c :: s) s' caps' Hm) as [m ->]. eauto.
    + destruct (match_here r index (c :: s)); [eauto |].
      apply (IH offset); [simpl in Hoff; lia | exact Hm].
Qed.

(** ** Directives are matches of the pattern *)

Lemma matches_chars_intro (l : list ascii) s caps :
  matches (seqs (map (fun c => Char (same_char false c)) l)) (l ++ s) caps s caps.
Proof.
  induction l as [|c l IH]; [constructor |].
  simpl. eapply matches_seq; [| exact IH].
  constructor. apply Ascii.eqb_refl.
Qed.

Lemma matches_run p run s caps :
  Forall (fun c => p c = true) run -> matches (Star (Char p)) (run ++ s) caps s caps.
Proof.
  induction 1 as [|c run Hc _ IH]; [constructor |].
  simpl. eapply matches_star_more; [constructor; exact Hc | simpl; lia | exact IH].
Qed.

Lemma directive_at_matches s name value rest :
  directive_at s name value rest -> exists caps', matches commentMeta s [] rest caps'.
Proof.
  intros (blank & -> & Hblank & Hne & Hname & Hvalue).
  destruct name as [|c name]; [contradiction |].
  apply Forall_cons in Hname as [Hc Hname].
  eexists. unfold commentMeta, seqs. simpl foldr.
  eapply matches_seq; [apply matches_chars_intro |].
  eapply matches_seq.
  { destruct Hblank as [-> | ->].
    - rewrite app_nil_l. apply matches_opt_skip.
    - apply matches_opt_take; [apply matches_chars_intro |].
      simpl. lia. }
  eapply matches_seq.
  { apply matches_group. unfold Plus. eapply matches_seq.
    - apply (matches_char is_letter c (name ++ _)). exact Hc.
    - apply matches_run. exact Hname. }
  eapply matches_seq; [apply matches_chars_intro |].
  eapply matches_seq; [apply matches_group, matches_run; exact Hvalue |].
  eapply matches_seq; [apply matches_chars_intro | constructor].
Qed.

Lemma directive_at_nil name value rest : ~ directive_at [] name value rest.
Proof. intros (blank & E & _). discriminate. Qed.

(** Where a directive stands, the search of [parseMeta] finds a match. *)
Lemma exec_directive_in content name value index :
  directive_in content name value -> is_Some (exec commentMeta index content).
Proof.
  intros (offset & rest & Hd).
  destruct (Nat.le_gt_cases offset (length content)) as [Hle|Hgt].
  - destruct (directive_at_matches _ _ _ _ Hd) as [caps' Hm].
    eapply exec_complete; eassumption.
  - rewrite drop_ge in Hd by lia. destruct (directive_at_nil _ _ _ Hd).
Qed.

Lemma set_entry_keeps (l : list (string * string)) :
  forall (results : gmap string string) key,
    is_Some (results !! key) -> is_Some (fold_left set_entry l results !! key).
Proof.
  induction l as [|kv l IH]; intros results key Hkey; [exact Hkey |].
  simpl. apply IH. unfold set_entry.
  destruct (decide (kv.1 = key)) as [<-|Hne].
  - rewrite lookup_insert_eq. eauto.
  - rewrite lookup_insert_ne by exact Hne. exact Hkey.
Qed.

(** The entry of the first match stays in the result of the loop. *)
Lemma parseMeta_first_key content m :
  exec commentMeta 0 (str content) = Some m ->
  exists meta,
    parseMeta content = Ret meta /\ is_Some (meta !! unstr (toLower (group 1 m))).
Proof.
  intros Hexec. unfold parseMeta. rewrite parseMeta_loop_step, Hexec.
  destruct (exec_commentMeta _ _ _ Hexec) as (off & front & _ & Hfront & Hne).
  destruct (parseMeta_loop_spec (m_rest m) (String.length content) (m_rest m)
              (<[unstr (toLower (group 1 m)) := unstr (trim (group 2 m))]> ∅) 0)
    as (meta & Hrun & Hfold & _); [reflexivity | |].
  { rewrite <- str_length, Hfront, length_app. destruct front; [contradiction | simpl; lia]. }
  exists meta. split; [exact Hrun |].
  rewrite Hfold. apply set_entry_keeps. rewrite lookup_insert_eq. eauto.
Qed.

(** A run of letters in front of a colon is read in one way only. *)
Lemma letters_colon_unique name :
  forall name' x y,
    Forall (fun c => is_letter c = true) name ->
    Forall (fun c => is_letter c = true) name' ->
    name ++ str ":" ++ x = name' ++ str ":" ++ y -> name = name'.
Proof.
  induction name as [|c name IH]; intros name' x y Hname Hname' E.
  - destruct name' as [|c' name']; [reflexivity |].
    injection E as <- _. apply Forall_cons in Hname' as [Hc _]. discriminate.
  - apply Forall_cons in Hname as [Hc Hname].
    destruct name' as [|c' name'].
    + injection E as -> _. discriminate.
    + injection E as <- E. apply Forall_cons in Hname' as [_ Hname'].
      f_equal. exact (IH name' x y Hname Hname' E).
Qed.

Lemma directive_name_unique blank name value rest name' value' rest' :
  (blank = [] \/ blank = str " ") ->
  name <> [] ->
  Forall (fun c => is_letter c = true) name ->
  directive_at (str "<!--" ++ blank ++ name ++ str ":" ++ value ++ str "-->" ++ rest)
    name' value' rest' ->
  name' = name.
Proof.
  intros Hblank Hne Hname (blank' & E & Hblank' & Hne' & Hname' & _).
  apply app_inv_head in E.
  destruct name as [|c name]; [contradiction |].
  destruct name' as [|c' name']; [contradiction |].
  pose proof Hname as Hname0. pose proof Hname' as Hname0'.
  apply Forall_cons in Hname as [Hc _]. apply Forall_cons in Hname' as [Hc' _].
  destruct Hblank as [-> | ->], Hblank' as [-> | ->].
  - rewrite !app_nil_l in E. symmetry. eapply letters_colon_unique; eassumption.
  - injection E as -> _. discriminate.
  - injection E as <- _. discriminate.
  - apply app_inv_head in E. symmetry. eapply letters_colon_unique; eassumption.
Qed.

(** The search of [parseMeta] at a directive in front of which the text
    has no [<]: the match begins there and its first group is the name of
    the directive, whatever stands behind it. *)
Lemma exec_first_directive before blank name value rest :
  Forall (fun c => Ascii.eqb "<" c = false) before ->
  readable (blank, name, value) ->
  exists m,
    exec commentMeta 0 (before ++ directive_text blank name value ++ rest) = Some m /\
    group 1 m = name /\ m_index m = length before.
Proof.
  intros Hbefore (Hblank & Hne & Hname & Hvalue). simpl in Hblank, Hne, Hname, Hvalue.
  rewrite exec_skip by exact Hbefore. rewrite directive_text_app, Nat.add_0_l.
  assert (Hd : directive_at
                 (str "<!--" ++ blank ++ name ++ str ":" ++ value ++ str "-->" ++ rest)
                 name value rest).
  { exists blank. auto. }
  destruct (directive_at_matches _ _ _ _ Hd) as [caps' Hm].
  destruct (match_here_complete commentMeta (length before) _ _ _ Hm) as [m Hhere].
  exists m. pose proof (match_here_commentMeta _ _ _ Hhere) as (Hd' & Hindex & _).
  split; [| split].
  - remember (str "<!--" ++ blank ++ name ++ str ":" ++ value ++ str "-->" ++ rest)
      as l eqn:El.
    destruct l as [|c0 l]; [discriminate El |].
    simpl exec. rewrite Hhere. reflexivity.
  - eapply directive_name_unique; eassumption.
  - exact Hindex.
Qed.

(** * More about the content transformer *)

Lemma count_all_zero p l : count_all p l = 0 <-> Forall (fun n => count_nodes p n = 0) l.
Proof.
  induction l as [|n l IH]; [split; [constructor | reflexivity] |].
  rewrite count_all_cons, Forall_cons, <- IH. lia.
Qed.

Lemma count_nodes_zero p n : count_nodes p n = 0 -> p n = false.
Proof. destruct n; simpl; destruct (p _); simpl; intros; (discriminate || reflexivity). Qed.

Lemma count_nodes_tag p name attribs children :
  count_nodes p (Tag name attribs children) =
  (if p (Tag name attribs children) then 1 else 0) + count_all p children.
Proof. reflexivity. Qed.

Lemma count_all_mono p q l :
  (forall n, p n = true -> q n = true) -> count_all p l <= count_all q l.
Proof.
  intros Hpq.
  assert (Hn : forall n, count_nodes p n <= count_nodes q n).
  { induction n as [data|data|name attribs children IH] using DomNode_forall_ind.
    - simpl. destruct (p (Text data)) eqn:E; [rewrite (Hpq _ E) |]; simpl; lia.
    - simpl. destruct (p (Comment data)) eqn:E; [rewrite (Hpq _ E) |]; simpl; lia.
    - rewrite !count_nodes_tag.
      assert (Hc : count_all p children <= count_all q children).
      { induction IH as [|ch children Hch _ IHc]; [reflexivity |].
        rewrite !count_all_cons. lia. }
      destruct (p (Tag name attribs children)) eqn:E; [rewrite (Hpq _ E) |]; simpl; lia. }
  induction l as [|n l IH]; [reflexivity |].
  rewrite !count_all_cons. specialize (Hn n). lia.
Qed.

Section Embedding.
Variable parseHTML : string -> list DomNode.
Variable vrule : VideoRule.

Lemma embed_node_tag name attribs children :
  embed_node parseHTML vrule (Tag name attribs children) =
  if selects (selector vrule) (Tag name attribs children)
  then bind (originLink vrule (attr "href" attribs)) (fun link =>
       bind (sequence (map (embed_node parseHTML vrule) children)) (fun _ =>
       Ret (parseHTML (processedLink vrule link))))
  else bind (sequence (map (embed_node parseHTML vrule) children))
         (fun children' => Ret [Tag name attribs (concat children')]).
Proof. reflexivity. Qed.

Lemma sequence_cons {A} (o : outcome A) l :
  sequence (o :: l) = bind o (fun a => bind (sequence l) (fun l' => Ret (a :: l'))).
Proof. destruct o; reflexivity. Qed.

(** With an [href] the link of a rule is always found. *)
Lemma originLink_href link : exists x, originLink vrule (Some link) = Ret x.
Proof.
  unfold originLink. destruct (regexp vrule) as [r|]; [| eauto].
  destruct (string_match (str link) r); eauto.
Qed.

Lemma originLink_none : regexp vrule = None -> forall href, originLink vrule href = Ret (str <$> href).
Proof. intros Hr href. unfold originLink. rewrite Hr. reflexivity. Qed.

(** Elements that the rule does not select anywhere are left alone. *)
Lemma embed_node_unselected n :
  count_nodes (selects (selector vrule)) n = 0 -> embed_node parseHTML vrule n = Ret [n].
Proof.
  induction n as [data|data|name attribs children IH] using DomNode_forall_ind;
    [reflexivity | reflexivity |].
  rewrite count_nodes_tag, embed_node_tag. intros H0.
  destruct (selects (selector vrule) (Tag name attribs children)); [simpl in H0; lia |].
  simpl in H0.
  assert (Hseq : sequence (map (embed_node parseHTML vrule) children) =
                 Ret (map (fun ch => [ch]) children)).
  { apply count_all_zero in H0.
    induction IH as [|ch children Hch _ IHc]; [reflexivity |].
    apply Forall_cons in H0 as [H1 H2].
    simpl map. rewrite sequence_cons, (Hch H1), (IHc H2). reflexivity. }
  rewrite Hseq. simpl. do 3 f_equal.
  clear. induction children as [|ch children IH]; [reflexivity |].
  simpl. rewrite IH. reflexivity.
Qed.

Lemma embedVideo_unselected roots :
  count_all (selects (selector vrule)) roots = 0 -> embedVideo parseHTML vrule roots = Ret roots.
Proof.
  intros H0.
  pose proof (embed_node_unselected (Tag "" [] roots)) as Hroot.
  rewrite count_nodes_tag, embed_node_tag in Hroot.
  destruct (selects (selector vrule) (Tag "" [] roots)) eqn:E.
  { unfold selects in E. destruct (selector vrule) as [sn sc]. simpl in E.
    apply andb_true_iff in E as [_ E]. discriminate. }
  specialize (Hroot H0). unfold embedVideo.
  destruct (sequence (map (embed_node parseHTML vrule) roots)); simpl in *; congruence.
Qed.

(** What a rule does with a tree: it throws when it has a pattern and
    selects an element without [href], and returns otherwise. *)
Lemma embed_node_outcome n :
  (regexp vrule <> None /\ 0 < count_nodes (bare vrule) n ->
   embed_node parseHTML vrule n = Throw TypeError) /\
  (regexp vrule = None \/ count_nodes (bare vrule) n = 0 ->
   exists l, embed_node parseHTML vrule n = Ret l).
Proof.
  induction n as [data|data|name attribs children IH] using DomNode_forall_ind.
  - split; [simpl; lia | eexists; reflexivity].
  - split; [simpl; lia | eexists; reflexivity].
  - assert (Hseq :
      (regexp vrule <> None /\ 0 < count_all (bare vrule) children ->
       sequence (map (embed_node parseHTML vrule) children) = Throw TypeError) /\
      (regexp vrule = None \/ count_all (bare vrule) children = 0 ->
       exists l, sequence (map (embed_node parseHTML vrule) children) = Ret l)).
    { induction IH as [|ch children [Hthrow Hret] _ [IHthrow IHret]].
      - split; [intros [_ H]; cbv in H; lia | eexists; reflexivity].
      - simpl map. rewrite sequence_cons, count_all_cons. split.
        + intros [Hr Hpos].
          destruct (Nat.eq_dec (count_nodes (bare vrule) ch) 0) as [Hz|Hnz].
          * destruct Hret as [l ->]; [auto |]. simpl.
            rewrite IHthrow by (split; [assumption | lia]). reflexivity.
          * rewrite Hthrow by (split; [assumption | lia]). reflexivity.
        + intros Hok.
          destruct Hret as [l ->]; [destruct Hok; [auto | right; lia] |].
          destruct IHret as [l' ->]; [destruct Hok; [auto | right; lia] |].
          eexists. reflexivity. }
    destruct Hseq as [Hthrow Hret].
    rewrite embed_node_tag, count_nodes_tag. unfold bare at 1 3.
    destruct (attr "href" attribs) as [link|] eqn:Ehref.
    + destruct (originLink_href link) as [x Hx]. rewrite Hx. simpl bind. split.
      * intros [Hr Hpos]. simpl in Hpos.
        rewrite Hthrow by auto. destruct (selects _ _); reflexivity.
      * intros Hok. simpl in Hok. destruct (Hret Hok) as [l ->].
        destruct (selects _ _); eexists; reflexivity.
    + destruct (selects (selector vrule) (Tag name attribs children)) eqn:Esel.
      * split.
        -- intros [Hr _]. unfold originLink.
           destruct (regexp vrule); [reflexivity | contradiction].
        -- intros [Hr|Hz]; [| simpl in Hz; lia].
           rewrite originLink_none by exact Hr. simpl bind.
           destruct Hret as [l ->]; [auto |]. eexists. reflexivity.
      * split.
        -- intros [Hr Hpos]. simpl in Hpos. rewrite Hthrow by auto. reflexivity.
        -- intros Hok. simpl in Hok. destruct (Hret Hok) as [l ->]. eexists. reflexivity.
Qed.

Lemma bare_root roots : bare vrule (Tag "" [] roots) = false.
Proof.
  simpl. destruct (selector vrule) as [sn sc]. simpl.
  apply andb_false_iff. right. reflexivity.
Qed.

Lemma embedVideo_outcome roots :
  (regexp vrule <> None /\ 0 < count_all (bare vrule) roots ->
   embedVideo parseHTML vrule roots = Throw TypeError) /\
  (regexp vrule = None \/ count_all (bare vrule) roots = 0 ->
   exists roots', embedVideo parseHTML vrule roots = Ret roots').
Proof.
  destruct (embed_node_outcome (Tag "" [] roots)) as [Hthrow Hret].
  rewrite embed_node_tag, count_nodes_tag, bare_root in Hthrow, Hret.
  assert (Hsel : selects (selector vrule) (Tag "" [] roots) = false).
  { destruct (selector vrule) as [sn sc]. simpl. apply andb_false_iff. right. reflexivity. }
  rewrite Hsel in Hthrow, Hret. simpl in Hthrow, Hret. unfold embedVideo. split.
  - intros Hbad. specialize (Hthrow Hbad).
    destruct (sequence (map (embed_node parseHTML vrule) roots)); simpl in *; congruence.
  - intros Hok. destruct (Hret Hok) as [l Hl].
    destruct (sequence (map (embed_node parseHTML vrule) roots)); simpl in *;
      [eexists; reflexivity | discriminate | discriminate].
Qed.

End Embedding.

Lemma embedVideos_unselected parseHTML vrules roots :
  Forall (fun vrule => count_all (selects (selector vrule)) roots = 0) vrules ->
  embedVideos parseHTML vrules roots = Ret roots.
Proof.
  induction 1 as [|vrule vrules Hv _ IH]; [reflexivity |].
  simpl. rewrite embedVideo_unselected by exact Hv. exact IH.
Qed.

(** ** Documents with nothing to rewrite *)

Lemma checkFirstElement_other roots :
  (forall n, head (elements roots) = Some n -> is_named ["p"] n = false) ->
  checkFirstElement roots = Ret roots.
Proof.
  induction roots as [|n roots IH]; [reflexivity |].
  destruct n as [data|name attribs children|data]; intros Hfirst.
  - simpl. rewrite IH; [reflexivity | exact Hfirst].
  - specialize (Hfirst _ eq_refl). simpl in Hfirst.
    apply orb_false_iff in Hfirst as [Hp _].
    simpl. rewrite Hp. reflexivity.
  - simpl. rewrite IH; [reflexivity | exact Hfirst].
Qed.

Lemma flat_map_singleton {A} (f : A -> A) (l : list A) :
  Forall (fun x => f x = x) l -> flat_map (fun x => [f x]) l = l.
Proof. induction 1 as [|x l Hx _ IH]; [reflexivity |]. simpl. rewrite Hx, IH. reflexivity. Qed.

Lemma map_fixed {A} (f : A -> A) (l : list A) : Forall (fun x => f x = x) l -> map f l = l.
Proof. induction 1 as [|x l Hx _ IH]; [reflexivity |]. simpl. rewrite Hx, IH. reflexivity. Qed.

Lemma Forall_modus {A} (P Q : A -> Prop) (l : list A) :
  Forall (fun x => P x -> Q x) l -> Forall P l -> Forall Q l.
Proof.
  induction 1 as [|x l Hx _ IH]; intros Hl; [constructor |].
  apply Forall_cons in Hl as [H1 H2]. constructor; auto.
Qed.

Lemma strip_links_tag parseHTML name attribs children :
  strip_links parseHTML (Tag name attribs children) =
  Tag name attribs
    (flat_map
       (fun ch =>
          if existsb (String.eqb name) headings && is_plain_link ch
          then parseHTML (text ch)
          else [strip_links parseHTML ch])
       children).
Proof. reflexivity. Qed.

Lemma strip_links_none parseHTML n :
  count_nodes (is_named headings) n = 0 -> strip_links parseHTML n = n.
Proof.
  induction n as [data|data|name attribs children IH] using DomNode_forall_ind;
    [reflexivity | reflexivity |].
  rewrite count_nodes_tag. intros H0.
  assert (Hname : existsb (String.eqb name) headings = false).
  { change (is_named headings (Tag name attribs children) = false).
    destruct (is_named headings (Tag name attribs children)); [simpl in H0; lia | reflexivity]. }
  assert (Hc : count_all (is_named headings) children = 0) by lia.
  rewrite strip_links_tag, Hname. cbn [andb]. f_equal.
  apply flat_map_singleton. apply count_all_zero in Hc.
  exact (Forall_modus _ _ _ IH Hc).
Qed.

Lemma hoist_classes_other n : is_named ["blockquote"] n = false -> hoist_classes n = n.
Proof.
  destruct n as [data|name attribs children|data]; [reflexivity | | reflexivity].
  simpl. intros Hn. apply orb_false_iff in Hn as [Hn _]. rewrite Hn. reflexivity.
Qed.

Lemma count_top_zero p l : count_top p l = 0 -> Forall (fun n => p n = false) l.
Proof.
  unfold count_top. induction l as [|n l IH]; [constructor |].
  simpl. destruct (p n) eqn:E; [discriminate |]. intros Hl. constructor; auto.
Qed.

Lemma existsb_none {A} (p : A -> bool) l : Forall (fun x => p x = false) l -> existsb p l = false.
Proof. induction 1 as [|x l Hx _ IH]; [reflexivity |]. simpl. rewrite Hx, IH. reflexivity. Qed.

Lemma align_node_none n :
  count_nodes (selects centered_image) n = 0 -> align_node n = n.
Proof.
  induction n as [data|data|name attribs children IH] using DomNode_forall_ind;
    [reflexivity | reflexivity |].
  rewrite count_nodes_tag. intros H0.
  assert (Hsel : selects centered_image (Tag name attribs children) = false).
  { destruct (selects centered_image (Tag name attribs children));
      [simpl in H0; lia | reflexivity]. }
  assert (Hc : count_all (selects centered_image) children = 0) by lia.
  apply count_all_zero in Hc.
  assert (Hnone : existsb (selects centered_image) children = false).
  { apply existsb_none. eapply Forall_impl; [exact Hc |].
    intros ch. apply count_nodes_zero. }
  change (align_node (Tag name attribs children))
    with (Tag name
            (if existsb (selects centered_image) children
             then addClass "align-center"
                    (if selects centered_image (Tag name attribs children)
                     then removeClass "align-center" attribs else attribs)
             else (if selects centered_image (Tag name attribs children)
                   then removeClass "align-center" attribs else attribs))
            (map align_node children)).
  rewrite Hnone, Hsel. f_equal.
  apply map_fixed. exact (Forall_modus _ _ _ IH Hc).
Qed.

Lemma heading_named hname n :
  In hname headings -> is_named [hname] n = true -> is_named headings n = true.
Proof.
  intros Hin. destruct n as [data|name attribs children|data]; try discriminate.
  simpl. intros Hn. apply orb_true_iff in Hn as [Hn|]; [| discriminate].
  apply String.eqb_eq in Hn as ->.
  simpl in Hin. destruct Hin as [<-|[<-|[<-|[]]]]; rewrite String.eqb_refl;
    rewrite ?orb_true_r; reflexivity.
Qed.

(** * What the section enclosure leaves behind *)

Section Followed.
(** The property: containers of the class [cls] behind the elements [h]. *)
Variables (h cls : string).
(** The pass: containers of the class [cls'] behind the elements [h'],
    filled with the siblings up to [stops']. *)
Variables (h' : string) (stops' : list string) (cls' : string).

Hypothesis Hstop : forall n, is_named [h] n = true -> is_named stops' n = true.
Hypothesis Hdiv : String.eqb "div" h = false.
Hypothesis Hcase : (h' = h /\ cls' = cls) \/ (String.eqb "div" h' = false /\ h' <> h).

Lemma container_no_heading c content : is_named [h] (container c content) = false.
Proof.
  change (is_named [h] (container c content)) with (String.eqb "div" h || false).
  rewrite Hdiv. reflexivity.
Qed.

Lemma followed_cons n rest :
  followed h cls (n :: rest) =
  (if is_named [h] n
   then match rest with
        | c :: _ => is_container cls c
        | [] => false
        end
   else true) && followed h cls rest.
Proof. reflexivity. Qed.

Lemma followed_tail n rest : followed h cls (n :: rest) = true -> followed h cls rest = true.
Proof. rewrite followed_cons. intros H. apply andb_true_iff in H as [_ H]. exact H. Qed.

Lemma no_stop_no_heading n : is_named stops' n = false -> is_named [h] n = false.
Proof.
  intros Es. destruct (is_named [h] n) eqn:E; [| reflexivity].
  rewrite (Hstop _ E) in Es. discriminate.
Qed.

Lemma is_named_tag names n : is_named names n = true -> isTag n = true.
Proof. destruct n; [discriminate | reflexivity | discriminate]. Qed.

Lemma is_container_tag c n : is_container c n = true -> isTag n = true.
Proof. destruct n; [discriminate | reflexivity | discriminate]. Qed.

(** Taking the nodes that are no elements away keeps a heading and its
    container together. *)
Lemma followed_elements l : followed h cls l = true -> followed h cls (elements l) = true.
Proof.
  unfold elements. induction l as [|n rest IH]; [reflexivity |].
  intros Hl. pose proof (IH (followed_tail _ _ Hl)) as Hrest.
  rewrite followed_cons in Hl. apply andb_true_iff in Hl as [Hhead _].
  simpl List.filter. destruct (isTag n) eqn:Et; [| exact Hrest].
  rewrite followed_cons, Hrest, andb_true_r.
  destruct (is_named [h] n); [| reflexivity].
  destruct rest as [|c rest]; [discriminate |].
  simpl List.filter. rewrite (is_container_tag _ _ Hhead). exact Hhead.
Qed.

Lemma followed_others l :
  followed h cls (List.filter (fun m => negb (isTag m)) l) = true.
Proof.
  induction l as [|n rest IH]; [reflexivity |].
  simpl List.filter. destruct (isTag n) eqn:Et; [exact IH |].
  simpl negb. cbv iota. rewrite followed_cons, IH.
  destruct (is_named [h] n) eqn:En; [| reflexivity].
  rewrite (is_named_tag _ _ En) in Et. discriminate.
Qed.

Lemma followed_left_behind l :
  followed h cls l = true -> followed h cls (left_behind stops' l) = true.
Proof.
  induction l as [|n rest IH]; [reflexivity |].
  intros Hl. rewrite left_behind_cons.
  destruct (is_named stops' n) eqn:Es; [exact Hl |].
  destruct (holds stops' n); [apply followed_others |].
  pose proof (IH (followed_tail _ _ Hl)) as Hrest.
  destruct (isTag n); [exact Hrest |].
  rewrite followed_cons, Hrest, (no_stop_no_heading n Es). reflexivity.
Qed.

Lemma followed_nextUntil l :
  followed h cls l = true -> followed h cls (nextUntil stops' l) = true.
Proof.
  induction l as [|n rest IH]; [reflexivity |].
  intros Hl. rewrite nextUntil_cons.
  destruct (is_named stops' n) eqn:Es; [reflexivity |].
  destruct (holds stops' n); [apply followed_elements; exact Hl |].
  pose proof (IH (followed_tail _ _ Hl)) as Hrest.
  destruct (isTag n); [| exact Hrest].
  rewrite followed_cons, Hrest, (no_stop_no_heading n Es). reflexivity.
Qed.

Lemma heading_not_both n : h' <> h -> is_named [h'] n = true -> is_named [h] n = false.
Proof.
  intros Hne. destruct n as [data|name attribs children|data]; try reflexivity.
  simpl. rewrite !orb_false_r. intros E. apply String.eqb_eq in E as ->.
  apply String.eqb_neq. exact Hne.
Qed.

Lemma is_container_div c n : is_container c n = true -> is_named [h'] n = true ->
  String.eqb "div" h' = true.
Proof.
  destruct n as [data|name attribs children|data]; try discriminate.
  simpl. rewrite orb_false_r. intros Hc Hn.
  apply andb_true_iff in Hc as [Hc _]. apply String.eqb_eq in Hc as ->. exact Hn.
Qed.

Lemma Forall_filter' (P : DomNode -> Prop) (q : DomNode -> bool) l :
  Forall P l -> Forall P (List.filter q l).
Proof.
  induction 1 as [|n rest Hn _ IH]; [constructor |].
  simpl. destruct (q n); [constructor; assumption | assumption].
Qed.

Lemma Forall_nextUntil (P : DomNode -> Prop) l : Forall P l -> Forall P (nextUntil stops' l).
Proof.
  induction 1 as [|n rest Hn Hrest IH]; [constructor |].
  rewrite nextUntil_cons. destruct (is_named stops' n); [constructor |].
  destruct (holds stops' n); [apply Forall_filter'; constructor; assumption |].
  destruct (isTag n); [constructor; assumption | assumption].
Qed.

Lemma Forall_left_behind (P : DomNode -> Prop) l : Forall P l -> Forall P (left_behind stops' l).
Proof.
  induction 1 as [|n rest Hn Hrest IH]; [constructor |].
  rewrite left_behind_cons. destruct (is_named stops' n); [constructor; assumption |].
  destruct (holds stops' n); [apply Forall_filter'; constructor; assumption |].
  destruct (isTag n); [assumption | constructor; assumption].
Qed.

Lemma sectioned_spec l :
  sectioned h cls l = true <->
  followed h cls l = true /\ Forall (fun n => followed_below h cls n = true) l.
Proof.
  unfold sectioned. rewrite andb_true_iff, forallb_forall, List.Forall_forall. reflexivity.
Qed.

Lemma followed_below_tag name attribs children :
  followed_below h cls (Tag name attribs children) = sectioned h cls children.
Proof. reflexivity. Qed.

Lemma sectioned_nextUntil l :
  sectioned h cls l = true -> sectioned h cls (nextUntil stops' l) = true.
Proof.
  rewrite !sectioned_spec. intros [Hf Hb].
  split; [apply followed_nextUntil | apply Forall_nextUntil]; assumption.
Qed.

Lemma sectioned_left_behind l :
  sectioned h cls l = true -> sectioned h cls (left_behind stops' l) = true.
Proof.
  rewrite !sectioned_spec. intros [Hf Hb].
  split; [apply followed_left_behind | apply Forall_left_behind]; assumption.
Qed.

Lemma with_children_named names f n : is_named names (with_children f n) = is_named names n.
Proof. destruct n; reflexivity. Qed.

Lemma with_children_container c f n : is_container c (with_children f n) = is_container c n.
Proof. destruct n; reflexivity. Qed.

(** A pass establishes the property for its own heading, and keeps it for
    another heading that is among its stops. *)
Lemma sectioned_enclose :
  forall fuel l,
    weight l <= fuel ->
    h' = h \/ sectioned h cls l = true ->
    sectioned h cls (enclose h' stops' cls' fuel l) = true.
Proof.
  induction fuel as [|fuel IH]; intros l Hf Hpre.
  - destruct l as [|n l]; [reflexivity |].
    rewrite weight_cons in Hf. pose proof (weight_node_pos n). lia.
  - destruct l as [|n rest]; [reflexivity |].
    rewrite enclose_step. rewrite weight_cons in Hf.
    pose proof (weight_node_pos n) as Hpos.
    pose proof (weight_moved stops' rest) as Hmoved.
    pose proof (weight_children n) as Hch.
    assert (Hrest : h' = h \/ sectioned h cls rest = true).
    { destruct Hpre as [Heq|Hs]; [auto |]. right.
      apply sectioned_spec in Hs as [Hfo Hbe]. apply sectioned_spec.
      split; [exact (followed_tail _ _ Hfo) |]. apply Forall_cons in Hbe as [_ Hbe]. exact Hbe. }
    assert (Hbelow : followed_below h cls (with_children (enclose h' stops' cls' fuel) n) = true).
    { destruct n as [data|name attribs children|data]; [reflexivity | | reflexivity].
      cbn [with_children]. rewrite followed_below_tag. apply IH; [lia |].
      destruct Hpre as [Heq|Hs]; [auto |]. right.
      apply sectioned_spec in Hs as [_ Hbe]. apply Forall_cons in Hbe as [Hbe _].
      exact Hbe. }
    destruct (is_named [h'] n) eqn:En.
    + assert (Htaken : sectioned h cls (enclose h' stops' cls' fuel (nextUntil stops' rest)) = true).
      { apply IH; [lia |]. destruct Hrest as [Heq|Hs]; [auto |]. right.
        apply sectioned_nextUntil. exact Hs. }
      assert (Hleft : sectioned h cls (enclose h' stops' cls' fuel (left_behind stops' rest)) = true).
      { apply IH; [lia |]. destruct Hrest as [Heq|Hs]; [auto |]. right.
        apply sectioned_left_behind. exact Hs. }
      apply sectioned_spec in Hleft as [Hlf Hlb].
      apply sectioned_spec. split.
      * rewrite !followed_cons, container_no_heading, Hlf, with_children_named.
        change (true && true) with true. rewrite andb_true_r.
        destruct Hcase as [[-> ->]|[_ Hne]].
        -- rewrite En. unfold container, is_container.
           rewrite String.eqb_refl, bool_decide_true; reflexivity.
        -- rewrite (heading_not_both n Hne En). reflexivity.
      * constructor; [exact Hbelow |]. constructor; [| exact Hlb].
        unfold container. rewrite followed_below_tag. exact Htaken.
    + pose proof (IH rest ltac:(lia) Hrest) as Hs.
      apply sectioned_spec in Hs as [Hsf Hsb].
      apply sectioned_spec. split; [| constructor; assumption].
      rewrite followed_cons, Hsf, andb_true_r, with_children_named.
      destruct (is_named [h] n) eqn:Eh; [| reflexivity].
      destruct Hcase as [[Heq _]|[Hd Hne]].
      { rewrite Heq, Eh in En. discriminate. }
      destruct Hpre as [Heq|Hl]; [contradiction |].
      apply sectioned_spec in Hl as [Hl _].
      rewrite followed_cons, Eh in Hl. apply andb_true_iff in Hl as [Hl _].
      destruct rest as [|c rest]; [discriminate |].
      destruct fuel as [|fuel].
      { rewrite weight_cons in Hf. pose proof (weight_node_pos c). lia. }
      rewrite enclose_step.
      destruct (is_named [h'] c) eqn:Ec.
      { rewrite (is_container_div _ _ Hl Ec) in Hd. discriminate. }
      rewrite with_children_container. exact Hl.
Qed.

Lemma sectioned_encloseBelow roots :
  h' = h \/ sectioned h cls roots = true ->
  sectioned h cls (encloseBelow h' stops' cls' roots) = true.
Proof. apply sectioned_enclose. reflexivity. Qed.

End Followed.

Lemma heading_is_stop hname stops n :
  existsb (String.eqb hname) stops = true ->
  is_named [hname] n = true -> is_named stops n = true.
Proof.
  intros Hin. destruct n as [data|name attribs children|data]; try discriminate.
  unfold is_named. cbn [existsb]. rewrite orb_false_r. intros E.
  apply String.eqb_eq in E as ->. exact Hin.
Qed.

(** * More about the video rules *)

Lemma exec_here r index s m : match_here r index s = Some m -> exec r index s = Some m.
Proof. intros Hm. destruct s; simpl; rewrite Hm; reflexivity. Qed.

(** A greedy run that nothing follows in the pattern takes what it can
    and leaves the captures as they are. *)
Lemma star_char_total p :
  forall n s caps,
    exists s', star (rmatch (Char p)) n s caps (fun s' caps' => Some (s', caps')) = Some (s', caps).
Proof.
  induction n as [|n IH]; intros s caps; [eexists; reflexivity |].
  rewrite star_step. destruct s as [|c s]; [eexists; reflexivity |].
  rewrite rmatch_char. destruct (p c); [| eexists; reflexivity].
  destruct (Nat.ltb_spec (length s) (length (c :: s))) as [_|Hge]; [| simpl in Hge; lia].
  destruct (IH s caps) as [s' ->]. eexists. reflexivity.
Qed.

Lemma id_unit_class c :
  negb (existsb (same_char true c) (str "#&?")) = id_unit c.
Proof. destruct c as [[] [] [] [] [] [] [] []]; reflexivity. Qed.

(** The pattern of the youtube rule behind its mark: the id runs up to the
    first [#], [&] or [?], or to the end. *)
Lemma youtube_id id tail caps :
  Forall (fun c => id_unit c = true) id -> ends_id tail ->
  exists s',
    rmatch (seqs [Group 1 (Star (none_of true "#&?")); Star dot]) (id ++ tail) caps
      (fun s' caps' => Some (s', caps')) = Some (s', (1, id) :: caps).
Proof.
  intros Hid Htail. unfold seqs, none_of, dot. simpl foldr.
  destruct (star_char_total is_dot (length tail) tail ((1, id) :: caps)) as [s' Hs'].
  exists s'.
  rewrite rmatch_seq, rmatch_group, rmatch_star.
  rewrite star_run; [| | | rewrite length_app; lia].
  - apply backoff_first. rewrite take_front, rmatch_seq, rmatch_star.
    exact Hs'.
  - eapply Forall_impl; [exact Hid |]. intros c Hc.
    exact (eq_trans (id_unit_class c) Hc).
  - destruct tail as [|c tail]; [exact I |].
    exact (eq_trans (id_unit_class c) Htail).
Qed.

Lemma youtube_regexp_marks :
  youtube_regexp = Seq youtube_marks (seqs [Group 1 (Star (none_of true "#&?")); Star dot]).
Proof. reflexivity. Qed.

Lemma youtube_short_mark {R} rest caps (k : list ascii -> captures -> option R) x :
  k rest caps = Some x -> rmatch youtube_marks (str "youtu.be/" ++ rest) caps k = Some x.
Proof.
  intros Hk. unfold youtube_marks, alts. rewrite !rmatch_alt.
  change (rmatch (lit true "youtu.be/") (str "youtu.be/" ++ rest) caps k) with (k rest caps).
  rewrite Hk. reflexivity.
Qed.

Lemma youtube_watch_mark {R} rest caps (k : list ascii -> captures -> option R) x :
  k rest caps = Some x -> rmatch youtube_marks (str "watch?v=" ++ rest) caps k = Some x.
Proof.
  intros Hk. unfold youtube_marks. rewrite rmatch_alt.
  change (rmatch (alts (lit true "youtu.be/")
                    [lit true "v/"; lit true "vi/";
                     seqs [lit true "u/"; word; lit true "/"]; lit true "embed/"])
            (str "watch?v=" ++ rest) caps k) with (@None R).
  cbv iota. rewrite rmatch_alt. unfold seqs at 1. simpl foldr.
  rewrite rmatch_seq, rmatch_opt.
  change (rmatch (lit true "watch") (str "watch?v=" ++ rest) caps ?k')
    with (k' (str "?v=" ++ rest) caps).
  cbv beta.
  destruct (Nat.ltb_spec (length (str "?v=" ++ rest)) (length (str "watch?v=" ++ rest)))
    as [_|Hge]; [| simpl in Hge; lia].
  change (rmatch (Seq (lit true "?v") (Seq (Opt (lit true "i")) (Seq (lit true "=") Empty)))
            (str "?v=" ++ rest) caps k) with (k rest caps).
  rewrite Hk. reflexivity.
Qed.

(** The search passes over [https://] and over [https://www.youtube.com/],
    where no mark of the pattern begins. *)
Lemma youtube_skip_scheme rest :
  exec youtube_regexp 0 (str "https://" ++ rest) = exec youtube_regexp 8 rest.
Proof. reflexivity. Qed.

Lemma youtube_skip_host rest :
  exec youtube_regexp 0 (str "https://www.youtube.com/" ++ rest) =
  exec youtube_regexp 24 rest.
Proof. reflexivity. Qed.

Lemma youtube_match_here index mark id tail :
  (forall rest caps k x,
      k rest caps = Some x ->
      rmatch youtube_marks (mark ++ rest) caps k = Some (x : list ascii * captures)) ->
  Forall (fun c => id_unit c = true) id -> ends_id tail ->
  exists m,
    match_here youtube_regexp index (mark ++ id ++ tail) = Some m /\
    m_captures m = [(1, id)].
Proof.
  intros Hmark Hid Htail.
  destruct (youtube_id id tail [] Hid Htail) as [s' Hs'].
  unfold match_here. rewrite youtube_regexp_marks, rmatch_seq.
  rewrite (Hmark _ _ _ _ Hs'). eexists. split; reflexivity.
Qed.

Lemma youtube_last_entry text id :
  id <> [] ->
  mjoin (last (List.filter truthy_string [Some text; Some id])) = Some id.
Proof.
  intros Hid. destruct id as [|c id]; [contradiction |].
  destruct text; reflexivity.
Qed.

Lemma youtube_origin link index mark id tail :
  (forall rest caps k x,
      k rest caps = Some x ->
      rmatch youtube_marks (mark ++ rest) caps k = Some (x : list ascii * captures)) ->
  exec youtube_regexp 0 (str link) = exec youtube_regexp index (mark ++ id ++ tail) ->
  id <> [] -> Forall (fun c => id_unit c = true) id -> ends_id tail ->
  originLink youtube_rule (Some link) = Ret (Some id).
Proof.
  intros Hmark Hexec Hne Hid Htail.
  destruct (youtube_match_here index mark id tail Hmark Hid Htail) as (m & Hm & Hcaps).
  apply exec_here in Hm. rewrite <- Hexec in Hm.
  unfold originLink. cbn [regexp youtube_rule]. unfold string_match. rewrite Hm.
  cbn [fmap option_fmap option_map]. unfold match_array.
  change (group_count youtube_regexp) with 1. cbn [seq map]. rewrite Hcaps.
  change (capture 1 [(1, id)]) with (Some id).
  rewrite youtube_last_entry by exact Hne. reflexivity.
Qed.

(** ** The template *)

Lemma substitution_plain matched before after repl :
  Forall (fun c => no_dollar c = true) repl ->
  substitution matched before after repl = repl.
Proof.
  induction 1 as [|c repl Hc _ IH]; [reflexivity |].
  unfold no_dollar in Hc. apply negb_true_iff in Hc.
  simpl. rewrite Hc, IH. reflexivity.
Qed.

Lemma substitution_app matched before after x repl :
  Forall (fun c => no_dollar c = true) x ->
  substitution matched before after (x ++ repl) = x ++ substitution matched before after repl.
Proof.
  induction 1 as [|c x Hc _ IH]; [reflexivity |].
  unfold no_dollar in Hc. apply negb_true_iff in Hc.
  simpl. rewrite Hc, IH. reflexivity.
Qed.

(** The templates of the four rules hold the placeholder once. *)
Lemma output_placeholder vrule :
  In vrule videoRules ->
  exists before after,
    find_first (str "{0}") (str (output vrule)) = Some (before, after) /\
    str (output vrule) = before ++ str "{0}" ++ after.
Proof.
  intros [<-|[<-|[<-|[<-|[]]]]]; eexists _, _; split; vm_compute; reflexivity.
Qed.

(** ** The link of a rule whose pattern has one group *)

Lemma origin_of_match vrule r link m id :
  regexp vrule = Some r -> group_count r = 1 ->
  exec r 0 (str link) = Some m -> m_captures m = [(1, id)] -> id <> [] ->
  originLink vrule (Some link) = Ret (Some id).
Proof.
  intros Hr Hcount Hm Hcaps Hne.
  unfold originLink. rewrite Hr. unfold string_match. rewrite Hm.
  cbn [fmap option_fmap option_map]. unfold match_array.
  rewrite Hcount. cbn [seq map]. rewrite Hcaps.
  change (capture 1 [(1, id)]) with (Some id).
  rewrite youtube_last_entry by exact Hne. reflexivity.
Qed.

(** A literal whose first code unit is not the one of the input fails. *)
Lemma lit_first_fails {R} w r c0 d s caps (k : list ascii -> captures -> option R) :
  head (str w) = Some c0 -> same_char true c0 d = false ->
  rmatch (Seq (lit true w) r) (d :: s) caps k = None.
Proof.
  intros Hw Hc. unfold lit. destruct (str w) as [|c l]; [discriminate |].
  injection Hw as ->. simpl map. simpl seqs.
  rewrite !rmatch_seq, rmatch_char, Hc. reflexivity.
Qed.

Lemma digit_no_mark d :
  is_digit d = true ->
  same_char true "c" d = false /\ same_char true "g" d = false /\
  same_char true "a" d = false.
Proof.
  destruct d as [[] [] [] [] [] [] [] []]; vm_compute; intros H;
    (discriminate H || (repeat split; reflexivity)).
Qed.

Lemma vimeo_host {R} rest caps (k : list ascii -> captures -> option R) :
  rmatch vimeo_regexp (str "vimeo.com/" ++ rest) caps k =
  rmatch (seqs [vimeo_paths; Group 1 (Plus digit); vimeo_end]) rest caps k.
Proof. reflexivity. Qed.

(** In front of a digit none of the paths of the pattern is taken. *)
Lemma vimeo_no_path {R} d s caps (k : list ascii -> captures -> option R) :
  is_digit d = true -> rmatch vimeo_paths (d :: s) caps k = k (d :: s) caps.
Proof.
  intros Hd. destruct (digit_no_mark d Hd) as (Hc & Hg & Ha).
  unfold vimeo_paths, alts. rewrite !rmatch_alt. unfold seqs. simpl foldr.
  rewrite (lit_first_fails "channels/" _ "c") by (reflexivity || exact Hc).
  rewrite (lit_first_fails "groups/" _ "g") by (reflexivity || exact Hg).
  rewrite (lit_first_fails "album/" _ "a") by (reflexivity || exact Ha).
  reflexivity.
Qed.

Lemma vimeo_end_match tail caps :
  ends_number tail ->
  exists s', rmatch vimeo_end tail caps (fun s' caps' => Some (s', caps')) = Some (s', caps).
Proof.
  destruct tail as [|c tail]; [eexists; reflexivity |].
  intros [-> | ->]; eexists; reflexivity.
Qed.

Lemma vimeo_number digits tail caps :
  digits <> [] -> Forall (fun c => is_digit c = true) digits -> ends_number tail ->
  exists s',
    rmatch (seqs [vimeo_paths; Group 1 (Plus digit); vimeo_end]) (digits ++ tail) caps
      (fun s' caps' => Some (s', caps')) = Some (s', (1, digits) :: caps).
Proof.
  intros Hne Hdigits Htail. destruct digits as [|d ds]; [contradiction |].
  apply Forall_cons in Hdigits as [Hd Hds].
  destruct (vimeo_end_match tail ((1, d :: ds) :: caps) Htail) as [s' Hs'].
  exists s'. unfold seqs. simpl foldr.
  change ((d :: ds) ++ tail) with (d :: ds ++ tail).
  rewrite rmatch_seq, vimeo_no_path by exact Hd.
  rewrite rmatch_seq, rmatch_group. unfold Plus, digit.
  rewrite rmatch_seq, rmatch_char, Hd, rmatch_star.
  rewrite star_run; [| exact Hds | | rewrite length_app; lia].
  - apply backoff_first.
    change (d :: ds ++ tail) with ((d :: ds) ++ tail).
    rewrite take_front, rmatch_seq. exact Hs'.
  - destruct tail as [|c tail]; [exact I |].
    destruct Htail as [-> | ->]; reflexivity.
Qed.

Lemma vimeo_skip_scheme rest :
  exec vimeo_regexp 0 (str "https://" ++ rest) = exec vimeo_regexp 8 rest.
Proof. reflexivity. Qed.

(** ** The dailymotion pattern *)

Lemma lit_head_fails {R} w c0 d s caps (k : list ascii -> captures -> option R) :
  head (str w) = Some c0 -> same_char true c0 d = false ->
  rmatch (lit true w) (d :: s) caps k = None.
Proof.
  intros Hw Hc. unfold lit. destruct (str w) as [|c l]; [discriminate |].
  injection Hw as ->. simpl map. simpl seqs.
  rewrite !rmatch_seq, rmatch_char, Hc. reflexivity.
Qed.

Lemma lit_nil_fails {R} w c0 caps (k : list ascii -> captures -> option R) :
  head (str w) = Some c0 -> rmatch (lit true w) [] caps k = None.
Proof.
  intros Hw. unfold lit. destruct (str w) as [|c l]; [discriminate |]. reflexivity.
Qed.

Lemma rmatch_char_fails {R} p s caps (k : list ascii -> captures -> option R) :
  match s with [] => True | c :: _ => p c = false end ->
  rmatch (Char p) s caps k = None.
Proof. destruct s as [|c s]; [reflexivity |]. intros Hc. rewrite rmatch_char, Hc. reflexivity. Qed.

Lemma hash_same_char c : same_char true "#" c = Ascii.eqb "#" c.
Proof. destruct c as [[] [] [] [] [] [] [] []]; reflexivity. Qed.

Lemma id_char_alnum c : is_id_char c = false -> is_alnum c = false.
Proof.
  unfold is_id_char, is_alnum. intros H.
  apply orb_false_iff in H as [H _]. apply orb_false_iff in H as [H _]. exact H.
Qed.

(** Behind the key and its slug neither the mark [#video=] nor a second
    key is read when the text ends there or goes on with another code
    unit than those of a slug and [#]. *)
Lemma dailymotion_tail_skip {R} tail caps (k : list ascii -> captures -> option R) :
  ends_key tail ->
  rmatch (Seq (Opt (lit true "#video=")) (Seq (Opt (Group 2 (Plus (Char is_alnum)))) Empty))
    tail caps k = k tail caps.
Proof.
  intros Htail. rewrite rmatch_seq, rmatch_opt.
  assert (Hmark : forall k', rmatch (lit true "#video=") tail caps k' = @None R).
  { intros k'. destruct tail as [|t tail]; [apply (lit_nil_fails _ "#"); reflexivity |].
    destruct Htail as [_ Hh].
    apply (lit_head_fails _ "#"); [reflexivity |]. rewrite hash_same_char. exact Hh. }
  rewrite Hmark. rewrite rmatch_seq, rmatch_opt, rmatch_group. unfold Plus.
  rewrite rmatch_seq, rmatch_char_fails; [reflexivity |].
  destruct tail as [|t tail]; [exact I |]. destruct Htail as [Hi _].
  apply id_char_alnum. exact Hi.
Qed.

Lemma dailymotion_key_match id slug tail :
  id <> [] ->
  Forall (fun c => is_alnum c = true) id ->
  Forall (fun c => is_id_char c = true) slug ->
  slug_start slug -> ends_key tail ->
  rmatch dailymotion_key (id ++ slug ++ tail) [] (fun s' caps' => Some (s', caps')) =
  Some (tail, [(1, id)]).
Proof.
  intros Hne Hid Hslug Hstart Htail. destruct id as [|d ds]; [contradiction |].
  apply Forall_cons in Hid as [Hd Hds].
  unfold dailymotion_key, seqs. simpl foldr.
  change alnum with (Char is_alnum). change id_char with (Char is_id_char).
  rewrite rmatch_seq, rmatch_group. unfold Plus at 1.
  change ((d :: ds) ++ slug ++ tail) with (d :: ds ++ slug ++ tail).
  rewrite rmatch_seq, rmatch_char, Hd, rmatch_star.
  rewrite (star_run is_alnum _ ds (slug ++ tail)); [| exact Hds | | rewrite length_app; lia].
  2:{ destruct slug as [|c cs]; [| exact Hstart].
      destruct tail as [|t tail]; [exact I |]. destruct Htail as [Hi _].
      apply id_char_alnum. exact Hi. }
  apply backoff_first.
  change (d :: ds ++ slug ++ tail) with ((d :: ds) ++ slug ++ tail).
  rewrite take_front, rmatch_seq, rmatch_opt.
  destruct slug as [|c cs].
  - rewrite app_nil_l. unfold Plus at 1. rewrite !rmatch_seq, rmatch_char_fails; [reflexivity |].
    destruct tail as [|t tail]; [exact I |]. destruct Htail as [Hi _]. exact Hi.
  - apply Forall_cons in Hslug as [Hc Hcs].
    unfold Plus at 1.
    change ((c :: cs) ++ tail) with (c :: cs ++ tail).
    rewrite !rmatch_seq, rmatch_char, Hc, rmatch_star.
    rewrite (star_run is_id_char _ cs tail); [| exact Hcs | | rewrite length_app; lia].
    2:{ destruct tail as [|t tail]; [exact I |]. destruct Htail as [Hi _]. exact Hi. }
    erewrite backoff_first; [reflexivity |].
    rewrite dailymotion_tail_skip by exact Htail.
    destruct (Nat.ltb_spec (length tail) (length (c :: cs ++ tail))) as [_|Hge];
      [reflexivity |].
    simpl in Hge. rewrite length_app in Hge. lia.
Qed.

Lemma dailymotion_long_host rest caps x :
  rmatch dailymotion_key rest caps (fun s' caps' => Some (s', caps')) = Some x ->
  rmatch dailymotion_regexp (str "dailymotion.com/video/" ++ rest) caps
    (fun s' caps' => Some (s', caps')) = Some x.
Proof.
  intros Hkey.
  change (rmatch dailymotion_regexp (str "dailymotion.com/video/" ++ rest) caps
            (fun s' caps' => Some (s', caps')))
    with (match
             match rmatch dailymotion_key rest caps (fun s' caps' => Some (s', caps')) with
             | Some y => Some y
             | None => None
             end
           with
           | Some y => Some y
           | None => None
           end).
  rewrite Hkey. reflexivity.
Qed.

Lemma dailymotion_short_host rest caps x :
  rmatch dailymotion_key rest caps (fun s' caps' => Some (s', caps')) = Some x ->
  rmatch dailymotion_regexp (str "dai.ly/" ++ rest) caps
    (fun s' caps' => Some (s', caps')) = Some x.
Proof.
  intros Hkey.
  change (rmatch dailymotion_regexp (str "dai.ly/" ++ rest) caps
            (fun s' caps' => Some (s', caps')))
    with (rmatch dailymotion_key rest caps (fun s' caps' => Some (s', caps'))).
  exact Hkey.
Qed.

Lemma dailymotion_skip_www rest :
  exec dailymotion_regexp 0 (str "https://www." ++ rest) = exec dailymotion_regexp 12 rest.
Proof. reflexivity. Qed.

Lemma dailymotion_skip_scheme rest :
  exec dailymotion_regexp 0 (str "https://" ++ rest) = exec dailymotion_regexp 8 rest.
Proof. reflexivity. Qed.

Lemma dailymotion_origin link index host id slug tail :
  (forall rest caps x,
      rmatch dailymotion_key rest caps (fun s' caps' => Some (s', caps')) = Some x ->
      rmatch dailymotion_regexp (host ++ rest) caps (fun s' caps' => Some (s', caps')) = Some x) ->
  exec dailymotion_regexp 0 (str link) =
    exec dailymotion_regexp index (host ++ id ++ slug ++ tail) ->
  id <> [] ->
  Forall (fun c => is_alnum c = true) id ->
  Forall (fun c => is_id_char c = true) slug ->
  slug_start slug -> ends_key tail ->
  originLink dailymotion_rule (Some link) = Ret (Some id).
Proof.
  intros Hhost Hexec Hne Hid Hslug Hstart Htail.
  pose proof (Hhost _ _ _ (dailymotion_key_match id slug tail Hne Hid Hslug Hstart Htail))
    as Hrun.
  assert (Hm : exists m, exec dailymotion_regexp 0 (str link) = Some m /\
                         m_captures m = [(1, id)]).
  { rewrite Hexec. eexists. split; [apply exec_here; unfold match_here; rewrite Hrun |];
      reflexivity. }
  destruct Hm as (m & Hm & Hcaps).
  unfold originLink. cbn [regexp dailymotion_rule]. unfold string_match. rewrite Hm.
  cbn [fmap option_fmap option_map]. unfold match_array.
  change (group_count dailymotion_regexp) with 2. cbn [seq map]. rewrite Hcaps.
  change (capture 1 [(1, id)]) with (Some id).
  change (capture 2 [(1, id)]) with (@None (list ascii)).
  destruct id as [|d ds]; [contradiction |]. destruct (m_text m); reflexivity.
Qed.

(** The dot of the host in the vimeo pattern takes any code unit of a line. *)
Lemma vimeo_any_host {R} c rest caps (k : list ascii -> captures -> option R) :
  is_dot c = true ->
  rmatch vimeo_regexp (str "vimeo" ++ c :: str "com/" ++ rest) caps k =
  rmatch (seqs [vimeo_paths; Group 1 (Plus digit); vimeo_end]) rest caps k.
Proof.
  intros Hc.
  change (rmatch vimeo_regexp (str "vimeo" ++ c :: str "com/" ++ rest) caps k)
    with (if is_dot c
          then rmatch (seqs [vimeo_paths; Group 1 (Plus digit); vimeo_end]) rest caps k
          else None).
  rewrite Hc. reflexivity.
Qed.

(** * The rules that move classes *)

Lemma removeAttr_set_attr value attribs :
  removeAttr "class" (set_attr "class" value attribs) = removeAttr "class" attribs.
Proof.
  unfold removeAttr. induction attribs as [|[k v] attribs IH]; [reflexivity |].
  simpl set_attr. destruct (String.eqb k "class") eqn:E.
  - simpl. rewrite E. reflexivity.
  - simpl. rewrite E. simpl. rewrite IH. reflexivity.
Qed.

Lemma removeAttr_addClass value attribs :
  removeAttr "class" (addClass value attribs) = removeAttr "class" attribs.
Proof.
  unfold addClass. destruct (str value); [reflexivity |].
  destruct (attr "class" attribs) as [[|c className]|]; apply removeAttr_set_attr.
Qed.

Lemma removeAttr_removeClass cls attribs :
  removeAttr "class" (removeClass cls attribs) = removeAttr "class" attribs.
Proof.
  unfold removeClass. destruct (hasClass cls attribs); [apply removeAttr_set_attr | reflexivity].
Qed.

Lemma removeAttr_twice attribs :
  removeAttr "class" (removeAttr "class" attribs) = removeAttr "class" attribs.
Proof.
  unfold removeAttr. induction attribs as [|[k v] attribs IH]; [reflexivity |].
  simpl. destruct (String.eqb k "class") eqn:E; simpl; [exact IH |].
  rewrite E. simpl. rewrite IH. reflexivity.
Qed.

Lemma erase_classes_tag name attribs children :
  erase_classes (Tag name attribs children) =
  Tag name (removeAttr "class" attribs) (map erase_classes children).
Proof. reflexivity. Qed.

Lemma map_ext_Forall {A B} (f g : A -> B) (l : list A) :
  Forall (fun x => f x = g x) l -> map f l = map g l.
Proof. induction 1 as [|x l Hx _ IH]; [reflexivity |]. simpl. rewrite Hx, IH. reflexivity. Qed.

Lemma erase_align_node n : erase_classes (align_node n) = erase_classes n.
Proof.
  induction n as [data|data|name attribs children IH] using DomNode_forall_ind;
    [reflexivity | reflexivity |].
  change (align_node (Tag name attribs children))
    with (Tag name
            (if existsb (selects centered_image) children
             then addClass "align-center"
                    (if selects centered_image (Tag name attribs children)
                     then removeClass "align-center" attribs else attribs)
             else (if selects centered_image (Tag name attribs children)
                   then removeClass "align-center" attribs else attribs))
            (map align_node children)).
  rewrite !erase_classes_tag. f_equal.
  - destruct (existsb (selects centered_image) children);
      destruct (selects centered_image (Tag name attribs children));
      rewrite ?removeAttr_addClass, ?removeAttr_removeClass; reflexivity.
  - rewrite map_map. apply map_ext_Forall. exact IH.
Qed.

Lemma erase_map_first_tag (f : DomNode -> DomNode) l :
  (forall n, erase_classes (f n) = erase_classes n) ->
  map erase_classes (map_first_tag f l) = map erase_classes l.
Proof.
  intros Hf. induction l as [|n l IH]; [reflexivity |].
  simpl. destruct (isTag n); simpl; [rewrite Hf | rewrite IH]; reflexivity.
Qed.

Lemma erase_map_last_tag (f : DomNode -> DomNode) l :
  (forall n, erase_classes (f n) = erase_classes n) ->
  map erase_classes (map_last_tag f l) = map erase_classes l.
Proof.
  intros Hf. unfold map_last_tag.
  rewrite map_rev, erase_map_first_tag by exact Hf.
  rewrite map_rev, rev_involutive. reflexivity.
Qed.

Lemma erase_hoist_classes n : erase_classes (hoist_classes n) = erase_classes n.
Proof.
  destruct n as [data|name attribs children|data]; [reflexivity | | reflexivity].
  unfold hoist_classes. destruct (String.eqb name "blockquote"); [| reflexivity].
  destruct (last_tag children) as [[|lastName lastAttribs lastChildren|]|]; try reflexivity.
  destruct (attr "class" lastAttribs) as [classes|]; [| reflexivity].
  destruct (0 <? String.length classes); [| reflexivity].
  rewrite !erase_classes_tag, removeAttr_addClass. f_equal.
  apply erase_map_last_tag. intros [data|cn ca cc|data]; [reflexivity | | reflexivity].
  rewrite !erase_classes_tag, removeAttr_twice. reflexivity.
Qed.

(** * The scan of parseMeta, match by match *)

Lemma letter_is_dot c : is_letter c = true -> is_dot c = true.
Proof. destruct c as [[] [] [] [] [] [] [] []]; vm_compute; intros H; congruence. Qed.

Lemma find_first_unfold pat s :
  find_first pat s =
  if starts_with pat s then Some ([], drop (length pat) s)
  else match s with
       | c :: s' =>
           match find_first pat s' with
           | Some (before, after) => Some (c :: before, after)
           | None => None
           end
       | [] => None
       end.
Proof. destruct s; reflexivity. Qed.

Lemma starts_with_spec pat s : starts_with pat s = true -> s = pat ++ drop (length pat) s.
Proof.
  revert s. induction pat as [|p pat IH]; intros s Hs; [reflexivity |].
  destruct s as [|c s]; [discriminate |].
  simpl in Hs. apply andb_true_iff in Hs as [Hc Hs].
  apply Ascii.eqb_eq in Hc as ->. simpl. f_equal. apply IH. exact Hs.
Qed.

Lemma find_first_spec pat s :
  forall before after, find_first pat s = Some (before, after) -> s = before ++ pat ++ after.
Proof.
  induction s as [|c s IH]; intros before after; rewrite find_first_unfold.
  - destruct (starts_with pat []) eqn:E; [| discriminate].
    intros [= <- <-]. apply starts_with_spec. exact E.
  - destruct (starts_with pat (c :: s)) eqn:E.
    + intros [= <- <-]. apply starts_with_spec. exact E.
    + destruct (find_first pat s) as [[b a]|]; [| discriminate].
      intros [= <- <-]. simpl. f_equal. apply IH. reflexivity.
Qed.

Lemma find_first_none pat s :
  find_first pat s = None -> forall n, starts_with pat (drop n s) = false.
Proof.
  induction s as [|c s IH]; intros Hnone n; rewrite find_first_unfold in Hnone.
  - rewrite drop_nil. destruct (starts_with pat []); [discriminate | reflexivity].
  - destruct (starts_with pat (c :: s)) eqn:E; [discriminate |].
    destruct n as [|n]; [exact E |].
    simpl. apply IH. destruct (find_first pat s) as [[b a]|]; [discriminate | reflexivity].
Qed.

(** A text that holds the mark holds it a last time. *)
Lemma last_occurrence pat :
  pat <> [] ->
  forall n l v0 d0,
    length d0 <= n -> l = v0 ++ pat ++ d0 ->
    exists v tl, l = v ++ pat ++ tl /\ find_first pat tl = None.
Proof.
  intros Hpat. induction n as [|n IH]; intros l v0 d0 Hn Hl.
  - destruct (find_first pat d0) as [[b a]|] eqn:E; [| eauto].
    apply find_first_spec in E. apply (f_equal (@length ascii)) in E.
    rewrite !length_app in E. destruct pat; [contradiction | simpl in E; lia].
  - destruct (find_first pat d0) as [[b a]|] eqn:E; [| eauto].
    apply find_first_spec in E.
    apply (IH l (v0 ++ pat ++ b) a).
    + apply (f_equal (@length ascii)) in E. rewrite !length_app in E.
      destruct pat; [contradiction | simpl in E; lia].
    + rewrite Hl, E, <- !app_assoc. reflexivity.
Qed.

Lemma span_dots l :
  exists d post, l = d ++ post /\ Forall (fun c => is_dot c = true) d /\ at_line_end post.
Proof.
  induction l as [|c l (d & post & -> & Hd & Hpost)].
  - exists [], []. split; [reflexivity |]. split; [constructor | exact I].
  - destruct (is_dot c) eqn:E.
    + exists (c :: d), post. split; [reflexivity |]. split; [constructor; assumption | exact Hpost].
    + exists [], (c :: d ++ post). split; [reflexivity |]. split; [constructor | exact E].
Qed.

(** Where a directive stands, one stands whose value runs to the last
    closing mark of the line. *)
Lemma directive_at_greedy s name value0 rest0 :
  directive_at s name value0 rest0 ->
  exists value rest, greedy_directive_at s name value rest.
Proof.
  intros (blank & -> & Hblank & Hne & Hname & Hvalue0).
  destruct (span_dots rest0) as (d & post & -> & Hd & Hpost).
  assert (Hpat : str "-->" <> []) by discriminate.
  assert (Hmark : Forall (fun c => is_dot c = true) (str "-->")) by repeat constructor.
  unfold greedy_directive_at.
  revert Hpat Hmark. generalize (str "-->") (str "<!--") (str ":").
  intros mark opening colon Hpat Hmark.
  destruct (last_occurrence mark Hpat (length d) (value0 ++ mark ++ d) value0 d
              (le_n _) eq_refl) as (value & tl & E & Hlast).
  assert (Hline : Forall (fun c => is_dot c = true) (value ++ mark ++ tl)).
  { rewrite <- E. repeat (apply Forall_app; split); assumption. }
  apply Forall_app in Hline as [Hv Hline]. apply Forall_app in Hline as [_ Htl].
  exists value, (tl ++ post), blank, tl, post.
  split; [| auto 10].
  rewrite (app_assoc mark d post), (app_assoc value0 (mark ++ d) post), E.
  rewrite <- !app_assoc. reflexivity.
Qed.

(** ** The greedy value *)

Lemma backoff_head {R} (k : list ascii -> captures -> option R) c u post caps :
  backoff k (c :: u) post caps =
  match backoff k u post caps with
  | Some x => Some x
  | None => k (c :: u ++ post) caps
  end.
Proof. reflexivity. Qed.

Lemma backoff_none {R} (k : list ascii -> captures -> option R) u post caps :
  (forall n, k (drop n u ++ post) caps = None) -> backoff k u post caps = None.
Proof.
  induction u as [|c u IH]; intros Hk; [exact (Hk 0) |].
  rewrite backoff_head, IH; [exact (Hk 0) |].
  intros n. exact (Hk (S n)).
Qed.

Lemma starts_with_long pat u post :
  length pat <= length u -> starts_with pat (u ++ post) = starts_with pat u.
Proof.
  revert u. induction pat as [|p pat IH]; intros u Hlen; [reflexivity |].
  destruct u as [|a u]; [simpl in Hlen; lia |].
  simpl. rewrite IH by (simpl in Hlen; lia). reflexivity.
Qed.

Lemma starts_with_short pat u post :
  (forall c rest p, post = c :: rest -> In p pat -> Ascii.eqb p c = false) ->
  length u < length pat -> starts_with pat (u ++ post) = false.
Proof.
  revert u. induction pat as [|p pat IH]; intros u Hpost Hlen; [simpl in Hlen; lia |].
  destruct u as [|a u].
  - simpl app. destruct post as [|c rest]; [reflexivity |].
    simpl. rewrite (Hpost c rest p eq_refl) by (left; reflexivity). reflexivity.
  - simpl. rewrite IH; [apply andb_false_r | | simpl in Hlen; lia].
    intros c rest p' E Hin. apply (Hpost c rest p' E). right. exact Hin.
Qed.

(** Behind the last closing mark of a line no closing mark begins. *)
Lemma no_close_in_tail tl post n :
  find_first (str "-->") tl = None -> at_line_end post ->
  starts_with (str "-->") (drop n tl ++ post) = false.
Proof.
  intros Hnone Hpost. pose proof (find_first_none _ _ Hnone n) as Hs.
  destruct (le_lt_dec (length (str "-->")) (length (drop n tl))) as [Hlong|Hshort].
  - rewrite starts_with_long by exact Hlong. exact Hs.
  - apply starts_with_short; [| exact Hshort].
    intros c rest p -> Hin. simpl in Hpost.
    destruct (line_terminator c Hpost) as [-> | ->];
      simpl in Hin; destruct Hin as [<-|[<-|[<-|[]]]]; reflexivity.
Qed.

Lemma no_close_behind_mark tl post n :
  find_first (str "-->") tl = None -> at_line_end post ->
  starts_with (str "-->") (drop n (str "->" ++ tl) ++ post) = false.
Proof.
  intros Hnone Hpost. destruct n as [|[|n]]; [reflexivity | reflexivity |].
  change (drop (S (S n)) (str "->" ++ tl)) with (drop n tl).
  apply no_close_in_tail; assumption.
Qed.

(** The pattern behind the optional blank, on a directive whose value
    runs to the last closing mark of the line. *)
Lemma directive_body_greedy {R} (k : list ascii -> captures -> option R)
    c name value tl post caps x :
  is_letter c = true ->
  Forall (fun c => is_letter c = true) name ->
  Forall (fun c => is_dot c = true) value ->
  Forall (fun c => is_dot c = true) tl ->
  find_first (str "-->") tl = None ->
  at_line_end post ->
  k (tl ++ post) ((2, value) :: (1, c :: name) :: caps) = Some x ->
  rmatch (Seq (Group 1 (Plus (Char is_letter)))
            (Seq (lit false ":")
               (Seq (Group 2 (Star (Char is_dot))) (Seq (lit false "-->") Empty))))
    (c :: name ++ str ":" ++ value ++ str "-->" ++ tl ++ post) caps k = Some x.
Proof.
  intros Hc Hname Hvalue Htl Hnone Hpost Hk.
  rewrite rmatch_seq, rmatch_group. unfold Plus.
  rewrite rmatch_seq, rmatch_char, Hc, rmatch_star.
  rewrite star_run; [| exact Hname | reflexivity | rewrite length_app; lia].
  apply backoff_first.
  change (c :: name ++ str ":" ++ value ++ str "-->" ++ tl ++ post)
    with ((c :: name) ++ (str ":" ++ value ++ str "-->" ++ tl ++ post)).
  rewrite take_front.
  rewrite rmatch_seq, rmatch_lit_app.
  rewrite rmatch_seq, rmatch_group, rmatch_star.
  change (str "-->" ++ tl ++ post) with (("-"%char :: str "->" ++ tl) ++ post).
  rewrite (app_assoc value ("-"%char :: str "->" ++ tl) post).
  rewrite star_run;
    [| apply Forall_app; split; [exact Hvalue |];
       constructor; [reflexivity |]; apply Forall_app; split; [repeat constructor | exact Htl]
     | exact Hpost | rewrite !length_app; lia].
  rewrite backoff_app, backoff_head, backoff_none.
  - rewrite rmatch_seq.
    change ("-"%char :: (str "->" ++ tl) ++ post) with (str "-->" ++ tl ++ post).
    rewrite rmatch_lit_app, rmatch_empty.
    rewrite <- (app_assoc value ("-"%char :: str "->" ++ tl) post).
    change (("-"%char :: str "->" ++ tl) ++ post) with (str "-->" ++ tl ++ post).
    rewrite take_front, Hk. reflexivity.
  - intros n. rewrite rmatch_seq, rmatch_lit.
    rewrite no_close_behind_mark by assumption. reflexivity.
Qed.

Lemma match_here_greedy index s name value rest :
  greedy_directive_at s name value rest ->
  exists m,
    match_here commentMeta index s = Some m /\
    group 1 m = name /\ group 2 m = value /\ m_rest m = rest.
Proof.
  intros (blank & tl & post & -> & -> & Hblank & Hne & Hname & Hvalue & Htl & Hnone & Hpost).
  destruct name as [|c name]; [contradiction |].
  apply Forall_cons in Hname as [Hc Hname].
  assert (Hrun : rmatch commentMeta
                   (str "<!--" ++ blank ++ (c :: name) ++ str ":" ++ value ++
                    str "-->" ++ tl ++ post) []
                   (fun s' caps => Some (s', caps)) =
                 Some (tl ++ post, [(2, value); (1, c :: name)])).
  { unfold commentMeta, seqs. simpl foldr.
    rewrite rmatch_seq, rmatch_lit_app.
    rewrite rmatch_seq, rmatch_opt_lit by discriminate.
    destruct Hblank as [-> | ->].
    - rewrite app_nil_l. change (str " ") with [" "%char].
      change ((c :: name) ++ ?l) with (c :: name ++ l).
      cbn [starts_with]. rewrite (letter_not_blank c Hc). cbn [andb].
      apply directive_body_greedy; auto.
    - rewrite starts_with_app, drop_app_length.
      change ((c :: name) ++ ?l) with (c :: name ++ l).
      rewrite (directive_body_greedy _ c name value tl post [] _ Hc Hname Hvalue Htl
                 Hnone Hpost eq_refl).
      reflexivity. }
  unfold match_here. rewrite Hrun. eexists. split; [reflexivity |]. auto.
Qed.

(** ** The leftmost match *)

Lemma exec_at r :
  forall off s index m,
    off <= length s ->
    (forall i, i < off -> match_here r (index + i) (drop i s) = None) ->
    match_here r (index + off) (drop off s) = Some m ->
    exec r index s = Some m.
Proof.
  induction off as [|off IH]; intros s index m Hlen Hnone Hm.
  - rewrite Nat.add_0_r in Hm. apply exec_here. exact Hm.
  - destruct s as [|c s]; [simpl in Hlen; lia |].
    simpl exec. pose proof (Hnone 0 ltac:(lia)) as H0.
    rewrite Nat.add_0_r in H0. simpl drop in H0. rewrite H0.
    apply (IH s (S index) m); [simpl in Hlen; lia | |].
    + intros i Hi. specialize (Hnone (S i) ltac:(lia)).
      replace (S index + i) with (index + S i) by lia. exact Hnone.
    + replace (S index + off) with (index + S off) by lia. exact Hm.
Qed.

Lemma exec_leftmost r :
  forall s index m,
    exec r index s = Some m ->
    exists off,
      off <= length s /\
      match_here r (index + off) (drop off s) = Some m /\
      forall i, i < off -> match_here r (index + i) (drop i s) = None.
Proof.
  induction s as [|c s IH]; intros index m Hrun; simpl in Hrun.
  - destruct (match_here r index []) eqn:E; [| discriminate].
    injection Hrun as ->. exists 0. rewrite Nat.add_0_r. split; [reflexivity |].
    split; [exact E | intros; lia].
  - destruct (match_here r index (c :: s)) eqn:E.
    + injection Hrun as ->. exists 0. rewrite Nat.add_0_r. split; [simpl; lia |].
      split; [exact E | intros; lia].
    + apply IH in Hrun as (off & Hlen & Hm & Hnone).
      exists (S off). split; [simpl; lia |]. split.
      * replace (index + S off) with (S index + off) by lia. exact Hm.
      * intros [|i] Hi; [rewrite Nat.add_0_r; exact E |].
        replace (index + S i) with (S index + i) by lia. apply Hnone. lia.
Qed.

(** The pattern matches at the front of a text exactly when a directive
    stands there. *)
Lemma match_here_none index s :
  match_here commentMeta index s = None <->
  forall name value rest, ~ directive_at s name value rest.
Proof.
  split.
  - intros Hnone name value rest Hd.
    destruct (directive_at_matches _ _ _ _ Hd) as [caps' Hm].
    destruct (match_here_complete commentMeta index _ _ _ Hm) as [m Hsome].
    rewrite Hsome in Hnone. discriminate.
  - intros Hno. destruct (match_here commentMeta index s) as [m|] eqn:E; [| reflexivity].
    apply match_here_commentMeta in E as (Hd & _). destruct (Hno _ _ _ Hd).
Qed.

Lemma greedy_directive_shorter s name value rest :
  greedy_directive_at s name value rest -> length rest < length s.
Proof.
  intros (blank & tl & post & -> & -> & _). rewrite !length_app.
  change (length (str "<!--")) with 4. lia.
Qed.

Lemma greedy_is_directive s name value rest :
  greedy_directive_at s name value rest -> directive_at s name value rest.
Proof.
  intros (blank & tl & post & -> & -> & Hblank & Hne & Hname & Hvalue & _).
  exists blank. auto.
Qed.

(** ** The scan and the loop *)

(** A scan of the text gives what the loop returns. *)
Lemma scanned_sound s entries :
  scanned s entries ->
  forall fuel results,
    length s < fuel ->
    parseMeta_loop fuel s results = Ret (fold_left set_entry entries results).
Proof.
  induction 1 as [s Hno|s offset name value rest entries Hbefore Hg _ IH];
    intros fuel results Hfuel; (destruct fuel as [|fuel]; [lia |]);
    rewrite parseMeta_loop_step.
  - destruct (exec commentMeta 0 s) as [m|] eqn:E; [| reflexivity].
    destruct (exec_commentMeta _ _ _ E) as (off & front & Hd & _).
    destruct (Hno (group 1 m) (group 2 m)). exists off, (m_rest m). exact Hd.
  - destruct (match_here_greedy (0 + offset) _ _ _ _ Hg) as (m & Hm & H1 & H2 & Hrest).
    pose proof (greedy_directive_shorter _ _ _ _ Hg) as Hshort.
    rewrite length_drop in Hshort.
    rewrite (exec_at commentMeta offset s 0 m); [| lia | | exact Hm].
    + rewrite H1, H2, Hrest. apply IH. lia.
    + intros i Hi. apply match_here_none. intros n v r. apply Hbefore. exact Hi.
Qed.

(** Every text has a scan. *)
Lemma scanned_exists :
  forall n s, length s <= n -> exists entries, scanned s entries.
Proof.
  induction n as [|n IH]; intros s Hn.
  - exists []. apply scanned_end. intros name value (off & rest & Hd).
    destruct s; [| simpl in Hn; lia]. rewrite drop_nil in Hd.
    exact (directive_at_nil _ _ _ Hd).
  - destruct (exec commentMeta 0 s) as [m|] eqn:E.
    + apply exec_leftmost in E as (off & Hlen & Hm & Hnone).
      apply match_here_commentMeta in Hm as (Hd & _).
      destruct (directive_at_greedy _ _ _ _ Hd) as (value & rest & Hg).
      pose proof (greedy_directive_shorter _ _ _ _ Hg) as Hshort.
      rewrite length_drop in Hshort.
      destruct (IH rest ltac:(lia)) as [entries Hrest].
      eexists. eapply scanned_more; [| exact Hg | exact Hrest].
      intros i n0 v r Hi. apply (proj1 (match_here_none (0 + i) (drop i s))).
      apply Hnone. exact Hi.
    + exists []. apply scanned_end. intros name value Hin.
      destruct (exec_directive_in _ _ _ 0 Hin) as [m Hm]. rewrite Hm in E. discriminate.
Qed.

(** ** Directives do not cross line ends *)

Lemma directive_text_dots blank name value :
  (blank = [] \/ blank = str " ") ->
  Forall (fun c => is_letter c = true) name ->
  Forall (fun c => is_dot c = true) value ->
  Forall (fun c => is_dot c = true) (directive_text blank name value).
Proof.
  intros Hblank Hname Hvalue. unfold directive_text.
  repeat (apply Forall_app; split); try (repeat constructor; fail); try assumption.
  - destruct Hblank as [-> | ->]; repeat constructor.
  - eapply Forall_impl; [exact Hname |]. intros c. apply letter_is_dot.
Qed.

Lemma last_Forall {A} (P : A -> Prop) (l : list A) c :
  Forall P l -> last l = Some c -> P c.
Proof.
  intros Hall Hlast. apply last_Some in Hlast as [l' ->].
  apply Forall_app in Hall as [_ Hall]. inversion Hall. assumption.
Qed.

Lemma last_app_ne {A} (l1 l2 : list A) : l2 <> [] -> last (l1 ++ l2) = last l2.
Proof.
  intros Hne. rewrite last_app. destruct (last l2) eqn:El; [reflexivity |].
  apply last_None in El. contradiction.
Qed.

(** A directive that begins in front of a line terminator ends in front
    of it. *)
Lemma directive_within u t s' name value rest :
  is_dot t = false ->
  directive_at ((u ++ [t]) ++ s') name value rest ->
  exists rest', directive_at (u ++ [t]) name value rest' /\ rest = rest' ++ s'.
Proof.
  intros Ht (blank & E & Hblank & Hne & Hname & Hvalue).
  pose proof (directive_text_dots blank name value Hblank Hname Hvalue) as Hdots.
  rewrite <- directive_text_app in E.
  apply List.app_eq_app in E as [l [[Hu Hr]|[Hd Hs]]].
  - exists l. split; [| exact Hr].
    exists blank. rewrite <- directive_text_app. auto.
  - rewrite Hd in Hdots. apply Forall_app in Hdots as [Hdots _].
    assert (Hdot : is_dot t = true).
    { apply (last_Forall (fun c => is_dot c = true) (u ++ [t])); [exact Hdots |].
      apply last_snoc. }
    rewrite Hdot in Ht. discriminate.
Qed.

Lemma line_start_drop pre i :
  at_line_start pre -> i < length pre ->
  exists u t, drop i pre = u ++ [t] /\ is_dot t = false.
Proof.
  intros Hstart Hi. destruct pre as [|c pre _] using rev_ind; [simpl in Hi; lia |].
  unfold at_line_start in Hstart. rewrite last_snoc in Hstart.
  rewrite length_app in Hi. simpl in Hi.
  exists (drop i pre), c. split; [| exact Hstart].
  rewrite drop_app_le by lia. reflexivity.
Qed.

Lemma directive_before_line_end pre s' i name value rest :
  at_line_start pre -> i < length pre ->
  directive_at (drop i (pre ++ s')) name value rest ->
  exists rest', directive_at (drop i pre) name value rest' /\ rest = rest' ++ s'.
Proof.
  intros Hstart Hi Hd.
  destruct (line_start_drop pre i Hstart Hi) as (u & t & Hu & Ht).
  rewrite drop_app_le, Hu in Hd by lia. rewrite Hu.
  apply directive_within; assumption.
Qed.

Lemma drop_behind {A} (pre s' : list A) i :
  length pre <= i -> drop i (pre ++ s') = drop (i - length pre) s'.
Proof. intros Hi. rewrite drop_app_ge by exact Hi. reflexivity. Qed.

(** The text in front of a line without directive adds nothing to a scan. *)
Lemma scanned_behind_plain pre s' es :
  at_line_start pre ->
  (forall name value, ~ directive_in pre name value) ->
  scanned s' es -> scanned (pre ++ s') es.
Proof.
  intros Hstart Hno Hs.
  assert (Hpre : forall i name value rest,
             i < length pre -> ~ directive_at (drop i (pre ++ s')) name value rest).
  { intros i name value rest Hi Hd.
    destruct (directive_before_line_end _ _ _ _ _ _ Hstart Hi Hd) as (rest' & Hd' & _).
    apply (Hno name value). exists i, rest'. exact Hd'. }
  destruct Hs as [s' Hnone|s' offset name value rest entries Hbefore Hg Hrest].
  - apply scanned_end. intros name value (i & rest & Hd).
    destruct (le_lt_dec (length pre) i) as [Hge|Hlt]; [| exact (Hpre _ _ _ _ Hlt Hd)].
    rewrite drop_behind in Hd by exact Hge.
    apply (Hnone name value). exists (i - length pre), rest. exact Hd.
  - apply (scanned_more _ (length pre + offset) name value rest entries).
    + intros i n v r Hi Hd.
      destruct (le_lt_dec (length pre) i) as [Hge|Hlt]; [| exact (Hpre _ _ _ _ Hlt Hd)].
      rewrite drop_behind in Hd by exact Hge.
      apply (Hbefore (i - length pre) n v r); [lia | exact Hd].
    + rewrite drop_behind by lia.
      replace (length pre + offset - length pre) with offset by lia. exact Hg.
    + exact Hrest.
Qed.

(** A directive found in a text made of whole lines has a line
    terminator behind it, and what is behind it is made of whole lines. *)
Lemma greedy_directive_line pre offset name value rest :
  at_line_start pre ->
  greedy_directive_at (drop offset pre) name value rest ->
  offset < length pre /\ at_line_start rest /\
  forall s', greedy_directive_at (drop offset pre ++ s') name value (rest ++ s').
Proof.
  intros Hstart (blank & tl & post & E & -> & Hblank & Hne & Hname & Hvalue & Htl
                 & Hnone & Hpost).
  pose proof (directive_text_dots blank name value Hblank Hname Hvalue) as Hdots.
  rewrite <- directive_text_app in E.
  assert (Hoff : offset < length pre).
  { destruct (le_lt_dec (length pre) offset) as [Hge|]; [| assumption].
    rewrite drop_ge in E by exact Hge. apply (f_equal length) in E.
    unfold directive_text in E. rewrite !length_app in E. simpl in E. lia. }
  assert (Hlast : last (drop offset pre) = last pre).
  { rewrite <- (take_drop offset pre) at 2. symmetry. apply last_app_ne.
    intros Hnil. rewrite length_zero_iff_nil in Hnil || idtac.
    apply (f_equal length) in Hnil. rewrite length_drop in Hnil. simpl in Hnil. lia. }
  assert (Hpost' : post <> []).
  { intros ->. rewrite app_nil_r in E.
    assert (Hall : Forall (fun c => is_dot c = true) (drop offset pre)).
    { rewrite E. apply Forall_app. split; assumption. }
    unfold at_line_start in Hstart. rewrite <- Hlast in Hstart.
    destruct (last (drop offset pre)) as [c|] eqn:El.
    - pose proof (last_Forall _ _ _ Hall El) as Hdot. simpl in Hdot.
      rewrite Hdot in Hstart. discriminate.
    - apply last_None in El. apply (f_equal length) in El.
      rewrite length_drop in El. simpl in El. lia. }
  split; [exact Hoff |]. split.
  - unfold at_line_start in *. rewrite last_app_ne by exact Hpost'.
    rewrite <- Hlast, E in Hstart.
    rewrite last_app_ne, last_app_ne in Hstart; [exact Hstart | exact Hpost' |].
    intros Hnil. apply app_eq_nil in Hnil as [_ Hnil]. contradiction.
  - intros s'. rewrite E. exists blank, tl, (post ++ s'). split; [| split].
    + rewrite <- directive_text_app. rewrite <- !app_assoc. reflexivity.
    + rewrite <- app_assoc. reflexivity.
    + repeat (split; [assumption |]).
      destruct post as [|c0 post]; [contradiction | exact Hpost].
Qed.

(** The scan of a text made of whole lines and of a text behind them is
    the scan of the lines followed by the scan of what is behind. *)
Lemma scanned_app pre before :
  scanned pre before ->
  at_line_start pre ->
  forall s' es, scanned s' es -> scanned (pre ++ s') (before ++ es).
Proof.
  induction 1 as [pre Hno|pre offset name value rest entries Hbefore Hg _ IH];
    intros Hstart s' es Hs.
  - apply scanned_behind_plain; assumption.
  - destruct (greedy_directive_line _ _ _ _ _ Hstart Hg) as (Hoff & Hrest & Hmore).
    simpl app. apply (scanned_more _ offset name value (rest ++ s')).
    + intros i n v r Hi Hd.
      assert (Hi' : i < length pre) by lia.
      destruct (directive_before_line_end _ _ _ _ _ _ Hstart Hi' Hd)
        as (rest' & Hd' & _).
      exact (Hbefore i n v rest' Hi Hd').
    + rewrite drop_app_le by lia. apply Hmore.
    + apply IH; [exact Hrest | exact Hs].
Qed.

(** ** The entries of a scan *)

Lemma fold_set_entry_other (l : list (string * string)) key :
  Forall (fun e => e.1 <> key) l ->
  forall results : gmap string string,
    fold_left set_entry l results !! key = results !! key.
Proof.
  induction 1 as [|e l He _ IH]; intros results; [reflexivity |].
  simpl. rewrite IH. unfold set_entry. apply lookup_insert_ne. exact He.
Qed.

Lemma fold_set_entry_last (before after : list (string * string)) key value
    (results : gmap string string) :
  Forall (fun e => e.1 <> key) after ->
  fold_left set_entry (before ++ (key, value) :: after) results !! key = Some value.
Proof.
  intros Hafter. rewrite fold_left_app. simpl.
  rewrite fold_set_entry_other by exact Hafter.
  unfold set_entry. simpl. apply lookup_insert_eq.
Qed.

(** ** The scan of a text is one *)

Lemma scanned_none s : exec commentMeta 0 s = None -> scanned s [].
Proof.
  intros Hnone. apply scanned_end. intros name value Hin.
  destruct (exec_directive_in _ _ _ 0 Hin) as [m Hm]. rewrite Hm in Hnone. discriminate.
Qed.

Lemma greedy_directive_one s name1 value1 rest1 name2 value2 rest2 :
  greedy_directive_at s name1 value1 rest1 ->
  greedy_directive_at s name2 value2 rest2 ->
  name1 = name2 /\ value1 = value2 /\ rest1 = rest2.
Proof.
  intros H1 H2.
  destruct (match_here_greedy 0 _ _ _ _ H1) as (m1 & Hm1 & <- & <- & <-).
  destruct (match_here_greedy 0 _ _ _ _ H2) as (m2 & Hm2 & <- & <- & <-).
  rewrite Hm1 in Hm2. injection Hm2 as ->. auto.
Qed.

Lemma scanned_unique s entries1 :
  scanned s entries1 -> forall entries2, scanned s entries2 -> entries1 = entries2.
Proof.
  induction 1 as [s Hno|s off1 name1 value1 rest1 entries1 Hbefore1 Hg1 _ IH];
    intros entries2 H2.
  - destruct H2 as [s _|s off2 name2 value2 rest2 entries2 _ Hg2 _]; [reflexivity |].
    destruct (Hno name2 value2). exists off2, rest2. apply greedy_is_directive. exact Hg2.
  - destruct H2 as [s Hno|s off2 name2 value2 rest2 entries2 Hbefore2 Hg2 Hrest2].
    + destruct (Hno name1 value1). exists off1, rest1. apply greedy_is_directive. exact Hg1.
    + assert (Hoff : off1 = off2).
      { destruct (lt_eq_lt_dec off1 off2) as [[Hlt|Heq]|Hgt]; [| exact Heq |].
        - destruct (Hbefore2 off1 name1 value1 rest1 Hlt). apply greedy_is_directive.
          exact Hg1.
        - destruct (Hbefore1 off2 name2 value2 rest2 Hgt). apply greedy_is_directive.
          exact Hg2. }
      subst off2.
      destruct (greedy_directive_one _ _ _ _ _ _ _ Hg1 Hg2) as (-> & -> & ->).
      f_equal. apply IH. exact Hrest2.
Qed.

(** ** A directive on its line *)

(** The entry of a directive in front of which, on its line, no directive
    begins, and behind which, on its line, no closing mark stands. *)
Lemma scanned_directive pre head blank name value tl post before after :
  at_line_start pre ->
  no_directive_before (length head) (head ++ directive_text blank name value ++ tl ++ post) ->
  readable (blank, name, value) ->
  Forall (fun c => is_dot c = true) tl ->
  find_first (str "-->") tl = None ->
  at_line_end post ->
  scanned pre before ->
  scanned (tl ++ post) after ->
  scanned (pre ++ head ++ directive_text blank name value ++ tl ++ post)
    (before ++ (unstr (toLower name), unstr (trim value)) :: after).
Proof.
  intros Hstart Hhead (Hblank & Hne & Hname & Hvalue) Htl Hnone Hpost Hbefore Hafter.
  apply scanned_app; [exact Hbefore | exact Hstart |].
  apply (scanned_more _ (length head) name value (tl ++ post) after);
    [exact Hhead | | exact Hafter].
  rewrite drop_app_length. exists blank, tl, post.
  split; [apply directive_text_app |]. simpl in *. auto 10.
Qed.
(** * Properties of the outline builder *)

(** C1: the flat list A (level 1), B (level 2), C (level 3), D (level 2),
    built with the default start level, gives one root A whose children are
    B, with the single child C, and D; whatever the anchors are. *)
Theorem example_outline (aA aB aC aD : string) :
  buildTreeFlatArray
    [mkHeading "A" aA 1; mkHeading "B" aB 2; mkHeading "C" aC 3; mkHeading "D" aD 2]
    None None =
  Ret ([mkNode "A" aA [mkNode "B" aB [mkNode "C" aC []]; mkNode "D" aD []]], 4).
Proof. reflexivity. Qed.

(** C2: a list that opens with a level-2 heading makes the builder, called
    with its default level, throw a TypeError: the deeper subtree is built
    and then assigned to the last node of an empty tree.  [parseTree]
    passes the exception on. *)
Theorem orphan_heading_throws (c a : string) :
  buildTreeFlatArray [mkHeading c a 2] None None = Throw TypeError /\
  parseTree [mkHeading c a 2] = Throw TypeError.
Proof. split; reflexivity. Qed.

(** C3: on a well-formed outline the builder returns a forest whose
    depth-first flattening is the list of the records' contents and
    anchors, in source order, and the cursor ends behind the last record. *)
Theorem flatten_reproduces_source {T} (array : list (Heading T)) (requestedLevel : option nat) :
  well_formed (or_default requestedLevel 1) (level <$> array) = true ->
  exists forest,
    buildTreeFlatArray array requestedLevel None = Ret (forest, length array) /\
    flatten_forest forest = payload <$> array.
Proof.
  intros Hwf. destruct array as [|h0 rest]; [exists []; split; reflexivity |].
  simpl in Hwf. apply andb_true_iff in Hwf as [Hstart Hwf].
  apply Nat.eqb_eq in Hstart.
  pose proof (buildTreeFlatArray_finished (h0 :: rest) requestedLevel None) as Hfin.
  unfold finished, buildTreeFlatArray in Hfin |- *.
  replace (3 * length (h0 :: rest) + 2) with (S (S (3 * length (h0 :: rest)))) in * by lia.
  change (buildTreeFlatArray_fuel (S (S ?f)) ?arr requestedLevel None)
    with (while_loop (S f) arr (or_default requestedLevel 1) [] 0) in *.
  rewrite (while_loop_push _ (h0 :: rest) _ [] 0 h0 eq_refl Hstart) in *.
  destruct (while_loop_flatten (h0 :: rest) (or_default requestedLevel 1) []
              (3 * length (h0 :: rest)) [] (content h0) (anchor h0) [] 1 Hwf
              (or_introl eq_refl))
    as [Hout|(forest & j & seg & Hrun & Hseg & Hflat & Hwf' & Hnext)];
    [rewrite app_nil_l in Hout; contradiction |].
  rewrite app_nil_l in Hrun.
  destruct (while_loop_runs (h0 :: rest) (length rest) (3 * length (h0 :: rest))
              (or_default requestedLevel 1) [mkNode (content h0) (anchor h0) []] 1)
    as [(t & j0 & Hrun0 & Hj0 & _ & Hb)|[Hnil _]];
    [simpl; lia | simpl; lia | | discriminate].
  rewrite Hrun in Hrun0. injection Hrun0 as <- <-.
  assert (Hend : (h0 :: rest) !! j = None).
  { destruct ((h0 :: rest) !! j) as [cur|] eqn:E; [| reflexivity].
    rewrite (drop_S _ _ _ E), fmap_cons in Hwf'.
    rewrite (wf_from_bottom _ _ _ (Hnext _ eq_refl)) in Hwf'. discriminate. }
  apply lookup_ge_None in Hend. simpl in Hend, Hb.
  assert (j = S (length rest)) as -> by lia.
  exists forest. split; [exact Hrun |].
  rewrite Hflat. simpl in Hseg. rewrite drop_all, app_nil_r in Hseg. subst seg.
  reflexivity.
Qed.

Lemma flatten_reproduces_source_witness :
  well_formed 1 (level <$> sample_outline) = true /\
  exists forest,
    buildTreeFlatArray sample_outline None None = Ret (forest, 4) /\
    flatten_forest forest = payload <$> sample_outline.
Proof.
  split; [reflexivity |].
  apply (flatten_reproduces_source sample_outline None). reflexivity.
Defined.

(** C8: whenever the builder returns a forest, the same run on the array
    tagged with positions returns the same forest with every node carrying
    the position of its record, and in it every child of a node comes from
    a later, strictly deeper record, with only strictly deeper records
    between the node's record and the child's. *)
Theorem children_deeper_and_contiguous {T} (array : list (Heading T))
    (requestedLevel startFrom : option nat) forest next :
  buildTreeFlatArray array requestedLevel startFrom = Ret (forest, next) ->
  exists traced,
    buildTreeFlatArray (tag_positions array) requestedLevel startFrom = Ret (traced, next) /\
    forest = map (node_map snd) traced /\
    Forall (traced_ok array) traced.
Proof.
  intros Hrun.
  pose proof (buildTreeFlatArray_map (@snd nat T) (tag_positions array)
                requestedLevel startFrom) as Hmap.
  rewrite tag_positions_erase, Hrun in Hmap.
  destruct (buildTreeFlatArray (tag_positions array) requestedLevel startFrom)
    as [[traced next']| |] eqn:Et; try discriminate.
  injection Hmap as -> ->. exists traced. split; [reflexivity |]. split; [reflexivity |].
  unfold buildTreeFlatArray in Et.
  replace (3 * length (tag_positions array) + 2)
    with (S (3 * length (tag_positions array) + 1)) in Et by lia.
  change (buildTreeFlatArray_fuel (S ?f) ?arr requestedLevel startFrom)
    with (while_loop f arr (or_default requestedLevel 1) [] (or_default startFrom 0)) in Et.
  apply (while_loop_traced array _ _ _ (or_default startFrom 0)) in Et as [(Hall & _) _].
  - eapply Forall_impl; [exact Hall |]. simpl. tauto.
  - lia.
  - repeat split; [constructor | intros; lia | discriminate].
Qed.

Lemma children_deeper_and_contiguous_witness :
  exists traced,
    buildTreeFlatArray (tag_positions sample_outline) None None = Ret (traced, 4) /\
    [mkNode "A" "a" [mkNode "B" "b" [mkNode "C" "c" []]; mkNode "D" "d" []]] =
      map (node_map snd) traced /\
    Forall (traced_ok sample_outline) traced.
Proof.
  apply (children_deeper_and_contiguous sample_outline None None). reflexivity.
Defined.

(** C10: the builder ends on every array, level and start index, with a
    value or an exception; more fuel never changes the answer; and the
    recursive call made on a record deeper than the requested level
    returns with the cursor moved past that record. *)
Theorem buildTreeFlatArray_terminates {T} (array : list (Heading T))
    (requestedLevel startFrom : option nat) :
  finished (buildTreeFlatArray array requestedLevel startFrom) /\
  (forall fuel, 3 * length array + 2 <= fuel ->
     buildTreeFlatArray_fuel fuel array requestedLevel startFrom =
     buildTreeFlatArray array requestedLevel startFrom) /\
  (forall index currentNode,
     array !! index = Some currentNode ->
     or_default requestedLevel 1 < level currentNode ->
     exists nextLevelTree next,
       buildTreeFlatArray array (Some (level currentNode)) (Some index) =
         Ret (nextLevelTree, next) /\
       index < next <= length array).
Proof.
  split; [apply buildTreeFlatArray_finished |]. split.
  - intros fuel Hfuel. apply fuel_more; [assumption |].
    apply buildTreeFlatArray_finished.
  - intros index cur E Hgt. apply recursive_call_advances; [assumption | lia].
Qed.

Lemma buildTreeFlatArray_terminates_witness :
  exists nextLevelTree next,
    buildTreeFlatArray sample_outline (Some 2) (Some 1) = Ret (nextLevelTree, next) /\
    1 < next <= 4.
Proof.
  apply (proj2 (proj2 (buildTreeFlatArray_terminates sample_outline None None))
           1 (mkHeading "B" "b" 2)); [reflexivity | simpl; lia].
Defined.

(** C6: [parseTree] drops every record deeper than level 3 before it
    builds the tree: each node of the outline carries the content and
    anchor of a record of level at most 3, and records deeper than level 3,
    wherever they stand in the array, change nothing in the answer. *)
Theorem deep_headings_excluded {T} (tocArray : list (Heading T)) :
  (forall tree p,
     parseTree tocArray = Ret tree -> In p (flatten_forest tree) ->
     exists h, In h tocArray /\ level h <= 3 /\ payload h = p) /\
  (forall pre deep post,
     tocArray = pre ++ deep ++ post -> Forall (fun h => 3 < level h) deep ->
     parseTree tocArray = parseTree (pre ++ post)).
Proof.
  split.
  - intros tree p Hrun Hin. unfold parseTree in Hrun.
    destruct (buildTreeFlatArray _ None None) as [[forest next]| |] eqn:Eb;
      try discriminate.
    injection Hrun as <-. simpl in Hin.
    unfold buildTreeFlatArray in Eb.
    match type of Eb with
    | buildTreeFlatArray_fuel ?f _ _ _ = _ => replace f with (S (f - 1)) in Eb by lia
    end.
    change (buildTreeFlatArray_fuel (S ?f) ?arr None None)
      with (while_loop f arr 1 [] 0) in Eb.
    destruct (while_loop_payloads _ _ _ _ _ _ _ p Eb Hin) as [[]|(h & Hh & Hp)].
    apply filter_In in Hh as [Hh Hlvl]. exists h. split; [assumption |].
    split; [| assumption].
    apply negb_true_iff in Hlvl. apply Nat.ltb_ge in Hlvl. exact Hlvl.
  - intros pre deep post -> Hdeep. unfold parseTree.
    rewrite !List.filter_app.
    replace (List.filter (fun n => negb (3 <? level n)) deep) with (@nil (Heading T));
      [reflexivity |].
    induction Hdeep as [|h deep Hh _ IH]; [reflexivity |].
    simpl. destruct (Nat.ltb_spec 3 (level h)); [exact IH | lia].
Qed.

Lemma deep_headings_excluded_witness :
  parseTree (sample_outline ++ [mkHeading "E" "e" 4] ++ [mkHeading "F" "f" 1]) =
  parseTree (sample_outline ++ [mkHeading "F" "f" 1]).
Proof.
  apply (proj2 (deep_headings_excluded
                  (sample_outline ++ [mkHeading "E" "e" 4] ++ [mkHeading "F" "f" 1]))
           sample_outline [mkHeading "E" "e" 4] [mkHeading "F" "f" 1]);
    [reflexivity |].
  constructor; [simpl; lia | constructor].
Defined.

(** * Properties of the content transformer *)



(** C5: a link with the class [youtube] and no [href] makes the transform
    throw a TypeError, whatever the parser: [attr] gives [undefined], on
    which [match] is called. *)
Theorem missing_href_throws (parseHTML : string -> list DomNode) :
  parseContent parseHTML [Tag "p" [] [Tag "a" [("class", "youtube")] [Text "video"]]] =
  Throw TypeError.
Proof. reflexivity. Qed.

(** C7: the youtube rule on a link to [https://youtu.be/abc123].  The
    pattern matches [youtu.be/abc123] with [abc123] as its group, the last
    non-empty entry of the match array is [abc123], and the link is
    replaced by what the parser makes of the template with
    [https://www.youtube.com/embed/abc123?rel=0] as its [src]. *)
Theorem youtube_link_embedded (parseHTML : string -> list DomNode)
    (attribs : list (string * string)) (children : list DomNode) :
  hasClass "youtube" attribs = true ->
  attr "href" attribs = Some "https://youtu.be/abc123" ->
  Forall (fun ch => isTag ch = false) children ->
  string_match (str "https://youtu.be/abc123") youtube_regexp =
    Some [Some (str "youtu.be/abc123"); Some (str "abc123")] /\
  originLink youtube_rule (Some "https://youtu.be/abc123") = Ret (Some (str "abc123")) /\
  embed_node parseHTML youtube_rule (Tag "a" attribs children) =
    Ret (parseHTML
           ("<iframe width=" +:+ dq +:+ "640" +:+ dq +:+ " height=" +:+ dq +:+ "360" +:+ dq
            +:+ " src=" +:+ dq +:+ "https://www.youtube.com/embed/abc123?rel=0" +:+ dq
            +:+ " frameborder=" +:+ dq +:+ "0" +:+ dq +:+ " allowfullscreen></iframe>")).
Proof.
  intros Hclass Hhref Hleaves.
  split; [reflexivity |]. split; [reflexivity |].
  change (embed_node parseHTML youtube_rule (Tag "a" attribs children))
    with (if String.eqb "a" "a" && hasClass "youtube" attribs
          then bind (originLink youtube_rule (attr "href" attribs)) (fun link =>
               bind (sequence (map (embed_node parseHTML youtube_rule) children)) (fun _ =>
               Ret (parseHTML (processedLink youtube_rule link))))
          else bind (sequence (map (embed_node parseHTML youtube_rule) children))
                 (fun children' => Ret [Tag "a" attribs (concat children')])).
  rewrite Hclass, Hhref, (sequence_leaves _ _ _ Hleaves). reflexivity.
Qed.

Lemma youtube_link_embedded_witness :
  embed_node (fun s => [Text s]) youtube_rule
    (Tag "a" [("class", "youtube"); ("href", "https://youtu.be/abc123")] [Text "video"]) =
  Ret [Text
         ("<iframe width=" +:+ dq +:+ "640" +:+ dq +:+ " height=" +:+ dq +:+ "360" +:+ dq
          +:+ " src=" +:+ dq +:+ "https://www.youtube.com/embed/abc123?rel=0" +:+ dq
          +:+ " frameborder=" +:+ dq +:+ "0" +:+ dq +:+ " allowfullscreen></iframe>")].
Proof.
  apply (youtube_link_embedded (fun s => [Text s])
           [("class", "youtube"); ("href", "https://youtu.be/abc123")] [Text "video"]);
    [reflexivity | reflexivity | repeat constructor].
Defined.

(** * Properties of parseMeta *)

(** C9, as it is stated, fails: with a second comment on the line of the
    directive the value of [title] is not [Hello World]; the greedy [.]
    of the pattern runs on to the last closing mark of the line, and the
    second directive gets no entry. *)
Lemma greedy_value_counterexample :
  parseMeta "<!-- title: Hello World --> <!-- subtitle: x -->" =
  Ret {[ "title" := "Hello World --> <!-- subtitle: x" ]}.
Proof. vm_compute. reflexivity. Qed.

(** C9, amended: [parseMeta] returns on every input the object filled,
    from left to right, with the entries of the scan of the input, a
    later entry replacing an earlier one of the same key.  Every text has
    one scan.  The scan takes the leftmost directive of the text: an
    opening mark, at most one blank, a name made of letters, a colon and
    a value that runs to the last closing mark of its line; it enters the
    lower-case name with the trimmed value and goes on behind that
    closing mark.  So a directive in front of which no directive begins
    on its line, and behind which no closing mark stands on its line,
    gives its own entry between the entries of the lines in front and the
    entries of what is behind it; and [<!-- title: Hello World -->] at
    such a place gives the entry [title] with the value [Hello World],
    which the result holds unless a later entry has the key [title]. *)
Theorem parseMeta_directives (content : string) :
  (exists entries, scanned (str content) entries) /\
  (forall entries1 entries2,
      scanned (str content) entries1 -> scanned (str content) entries2 ->
      entries1 = entries2) /\
  (forall entries,
      scanned (str content) entries ->
      parseMeta content = Ret (fold_left set_entry entries ∅)) /\
  (forall pre head blank name value tl post before after,
      str content = pre ++ head ++ directive_text blank name value ++ tl ++ post ->
      at_line_start pre ->
      no_directive_before (length head)
        (head ++ directive_text blank name value ++ tl ++ post) ->
      readable (blank, name, value) ->
      Forall (fun c => is_dot c = true) tl ->
      find_first (str "-->") tl = None ->
      at_line_end post ->
      scanned pre before ->
      scanned (tl ++ post) after ->
      parseMeta content =
      Ret (fold_left set_entry
             (before ++ (unstr (toLower name), unstr (trim value)) :: after) ∅)) /\
  (forall pre head tl post before after,
      str content = pre ++ head ++ str title_directive ++ tl ++ post ->
      at_line_start pre ->
      no_directive_before (length head) (head ++ str title_directive ++ tl ++ post) ->
      Forall (fun c => is_dot c = true) tl ->
      find_first (str "-->") tl = None ->
      at_line_end post ->
      scanned pre before ->
      scanned (tl ++ post) after ->
      Forall (fun e => e.1 <> "title") after ->
      exists meta,
        parseMeta content = Ret meta /\ meta !! "title" = Some "Hello World").
Proof.
  assert (Hrun : forall entries,
             scanned (str content) entries ->
             parseMeta content = Ret (fold_left set_entry entries ∅)).
  { intros entries Hscan. unfold parseMeta. apply scanned_sound; [exact Hscan |].
    rewrite str_length. lia. }
  assert (Hone : forall pre head blank name value tl post before after,
             str content = pre ++ head ++ directive_text blank name value ++ tl ++ post ->
             at_line_start pre ->
             no_directive_before (length head)
               (head ++ directive_text blank name value ++ tl ++ post) ->
             readable (blank, name, value) ->
             Forall (fun c => is_dot c = true) tl ->
             find_first (str "-->") tl = None ->
             at_line_end post ->
             scanned pre before ->
             scanned (tl ++ post) after ->
             parseMeta content =
             Ret (fold_left set_entry
                    (before ++ (unstr (toLower name), unstr (trim value)) :: after) ∅)).
  { intros pre head blank name value tl post before after E Hstart Hhead Hread Htl Hnone
           Hpost Hbefore Hafter.
    apply Hrun. rewrite E. apply scanned_directive; assumption. }
  split; [| split; [| split; [| split]]].
  - apply (scanned_exists (length (str content))). reflexivity.
  - intros entries1 entries2 H1 H2. exact (scanned_unique _ _ H1 _ H2).
  - exact Hrun.
  - exact Hone.
  - intros pre head tl post before after E Hstart Hhead Htl Hnone Hpost Hbefore Hafter
           Hlater.
    eexists. split.
    + apply (Hone pre head (str " ") (str "title") (str " Hello World ") tl post
               before after); try assumption.
      unfold readable. simpl. split; [right; reflexivity |]. split; [discriminate |].
      split; repeat constructor.
    + apply (fold_set_entry_last before after "title" "Hello World"). exact Hlater.
Qed.

(** The example on the third line of a page: a directive on the first
    line, text in front of and behind the directive on its line, and a
    further directive on the line behind it. *)
Lemma parseMeta_directives_witness :
  exists meta,
    parseMeta (unstr (str "<!-- Author: Ann -->" ++ [LF] ++ str "# Page" ++ [LF] ++
                      str "see " ++ str title_directive ++ str " here" ++ [LF] ++
                      str "<!--tags:a, b-->")) = Ret meta /\
    meta !! "title" = Some "Hello World".
Proof.
  apply (proj2 (proj2 (proj2 (proj2 (parseMeta_directives _))))
           (str "<!-- Author: Ann -->" ++ [LF] ++ str "# Page" ++ [LF])
           (str "see ") (str " here") ([LF] ++ str "<!--tags:a, b-->")
           [("author", "Ann")] [("tags", "a, b")]).
  - rewrite str_unstr. reflexivity.
  - reflexivity.
  - intros i name value rest Hi.
    apply (proj1 (match_here_none 0 _)).
    do 4 (destruct i as [|i]; [vm_compute; reflexivity |]). simpl in Hi. lia.
  - repeat constructor.
  - reflexivity.
  - reflexivity.
  - apply (scanned_more _ 0 (str "Author") (str " Ann ")
             ([LF] ++ str "# Page" ++ [LF]) []).
    + intros i name value rest Hi. lia.
    + exists (str " "), [], ([LF] ++ str "# Page" ++ [LF]).
      split; [reflexivity |]. split; [reflexivity |]. split; [right; reflexivity |].
      split; [discriminate |]. split; [repeat constructor |].
      split; [repeat constructor |]. split; [constructor |].
      split; reflexivity.
    + apply scanned_none. vm_compute. reflexivity.
  - apply (scanned_more _ 6 (str "tags") (str "a, b") [] []).
    + intros i name value rest Hi.
      apply (proj1 (match_here_none 0 _)).
      do 6 (destruct i as [|i]; [vm_compute; reflexivity |]). lia.
    + exists [], [], [].
      split; [reflexivity |]. split; [reflexivity |]. split; [left; reflexivity |].
      split; [discriminate |]. split; [repeat constructor |].
      split; [repeat constructor |]. split; [constructor |].
      split; [reflexivity | exact I].
    + apply scanned_none. vm_compute. reflexivity.
  - repeat constructor; discriminate.
Defined.

(** * Further properties of the outline builder *)

(** X1: the builder throws exactly when the record under the start index
    is deeper than the requested level, and returns a forest and a cursor
    exactly when there is no record under the start index or that record
    is at the requested level or above it. *)
Theorem builder_throws_iff_orphan {T} (array : list (Heading T))
    (requestedLevel startFrom : option nat) :
  ((exists e, buildTreeFlatArray array requestedLevel startFrom = Throw e) <->
   exists cur,
     array !! or_default startFrom 0 = Some cur /\
     or_default requestedLevel 1 < level cur) /\
  ((exists forest next,
       buildTreeFlatArray array requestedLevel startFrom = Ret (forest, next)) <->
   forall cur,
     array !! (or_default startFrom 0) = Some cur ->
     level cur <= or_default requestedLevel 1).
Proof.
  pose proof (throws_iff_orphan array requestedLevel startFrom) as Hthrow.
  pose proof (buildTreeFlatArray_finished array requestedLevel startFrom) as Hfin.
  split; [exact Hthrow |]. split.
  - intros (forest & next & Hrun) cur E.
    destruct (le_gt_dec (level cur) (or_default requestedLevel 1)) as [Hle|Hgt];
      [exact Hle |].
    destruct (proj2 Hthrow) as [e He]; [eauto |]. rewrite Hrun in He. discriminate.
  - intros Hall.
    destruct (buildTreeFlatArray array requestedLevel startFrom) as [[forest next]|e|] eqn:E.
    + eauto.
    + destruct (proj1 Hthrow) as (cur & Ec & Hgt); [eauto |].
      specialize (Hall _ Ec). lia.
    + destruct Hfin. reflexivity.
Qed.

(** X2: when the builder returns, the records between the start index and
    the returned cursor are all at the requested level or deeper, the roots
    of the forest are those at the requested level, in order, and the
    cursor stands at the end of the array or on a record above the
    requested level. *)
Theorem roots_are_requested_level {T} (array : list (Heading T))
    (requestedLevel startFrom : option nat) forest next :
  buildTreeFlatArray array requestedLevel startFrom = Ret (forest, next) ->
  root_payload <$> forest =
    payload <$> List.filter (fun h => level h =? or_default requestedLevel 1)
                  (take (next - or_default startFrom 0) (drop (or_default startFrom 0) array)) /\
  Forall (fun h => or_default requestedLevel 1 <= level h)
    (take (next - or_default startFrom 0) (drop (or_default startFrom 0) array)) /\
  (forall cur, array !! next = Some cur -> level cur < or_default requestedLevel 1).
Proof.
  intros Hrun. unfold buildTreeFlatArray in Hrun.
  replace (3 * length array + 2) with (S (3 * length array + 1)) in Hrun by lia.
  change (buildTreeFlatArray_fuel (S ?f) array requestedLevel startFrom)
    with (while_loop f array (or_default requestedLevel 1) [] (or_default startFrom 0))
    in Hrun.
  apply while_loop_roots in Hrun as (seg & Hseg & Hj & Hb & Hroots & Hge & Hnext).
  rewrite <- (passed_records _ _ _ _ Hseg Hj Hb). auto.
Qed.

Lemma roots_are_requested_level_witness :
  root_payload <$> [mkNode "A" "a" [mkNode "B" "b" [mkNode "C" "c" []]; mkNode "D" "d" []]] =
    payload <$> List.filter (fun h => level h =? 1) (take (4 - 0) (drop 0 sample_outline)) /\
  Forall (fun h => 1 <= level h) (take (4 - 0) (drop 0 sample_outline)) /\
  (forall cur, sample_outline !! 4 = Some cur -> level cur < 1).
Proof.
  apply (roots_are_requested_level sample_outline None None). reflexivity.
Defined.

(** X3: no record is put into the tree twice: the nodes of the forest,
    listed parents first, are the payloads of a subsequence of the records
    between the start index and the returned cursor, so that every node
    comes from a record of its own and the nodes keep the order of the
    records; in particular there are at most as many nodes as records
    passed.  The cursor is not before the start index and, unless it is
    the start index itself, not beyond the end of the array. *)
Theorem forest_no_larger_than_input {T} (array : list (Heading T))
    (requestedLevel startFrom : option nat) forest next :
  buildTreeFlatArray array requestedLevel startFrom = Ret (forest, next) ->
  or_default startFrom 0 <= next /\
  (next <= length array \/ next = or_default startFrom 0) /\
  flatten_forest forest `sublist_of`
    (payload <$> take (next - or_default startFrom 0) (drop (or_default startFrom 0) array)) /\
  length (flatten_forest forest) <= next - or_default startFrom 0.
Proof.
  intros Hrun. destruct (forest_size _ _ _ _ _ Hrun) as [Hle Hsize].
  split; [exact Hle |].
  unfold buildTreeFlatArray in Hrun.
  replace (3 * length array + 2) with (S (3 * length array + 1)) in Hrun by lia.
  change (buildTreeFlatArray_fuel (S ?f) array requestedLevel startFrom)
    with (while_loop f array (or_default requestedLevel 1) [] (or_default startFrom 0))
    in Hrun.
  apply while_loop_sublist in Hrun as (seg & Hseg & Hj & Hb & Hsub).
  split; [exact Hb |]. split; [| exact Hsize].
  rewrite <- (passed_records _ _ _ _ Hseg Hj Hb). exact Hsub.
Qed.

Lemma forest_no_larger_than_input_witness :
  0 <= 3 /\ (3 <= 3 \/ 3 = 0) /\
  flatten_forest [mkNode "A" "a" [mkNode "D" "d" []]] `sublist_of`
    (payload <$> take (3 - 0)
       (drop 0 [mkHeading "A" "a" 1; mkHeading "C" "c" 3; mkHeading "D" "d" 2])) /\
  length (flatten_forest [mkNode "A" "a" [mkNode "D" "d" []]]) <= 3 - 0.
Proof.
  apply (forest_no_larger_than_input
           [mkHeading "A" "a" 1; mkHeading "C" "c" 3; mkHeading "D" "d" 2] None None).
  reflexivity.
Defined.

(** X4: if the forest built from the first record on lists every record of
    the array, then the array is a well-formed outline and the cursor
    stands at its end; on any other array the builder throws or leaves
    records out. *)
Theorem complete_forest_only_if_well_formed {T} (array : list (Heading T))
    (requestedLevel : option nat) forest next :
  buildTreeFlatArray array requestedLevel None = Ret (forest, next) ->
  flatten_forest forest = payload <$> array ->
  well_formed (or_default requestedLevel 1) (level <$> array) = true /\
  next = length array.
Proof.
  intros Hrun Hflat.
  assert (Hlen : length (flatten_forest forest) = length array)
    by (rewrite Hflat, length_fmap; reflexivity).
  destruct (forest_size _ _ _ _ _ Hrun) as [_ Hsize]. simpl in Hsize.
  assert (Hnext : next = length array).
  { unfold buildTreeFlatArray in Hrun.
    replace (3 * length array + 2) with (S (3 * length array + 1)) in Hrun by lia.
    change (buildTreeFlatArray_fuel (S ?f) array requestedLevel None)
      with (while_loop f array (or_default requestedLevel 1) [] 0) in Hrun.
    apply while_loop_roots in Hrun as (seg & _ & _ & Hb & _). lia. }
  split; [| exact Hnext]. subst next.
  eapply lossless_well_formed; eassumption.
Qed.

Lemma complete_forest_only_if_well_formed_witness :
  well_formed 1 (level <$> sample_outline) = true /\ 4 = length sample_outline.
Proof.
  apply (complete_forest_only_if_well_formed sample_outline None
           [mkNode "A" "a" [mkNode "B" "b" [mkNode "C" "c" []]; mkNode "D" "d" []]] 4);
    reflexivity.
Defined.

(** X5: [parseTree] throws exactly when the first heading that it keeps
    (the first of level 3 or less) is deeper than level 1. *)
Theorem parseTree_throws_iff {T} (tocArray : list (Heading T)) :
  (exists e, parseTree tocArray = Throw e) <->
  exists h rest, retained tocArray = h :: rest /\ 1 < level h.
Proof.
  unfold parseTree. fold (retained tocArray). split.
  - intros [e Hthrow].
    destruct (buildTreeFlatArray (retained tocArray) None None) as [r|e'|] eqn:Eb;
      try discriminate.
    destruct (proj1 (throws_iff_orphan _ _ _) (ex_intro _ e' Eb)) as (cur & E & Hgt).
    simpl in E, Hgt. destruct (retained tocArray) as [|h rest]; [discriminate |].
    injection E as ->. eauto.
  - intros (h & rest & Hret & Hgt).
    destruct (proj2 (throws_iff_orphan (retained tocArray) None None)) as [e Hthrow].
    + exists h. rewrite Hret. split; [reflexivity | exact Hgt].
    + exists e. rewrite Hthrow. reflexivity.
Qed.

(** X6: [parseTree] returns an outline that lists every heading it keeps,
    in source order, exactly when the kept headings form a well-formed
    outline that opens at level 1. *)
Theorem parseTree_complete_iff {T} (tocArray : list (Heading T)) :
  (exists tree,
      parseTree tocArray = Ret tree /\
      flatten_forest tree = payload <$> retained tocArray) <->
  well_formed 1 (level <$> retained tocArray) = true.
Proof.
  unfold parseTree. fold (retained tocArray). split.
  - intros (tree & Hrun & Hflat).
    destruct (buildTreeFlatArray (retained tocArray) None None) as [[forest next]| |] eqn:Eb;
      try discriminate.
    injection Hrun as <-. simpl in Hflat.
    assert (Hlen : length (flatten_forest forest) = length (retained tocArray))
      by (rewrite Hflat, length_fmap; reflexivity).
    destruct (forest_size _ _ _ _ _ Eb) as [_ Hsize]. simpl in Hsize.
    assert (Hnext : next = length (retained tocArray)).
    { unfold buildTreeFlatArray in Eb.
      replace (3 * length (retained tocArray) + 2)
        with (S (3 * length (retained tocArray) + 1)) in Eb by lia.
      change (buildTreeFlatArray_fuel (S ?f) ?arr None None)
        with (while_loop f arr 1 [] 0) in Eb.
      apply while_loop_roots in Eb as (seg & _ & _ & Hb & _). lia. }
    subst next. apply (lossless_well_formed _ None forest Eb Hlen).
  - intros Hwf.
    destruct (well_formed_flatten (retained tocArray) None Hwf) as (forest & Hrun & Hflat).
    exists forest. rewrite Hrun. split; [reflexivity | exact Hflat].
Qed.

(** * Further properties of parseMeta *)

(** X7: in the object that [parseMeta] returns every key is a non-empty
    text of the lower-case letters a to z, and every value is free of line
    terminators and neither begins nor ends with white space. *)
Theorem parseMeta_entry_shape (content : string) :
  exists meta,
    parseMeta content = Ret meta /\
    forall key value,
      meta !! key = Some value ->
      key <> "" /\
      Forall (fun c => is_lower c = true) (str key) /\
      Forall (fun c => is_dot c = true) (str value) /\
      forall c, head (str value) = Some c \/ last (str value) = Some c -> is_space c = false.
Proof.
  destruct (parseMeta_loop_spec (str content) (S (String.length content)) (str content) ∅ 0)
    as (meta & Hrun & _ & Hkeys); [reflexivity | rewrite str_length; lia |].
  exists meta. split; [exact Hrun |].
  intros key value Hlookup.
  destruct (Hkeys key value Hlookup) as [Hempty|(name & text & Hin & -> & ->)].
  { rewrite lookup_empty in Hempty. discriminate. }
  destruct Hin as (offset & rest & blank & _ & _ & Hne & Hname & Hvalue).
  rewrite !str_unstr. split; [| split; [| split]].
  - intros E. apply unstr_nil, toLower_nil in E. contradiction.
  - apply toLower_letters. exact Hname.
  - apply trim_Forall. exact Hvalue.
  - apply trim_ends.
Qed.

(** X8: directives written one on each line are all read, in their order:
    when the text is made of a part without [<], then lines that hold one
    directive each (at most one blank before the name, a name of letters,
    a value without line terminator), then a part without [<], the object
    returned is the one filled from left to right with, for every line,
    the lower-case name and the trimmed value; a name written twice keeps
    the value of its last line. *)
Theorem parseMeta_directive_lines (content : string) before ds after :
  str content = before ++ meta_lines ds ++ after ->
  Forall (fun c => Ascii.eqb "<" c = false) before ->
  Forall readable ds ->
  Forall (fun c => Ascii.eqb "<" c = false) after ->
  parseMeta content = Ret (fold_left set_entry (entry_of <$> ds) ∅).
Proof.
  intros Hcontent Hbefore Hds Hafter. unfold parseMeta. rewrite Hcontent.
  apply parseMeta_loop_lines; [assumption .. |].
  rewrite <- str_length, Hcontent, !length_app.
  pose proof (meta_lines_length ds). lia.
Qed.

Lemma parseMeta_directive_lines_witness :
  parseMeta (unstr (str "# Home" ++ [LF] ++
                    meta_lines [(str " ", str "TITLE", str " Home ");
                                ([], str "tags", str "a, b");
                                (str " ", str "Title", str "Start")] ++
                    str "text")) =
  Ret (fold_left set_entry [("title", "Home"); ("tags", "a, b"); ("title", "Start")] ∅).
Proof.
  apply (parseMeta_directive_lines _ (str "# Home" ++ [LF])
           [(str " ", str "TITLE", str " Home ");
            ([], str "tags", str "a, b");
            (str " ", str "Title", str "Start")]
           (str "text")).
  - vm_compute. reflexivity.
  - repeat constructor.
  - repeat (apply List.Forall_cons || apply List.Forall_nil);
      (split; [(left; reflexivity) || (right; reflexivity)
              | split; [discriminate | split; repeat constructor]]).
  - repeat constructor.
Defined.

(** X9: [parseMeta] returns the empty object exactly when no directive
    stands anywhere in the text: a directive is never passed over in
    silence, although its own name or value may be taken into the value of
    a directive before it on the same line. *)
Theorem parseMeta_empty_iff (content : string) :
  parseMeta content = Ret ∅ <->
  forall name value, ~ directive_in (str content) name value.
Proof.
  split.
  - intros Hrun name value Hin.
    destruct (exec_directive_in _ _ _ 0 Hin) as [m Hexec].
    destruct (parseMeta_first_key content m Hexec) as (meta & Hrun' & Hkey).
    rewrite Hrun in Hrun'. injection Hrun' as <-.
    rewrite lookup_empty in Hkey. destruct Hkey as [? [=]].
  - intros Hnone. unfold parseMeta. rewrite parseMeta_loop_step.
    destruct (exec commentMeta 0 (str content)) as [m|] eqn:Hexec; [| reflexivity].
    destruct (exec_commentMeta _ _ _ Hexec) as (offset & front & Hd & _).
    destruct (Hnone (group 1 m) (group 2 m)).
    exists offset, (m_rest m). exact Hd.
Qed.

(** X10: the first directive of a text always gives its key: when no [<]
    stands in front of a directive, the object returned has an entry under
    the lower-case form of its name, whatever follows the directive. *)
Theorem first_directive_key (content : string) before blank name value rest :
  str content = before ++ directive_text blank name value ++ rest ->
  Forall (fun c => Ascii.eqb "<" c = false) before ->
  readable (blank, name, value) ->
  exists meta, parseMeta content = Ret meta /\ is_Some (meta !! unstr (toLower name)).
Proof.
  intros Hcontent Hbefore Hd.
  destruct (exec_first_directive before blank name value rest Hbefore Hd)
    as (m & Hexec & Hname & _).
  rewrite <- Hcontent in Hexec.
  destruct (parseMeta_first_key content m Hexec) as (meta & Hrun & Hkey).
  exists meta. rewrite <- Hname. auto.
Qed.

Lemma first_directive_key_witness :
  exists meta,
    parseMeta "intro <!--Author:A--> <!-- title: B --> <b>" = Ret meta /\
    is_Some (meta !! "author").
Proof.
  apply (first_directive_key "intro <!--Author:A--> <!-- title: B --> <b>"
           (str "intro ") [] (str "Author") (str "A") (str " <!-- title: B --> <b>")).
  - reflexivity.
  - repeat constructor.
  - split; [left; reflexivity | split; [discriminate | split; repeat constructor]].
Defined.

(** * Further properties of the content transformer *)

(** X11: a video rule throws exactly when it has a pattern and selects,
    anywhere in the tree, an element without [href]; the exception is a
    TypeError, and in every other case the rule returns a tree.  The rule
    [a.video], which has no pattern, never throws. *)
Theorem embedVideo_throws_iff (parseHTML : string -> list DomNode) (vrule : VideoRule)
    (roots : list DomNode) :
  ((exists e, embedVideo parseHTML vrule roots = Throw e) <->
   regexp vrule <> None /\ 0 < count_all (bare vrule) roots) /\
  ((exists roots', embedVideo parseHTML vrule roots = Ret roots') <->
   regexp vrule = None \/ count_all (bare vrule) roots = 0) /\
  (forall e, embedVideo parseHTML vrule roots = Throw e -> e = TypeError).
Proof.
  destruct (embedVideo_outcome parseHTML vrule roots) as [Hthrow Hret].
  assert (Hcases : (regexp vrule <> None /\ 0 < count_all (bare vrule) roots) \/
                   (regexp vrule = None \/ count_all (bare vrule) roots = 0)).
  { destruct (regexp vrule); [| auto].
    destruct (count_all (bare vrule) roots); [auto | left; split; [discriminate | lia]]. }
  split; [| split].
  - split; [| intros Hbad; rewrite (Hthrow Hbad); eauto].
    intros [e He]. destruct Hcases as [Hbad|Hok]; [exact Hbad |].
    destruct (Hret Hok) as [roots' Hr]. rewrite Hr in He. discriminate.
  - split; [| exact Hret].
    intros [roots' Hr]. destruct Hcases as [Hbad|Hok]; [| exact Hok].
    rewrite (Hthrow Hbad) in Hr. discriminate.
  - intros e He. destruct Hcases as [Hbad|Hok].
    + rewrite (Hthrow Hbad) in He. injection He as <-. reflexivity.
    + destruct (Hret Hok) as [roots' Hr]. rewrite Hr in He. discriminate.
Qed.

(** X12: a list of video rules that select no element of the tree returns
    the tree as it is, and calls the parser for nothing. *)
Theorem embedVideos_without_links (parseHTML : string -> list DomNode)
    (vrules : list VideoRule) (roots : list DomNode) :
  Forall (fun vrule => count_all (selects (selector vrule)) roots = 0) vrules ->
  embedVideos parseHTML vrules roots = Ret roots.
Proof.
  induction 1 as [|vrule vrules Hrule _ IH]; [reflexivity |].
  simpl. rewrite embedVideo_unselected by exact Hrule. exact IH.
Qed.

Lemma embedVideos_without_links_witness :
  embedVideos (fun _ => []) videoRules
    [Tag "p" [] [Tag "a" [("href", "https://youtu.be/abc123")] [Text "a link"]]] =
  Ret [Tag "p" [] [Tag "a" [("href", "https://youtu.be/abc123")] [Text "a link"]]].
Proof.
  apply (embedVideos_without_links (fun _ => []) videoRules
           [Tag "p" [] [Tag "a" [("href", "https://youtu.be/abc123")] [Text "a link"]]]).
  repeat constructor.
Defined.

(** X13: [parseContent] returns a document unchanged when no rule has
    anything to do on it: the document has an element, its first element
    is no paragraph, and it holds no [h1], [h2] or [h3], no block quote
    among the children of the root, no link that a video rule selects and
    no image with the class [align-center]. *)
Theorem plain_document_unchanged (parseHTML : string -> list DomNode) (roots : list DomNode) :
  plain roots -> parseContent parseHTML roots = Ret roots.
Proof.
  intros (Helem & Hfirst & Hhead & Hquote & Hvideo & Himg).
  unfold parseContent.
  destruct (elements roots) as [|e es] eqn:E; [contradiction |].
  change (length (e :: es) <? 1) with false. cbv iota. cbv zeta.
  rewrite checkFirstElement_other by (rewrite E; exact Hfirst).
  unfold bind at 1. cbv beta zeta.
  assert (Hstrip : stripHeadingLinks parseHTML roots = roots).
  { apply map_fixed. apply count_all_zero in Hhead.
    eapply Forall_impl; [exact Hhead |]. intros n. apply strip_links_none. }
  rewrite Hstrip.
  assert (Hhoist : hoistBlockquoteClasses roots = roots).
  { apply map_fixed. apply count_top_zero in Hquote.
    eapply Forall_impl; [exact Hquote |]. intros n. apply hoist_classes_other. }
  rewrite Hhoist.
  assert (Hh : forall hname, In hname headings -> count_all (is_named [hname]) roots = 0).
  { intros hname Hin.
    pose proof (count_all_mono (is_named [hname]) (is_named headings) roots
                  (fun n => heading_named hname n Hin)). lia. }
  rewrite (encloseBelow_none "h2") by (apply Hh; simpl; auto).
  rewrite (encloseBelow_none "h3") by (apply Hh; simpl; auto).
  rewrite embedVideos_unselected by exact Hvideo. simpl bind. f_equal.
  apply map_fixed. apply count_all_zero in Himg.
  eapply Forall_impl; [exact Himg |]. intros n. apply align_node_none.
Qed.

Lemma plain_document_unchanged_witness :
  parseContent (fun _ => [])
    [Text "intro";
     Tag "ul" [] [Tag "li" [] [Tag "a" [("href", "/home")] [Text "Home"]]];
     Tag "p" [] [Tag "img" [("src", "a.png")] []]] =
  Ret [Text "intro";
       Tag "ul" [] [Tag "li" [] [Tag "a" [("href", "/home")] [Text "Home"]]];
       Tag "p" [] [Tag "img" [("src", "a.png")] []]].
Proof.
  apply (plain_document_unchanged (fun _ => [])).
  split; [discriminate |]. split; [intros n [= <-]; reflexivity |].
  split; [reflexivity |]. split; [reflexivity |]. split; [repeat constructor | reflexivity].
Defined.

(** X14: after the section enclosure every [h2] of the tree has a
    container [div.indent-h2] as the node right behind it, and every [h3]
    a container [div.indent-h3]; this at every depth, and whatever the
    document was. *)
Theorem headings_followed_by_containers (roots : list DomNode) :
  sectioned "h2" "indent-h2" (encloseSections roots) = true /\
  sectioned "h3" "indent-h3" (encloseSections roots) = true.
Proof.
  unfold encloseSections. split.
  - apply sectioned_encloseBelow.
    + intros n. apply heading_is_stop. reflexivity.
    + reflexivity.
    + right. split; [reflexivity | discriminate].
    + right. apply sectioned_encloseBelow.
      * intros n. apply heading_is_stop. reflexivity.
      * reflexivity.
      * left. split; reflexivity.
      * left. reflexivity.
  - apply sectioned_encloseBelow.
    + intros n. apply heading_is_stop. reflexivity.
    + reflexivity.
    + left. split; reflexivity.
    + left. reflexivity.
Qed.

(** X15: the youtube rule finds the video id of the two common forms of a
    link, [https://youtu.be/ID] and [https://www.youtube.com/watch?v=ID]:
    when the id is not empty and holds none of [#], [&] and [?], and the
    link ends behind it or goes on with one of these three, the text put
    into the template is the id alone; what follows the id is dropped. *)
Theorem youtube_id_extracted (link : string) (id tail : list ascii) :
  id <> [] ->
  Forall (fun c => id_unit c = true) id ->
  ends_id tail ->
  str link = str "https://youtu.be/" ++ id ++ tail \/
  str link = str "https://www.youtube.com/watch?v=" ++ id ++ tail ->
  originLink youtube_rule (Some link) = Ret (Some id).
Proof.
  intros Hne Hid Htail [Hlink|Hlink].
  - apply (youtube_origin link 8 (str "youtu.be/") id tail); try assumption.
    + intros rest caps k x. apply youtube_short_mark.
    + rewrite Hlink. exact (youtube_skip_scheme (str "youtu.be/" ++ id ++ tail)).
  - apply (youtube_origin link 24 (str "watch?v=") id tail); try assumption.
    + intros rest caps k x. apply youtube_watch_mark.
    + rewrite Hlink. exact (youtube_skip_host (str "watch?v=" ++ id ++ tail)).
Qed.

Lemma youtube_id_extracted_witness :
  originLink youtube_rule (Some "https://www.youtube.com/watch?v=dQw4w9WgXcQ&t=42") =
  Ret (Some (str "dQw4w9WgXcQ")).
Proof.
  apply (youtube_id_extracted _ (str "dQw4w9WgXcQ") (str "&t=42")).
  - discriminate.
  - repeat constructor.
  - reflexivity.
  - right. reflexivity.
Defined.

(** X16: a link without dollar sign is put into the template of a video
    rule as it is, in the place of [{0}]; so is the text [undefined] when
    the rule has no link. *)
Theorem link_embedded_verbatim (vrule : VideoRule) (link : option (list ascii)) :
  In vrule videoRules ->
  Forall (fun c => no_dollar c = true) (to_string link) ->
  exists before after,
    str (output vrule) = before ++ str "{0}" ++ after /\
    str (processedLink vrule link) = before ++ to_string link ++ after.
Proof.
  intros Hrule Hlink.
  destruct (output_placeholder vrule Hrule) as (before & after & Hfind & Hsplit).
  exists before, after. split; [exact Hsplit |].
  unfold processedLink, replace. rewrite str_unstr, Hfind, substitution_plain by exact Hlink.
  reflexivity.
Qed.

Lemma link_embedded_verbatim_witness :
  exists before after,
    str (output video_rule) = before ++ str "{0}" ++ after /\
    str (processedLink video_rule None) = before ++ str "undefined" ++ after.
Proof.
  apply (link_embedded_verbatim video_rule None).
  - simpl. auto.
  - repeat constructor.
Defined.

(** X17: a dollar sign in the link is read as in a replacement pattern:
    in the place of [{0}] a doubled dollar sign comes out as one, [$&] as
    the placeholder [{0}] itself, and the dollar sign with a grave accent
    or an apostrophe as the part of the template before or behind the
    placeholder. *)
Theorem dollar_patterns_in_link (vrule : VideoRule) (x y : list ascii) :
  In vrule videoRules ->
  Forall (fun c => no_dollar c = true) x ->
  Forall (fun c => no_dollar c = true) y ->
  exists before after,
    str (output vrule) = before ++ str "{0}" ++ after /\
    str (processedLink vrule (Some (x ++ str "$$" ++ y))) =
      before ++ (x ++ str "$" ++ y) ++ after /\
    str (processedLink vrule (Some (x ++ str "$&" ++ y))) =
      before ++ (x ++ str "{0}" ++ y) ++ after /\
    str (processedLink vrule (Some (x ++ str "$`" ++ y))) =
      before ++ (x ++ before ++ y) ++ after /\
    str (processedLink vrule (Some (x ++ str "$'" ++ y))) =
      before ++ (x ++ after ++ y) ++ after.
Proof.
  intros Hrule Hx Hy.
  destruct (output_placeholder vrule Hrule) as (before & after & Hfind & Hsplit).
  exists before, after. split; [exact Hsplit |].
  unfold processedLink, replace. rewrite !str_unstr, Hfind.
  unfold to_string. cbn [from_option id].
  repeat split; rewrite (substitution_app _ _ _ x) by exact Hx; simpl substitution;
    rewrite (substitution_plain _ _ _ y Hy); reflexivity.
Qed.

Lemma dollar_patterns_in_link_witness :
  exists before after,
    str (output video_rule) = before ++ str "{0}" ++ after /\
    str (processedLink video_rule (Some (str "/a" ++ str "$$" ++ str ".mp4"))) =
      before ++ (str "/a" ++ str "$" ++ str ".mp4") ++ after /\
    str (processedLink video_rule (Some (str "/a" ++ str "$&" ++ str ".mp4"))) =
      before ++ (str "/a" ++ str "{0}" ++ str ".mp4") ++ after /\
    str (processedLink video_rule (Some (str "/a" ++ str "$`" ++ str ".mp4"))) =
      before ++ (str "/a" ++ before ++ str ".mp4") ++ after /\
    str (processedLink video_rule (Some (str "/a" ++ str "$'" ++ str ".mp4"))) =
      before ++ (str "/a" ++ after ++ str ".mp4") ++ after.
Proof.
  apply (dollar_patterns_in_link video_rule (str "/a") (str ".mp4")).
  - simpl. auto.
  - repeat constructor.
  - repeat constructor.
Defined.

(** X18: the vimeo rule finds the number of a link [https://vimeo.com/N]:
    when the number is not empty, made of digits, and the link ends behind
    it or goes on with [/] or [?], the text put into the template is the
    number alone.  The dot of the host is not escaped in the pattern, so
    that any code unit but a line terminator may stand in its place. *)
Theorem vimeo_number_extracted (link : string) (c : ascii) (digits tail : list ascii) :
  is_dot c = true ->
  digits <> [] ->
  Forall (fun d => is_digit d = true) digits ->
  ends_number tail ->
  str link = str "https://vimeo" ++ c :: str "com/" ++ digits ++ tail ->
  originLink vimeo_rule (Some link) = Ret (Some digits).
Proof.
  intros Hc Hne Hdigits Htail Hlink.
  destruct (vimeo_number digits tail [] Hne Hdigits Htail) as [s' Hs'].
  assert (Hm : exists m, exec vimeo_regexp 0 (str link) = Some m /\
                         m_captures m = [(1, digits)]).
  { rewrite Hlink.
    change (str "https://vimeo" ++ c :: str "com/" ++ digits ++ tail)
      with (str "https://" ++ str "vimeo" ++ c :: str "com/" ++ digits ++ tail).
    rewrite vimeo_skip_scheme. eexists.
    split; [apply exec_here; unfold match_here;
            rewrite (vimeo_any_host c _ _ _ Hc), Hs' |]; reflexivity. }
  destruct Hm as (m & Hm & Hcaps).
  apply (origin_of_match vimeo_rule vimeo_regexp link m digits);
    [reflexivity | reflexivity | exact Hm | exact Hcaps | exact Hne].
Qed.

Lemma vimeo_number_extracted_witness :
  originLink vimeo_rule (Some "https://vimeo.com/76979871?share=copy") =
  Ret (Some (str "76979871")).
Proof.
  apply (vimeo_number_extracted _ "."%char (str "76979871") (str "?share=copy")).
  - reflexivity.
  - discriminate.
  - repeat constructor.
  - right. reflexivity.
  - reflexivity.
Defined.

(** X19: the dailymotion rule finds the key of a link
    [https://www.dailymotion.com/video/KEY] or [https://dai.ly/KEY]: when
    the key is not empty and made of letters and digits, is followed by
    nothing or by a slug that begins with a hyphen or an underscore and is
    made of letters, digits, hyphens and underscores, and the link ends
    there or goes on with a code unit that is none of these and not [#],
    the text put into the template is the key alone. *)
Theorem dailymotion_key_extracted (link : string) (id slug tail : list ascii) :
  id <> [] ->
  Forall (fun c => is_alnum c = true) id ->
  Forall (fun c => is_id_char c = true) slug ->
  slug_start slug ->
  ends_key tail ->
  str link = str "https://www.dailymotion.com/video/" ++ id ++ slug ++ tail \/
  str link = str "https://dai.ly/" ++ id ++ slug ++ tail ->
  originLink dailymotion_rule (Some link) = Ret (Some id).
Proof.
  intros Hne Hid Hslug Hstart Htail [Hlink|Hlink].
  - apply (dailymotion_origin link 12 (str "dailymotion.com/video/") id slug tail);
      try assumption.
    + apply dailymotion_long_host.
    + rewrite Hlink.
      exact (dailymotion_skip_www (str "dailymotion.com/video/" ++ id ++ slug ++ tail)).
  - apply (dailymotion_origin link 8 (str "dai.ly/") id slug tail); try assumption.
    + apply dailymotion_short_host.
    + rewrite Hlink. exact (dailymotion_skip_scheme (str "dai.ly/" ++ id ++ slug ++ tail)).
Qed.

Lemma dailymotion_key_extracted_witness :
  originLink dailymotion_rule
    (Some "https://www.dailymotion.com/video/x2bzq9_the-title?start=10") =
  Ret (Some (str "x2bzq9")).
Proof.
  apply (dailymotion_key_extracted _ (str "x2bzq9") (str "_the-title") (str "?start=10")).
  - discriminate.
  - repeat constructor.
  - repeat constructor.
  - reflexivity.
  - split; reflexivity.
  - left. reflexivity.
Defined.

(** X20: the two rules that move classes change nothing but class
    attributes: with the class attributes taken away, the tree behind
    [hoistBlockquoteClasses] and the tree behind [alignCenter] are the
    tree before; no node, no name, no text and no other attribute is
    added, lost or moved. *)
Theorem class_rules_keep_tree (roots : list DomNode) :
  map erase_classes (hoistBlockquoteClasses roots) = map erase_classes roots /\
  map erase_classes (alignCenter roots) = map erase_classes roots.
Proof.
  unfold hoistBlockquoteClasses, alignCenter. rewrite !map_map. split.
  - apply map_ext_Forall, List.Forall_forall. intros n _. apply erase_hoist_classes.
  - apply map_ext_Forall, List.Forall_forall. intros n _. apply erase_align_node.
Qed.
